(** * rununtil: run until signalled to stop

    A model of the Go package [rununtil] (file [rununtil.go]) and the proofs
    of its specification.

    The package has three parts:
    - the [canceller], a mutex-protected map from a key to a [chan struct{}],
      with the methods [addChannel] and [cancelAll];
    - [AwaitKillSignals], which subscribes to OS signals, registers a fresh
      channel with the global canceller, invokes the runner functions,
      defers the shutdown functions they return, and blocks in a [select]
      on the two channels;
    - [CancelAll] and the thin wrappers [AwaitKillSignal], [KillSignal] and
      [Signals].

    The program is concurrent: several goroutines may be inside
    [AwaitKillSignals] while others call [CancelAll] and the operating
    system delivers signals.  It is modelled as a transition system whose
    state holds the global canceller, the channel heap and one record per
    invocation of [AwaitKillSignals]; an [Action] names which goroutine takes
    its next statement (or which outside event happens), and [step] executes
    it.  Every interleaving of statements is a list of actions.

    In that transition system a call of [addChannel] or [cancelAll] is one
    step.  That this is right is shown on a second transition system, in
    which the calls of the two methods take their statements one at a time
    ([Lock], the assignment to the map, the iterations of the [range] with
    their [close] and [delete], [Unlock]): there the mutex is what keeps
    the calls apart, and every interleaving comes to the same state as the
    calls executed one after the other.

    The deprecated [Killed] starts its argument in a goroutine and calls
    [CancelAll] once a context is cancelled; in the transition system that
    is a [CancelAll] action at some point of the schedule.  The goroutines
    of [Killed] are modelled statement by statement in the part on the test
    harness, as a second transition system over the first. *)

From stdpp Require Import gmap strings list fin_maps.

(** ** Go values *)

(** [os.Signal] values are [syscall.Signal] numbers. *)
Abbreviation Signal := nat (only parsing).
Definition SIGINT : Signal := 2.
Definition SIGTERM : Signal := 15.

(** Outcome of executing a statement: it completes, it cannot be taken in
    this state (the goroutine is blocked, or the schedule names a statement
    the goroutine is not at), or it panics. *)
Inductive Result (A : Type) : Type :=
| Ok (a : A)
| Blocked
| Panic.
Arguments Ok {A} a.
Arguments Blocked {A}.
Arguments Panic {A}.

Definition bind {A B : Type} (m : Result A) (k : A → Result B) : Result B :=
  match m with
  | Ok a => k a
  | Blocked => Blocked
  | Panic => Panic
  end.

Notation "'do' x <- m ; k" := (bind m (fun x => k))
  (at level 10, x name, m at level 100, k at level 200).

(** The two cases of the [select] in [AwaitKillSignals]. *)
Inductive Source := FromSignal | FromFinish.

(** What one invocation of [AwaitKillSignals] has done so far, in order.
    This is a ghost log: the code does not keep it, the model appends to it
    at each statement. *)
Inductive Event :=
| EvNotify (c : nat)                      (* signal.Notify(c, signals...) returned *)
| EvRegister (key : string) (finish : nat)  (* addChannel(uuid.String(), finish) returned *)
| EvRunner (i : nat)                      (* runnerFuncs[i]() returned *)
| EvWake (src : Source)                   (* the select took a case *)
| EvShutdown (i : nat)                    (* the shutdown func of runner i returned *)
| EvReturn.                               (* AwaitKillSignals returned *)

#[global] Instance Source_eq_dec : EqDecision Source.
Proof. solve_decision. Defined.
#[global] Instance Event_eq_dec : EqDecision Event.
Proof. solve_decision. Defined.

(** Where an invocation of [AwaitKillSignals] stands. *)
Inductive Pc :=
| AtNotify          (* entered; lines 138-139 not yet executed *)
| AtRegister        (* lines 141-143 not yet executed *)
| AtLoop (i : nat)  (* in the for loop of line 145, about to take runnerFuncs[i] *)
| AtSelect          (* at the select of line 151 *)
| AtReturn          (* left the select; the deferred calls are running *)
| Returned.         (* returned to the caller *)

#[global] Instance Pc_eq_dec : EqDecision Pc.
Proof. solve_decision. Defined.

(** A [chan os.Signal] of capacity 1 together with its entry in the handler
    table of package [os/signal]: [watched = None] before [signal.Notify],
    [Some sigs] after [signal.Notify(c, sigs...)]. *)
Record SigChan := mkSigChan {
  watched : option (list Signal);
  buf : list Signal
}.

(** [type canceller struct { signals map[string]chan struct{}; mux sync.Mutex }].
    A [chan struct{}] is an address in the channel heap of the state. *)
Record canceller := mkCanceller {
  signals : gmap string nat;
  mux : bool
}.

(** [func (h *handler) want(sig int) bool] of package [os/signal], together
    with [signal.Notify]'s rule for an empty list: "If no signals are
    provided, all incoming signals will be relayed to c."  This is the Go
    standard library's documented behaviour. *)
Definition wants (sigs : list Signal) (s : Signal) : bool :=
  match sigs with
  | [] => true
  | _ => bool_decide (s ∈ sigs)
  end.

(** The runtime's delivery of signal [s] to one channel: a send that does
    not block, dropped when the buffer (capacity 1) is full. *)
Definition relay (s : Signal) (sc : SigChan) : SigChan :=
  match watched sc with
  | Some sigs =>
      if wants sigs s && bool_decide (length (buf sc) < 1)
      then mkSigChan (watched sc) (buf sc ++ [s])
      else sc
  | None => sc
  end.



Section Rununtil.

(** The caller's world: whatever the background work started by the runners
    and stopped by the shutdown functions acts on.  Runner and shutdown
    functions are taken to be non-nil, to return, and not to panic; they act
    on the world only (they do not call back into this package). *)
Context {W : Type}.

(** [type ShutdownFunc func()] *)
Definition ShutdownFunc : Type := W → W.

(** [type RunnerFunc func() ShutdownFunc] *)
Definition RunnerFunc : Type := W → ShutdownFunc * W.

(** One invocation of [AwaitKillSignals]: its arguments, its local variables
    [c] and [finish], its position, its stack of deferred calls (most
    recently deferred first, each tagged with the index of the runner that
    returned it) and its log. *)
Record Thread := mkThread {
  t_signals : list Signal;
  t_runners : list RunnerFunc;
  t_c : option nat;
  t_finish : option nat;
  t_pc : Pc;
  t_defers : list (nat * ShutdownFunc);
  t_trace : list Event
}.

Record State := mkState {
  globalCanceller : canceller;
  chans : gmap nat bool;          (* heap of chan struct{}: true = closed *)
  sigchans : gmap nat SigChan;    (* heap of chan os.Signal *)
  threads : list Thread;
  world : W;
  closes : list nat               (* ghost: every close executed, in order *)
}.

Definition set_canc (st : State) (canc : canceller) : State :=
  mkState canc (chans st) (sigchans st) (threads st) (world st) (closes st).
Definition set_chans (st : State) (h : gmap nat bool) : State :=
  mkState (globalCanceller st) h (sigchans st) (threads st) (world st) (closes st).
Definition set_sigchans (st : State) (h : gmap nat SigChan) : State :=
  mkState (globalCanceller st) (chans st) h (threads st) (world st) (closes st).
Definition set_threads (st : State) (ts : list Thread) : State :=
  mkState (globalCanceller st) (chans st) (sigchans st) ts (world st) (closes st).
Definition set_world (st : State) (w : W) : State :=
  mkState (globalCanceller st) (chans st) (sigchans st) (threads st) w (closes st).
Definition set_closes (st : State) (l : list nat) : State :=
  mkState (globalCanceller st) (chans st) (sigchans st) (threads st) (world st) l.

(** ** The canceller *)

(** [canc.mux.Lock()]: blocks while the mutex is held. *)
Definition Lock (st : State) : Result State :=
  if mux (globalCanceller st) then Blocked
  else Ok (set_canc st (mkCanceller (signals (globalCanceller st)) true)).

(** [canc.mux.Unlock()]: unlocking a mutex that is not locked is a fatal
    error. *)
Definition Unlock (st : State) : Result State :=
  if mux (globalCanceller st)
  then Ok (set_canc st (mkCanceller (signals (globalCanceller st)) false))
  else Panic.

(** [func init()]: the state of the package once it is loaded, with the
    caller's world [w]. *)
Definition init (w : W) : State :=
  mkState (mkCanceller ∅ false) ∅ ∅ [] w [].

(** [func (canc *canceller) addChannel(key string, c chan struct{})].  The
    deferred [Unlock] runs when the method returns. *)
Definition addChannel (key : string) (c : nat) (st : State) : Result State :=
  do st1 <- Lock st;
  let canc := globalCanceller st1 in
  Unlock (set_canc st1 (mkCanceller (<[key := c]> (signals canc)) (mux canc))).

(** [close(ch)] on a [chan struct{}]: closing a nil channel panics, closing
    a closed channel panics. *)
Definition close (ch : option nat) (st : State) : Result State :=
  match ch with
  | None => Panic
  | Some c =>
      match chans st !! c with
      | Some false =>
          Ok (set_closes (set_chans st (<[c := true]> (chans st))) (closes st ++ [c]))
      | _ => Panic
      end
  end.

(** The body of [for key := range canc.signals { ... }], taken over the keys
    in the order [order] the runtime produces them. *)
Fixpoint cancelAll_range (order : list string) (st : State) : Result State :=
  match order with
  | [] => Ok st
  | key :: rest =>
      do st1 <- close (signals (globalCanceller st) !! key) st;
      let canc := globalCanceller st1 in
      cancelAll_range rest
        (set_canc st1 (mkCanceller (delete key (signals canc)) (mux canc)))
  end.

(** The orders in which a [range] over map [m] can produce its keys: every
    key once (the loop deletes only the key it is at). *)
Definition range_order (order : list string) (m : gmap string nat) : Prop :=
  NoDup order ∧ list_to_set order = dom m.

#[global] Instance range_order_dec order m : Decision (range_order order m).
Proof. unfold range_order. apply _. Defined.

(** [func (canc *canceller) cancelAll()].  The deferred [Unlock] runs when
    the method returns; a panic in the loop ends the run of the program. *)
Definition cancelAll (order : list string) (st : State) : Result State :=
  do st1 <- Lock st;
  do st2 <- cancelAll_range order st1;
  Unlock st2.

(** ** The transition system *)

(** The statements a goroutine can take and the events of the environment.
    What the code leaves to its environment is an argument of the action:
    the identifier [uuid.New()] returns, which ready case the [select]
    takes, the order of the [range] over the map. *)
Inductive Action :=
| AwaitKillSignals (sigs : list Signal) (runnerFuncs : list RunnerFunc)
    (* a goroutine calls AwaitKillSignals(sigs, runnerFuncs...) *)
| Notify (t : nat)
    (* c := make(chan os.Signal, 1); signal.Notify(c, signals...) *)
| Register (t : nat) (uuid : string)
    (* finish := make(chan struct{}); uuid := uuid.New();
       globalCanceller.addChannel(uuid.String(), finish) *)
| RunNext (t : nat)
    (* one iteration of the for loop: shutdown := runner(); defer shutdown();
       or, when the slice is exhausted, leaving the loop *)
| Wake (t : nat) (src : Source)
    (* the select takes the case <-c or the case <-finish *)
| RunDefer (t : nat)
    (* the function returns: the next deferred call runs; when none is
       left, control goes back to the caller *)
| Deliver (s : Signal)
    (* the operating system delivers signal s to the process, and package
       os/signal relays it to the channels subscribed to it *)
| CancelAll (order : list string).
    (* a goroutine calls CancelAll() *)

(** An invocation after a statement: new local variables, position and
    stack of deferred calls, and the events [es] added to its log. *)
Definition advance (th : Thread) (c finish : option nat) (pc : Pc)
    (ds : list (nat * ShutdownFunc)) (es : list Event) : Thread :=
  mkThread (t_signals th) (t_runners th) c finish pc ds (t_trace th ++ es).

(** The state with the record of invocation [t] replaced. *)
Definition upd (st : State) (t : nat) (th : Thread) : State :=
  set_threads st (<[t := th]> (threads st)).

(** Lines 138-139. *)
Definition step_Notify (t : nat) (st : State) : Result State :=
  match threads st !! t with
  | Some th =>
      match t_pc th with
      | AtNotify =>
          let c := fresh (dom (sigchans st)) in
          Ok (upd (set_sigchans st
                     (<[c := mkSigChan (Some (t_signals th)) []]> (sigchans st)))
                t (advance th (Some c) None AtRegister (t_defers th) [EvNotify c]))
      | _ => Blocked
      end
  | None => Blocked
  end.

(** Lines 141-143. *)
Definition step_Register (t : nat) (uuid : string) (st : State) : Result State :=
  match threads st !! t with
  | Some th =>
      match t_pc th with
      | AtRegister =>
          let finish := fresh (dom (chans st)) in
          do st1 <- addChannel uuid finish
                      (set_chans st (<[finish := false]> (chans st)));
          Ok (upd st1 t (advance th (t_c th) (Some finish) (AtLoop 0)
                           (t_defers th) [EvRegister uuid finish]))
      | _ => Blocked
      end
  | None => Blocked
  end.

(** Lines 145-148. *)
Definition step_RunNext (t : nat) (st : State) : Result State :=
  match threads st !! t with
  | Some th =>
      match t_pc th with
      | AtLoop i =>
          match t_runners th !! i with
          | Some runner =>
              let '(shutdown, w) := runner (world st) in
              Ok (upd (set_world st w) t
                    (advance th (t_c th) (t_finish th) (AtLoop (S i))
                       ((i, shutdown) :: t_defers th) [EvRunner i]))
          | None =>
              Ok (upd st t (advance th (t_c th) (t_finish th) AtSelect
                              (t_defers th) []))
          end
      | _ => Blocked
      end
  | None => Blocked
  end.

(** Lines 151-156: a case of the select can be taken when its channel has a
    value to receive; a closed channel always has. *)
Definition step_Wake (t : nat) (src : Source) (st : State) : Result State :=
  match threads st !! t with
  | Some th =>
      match t_pc th with
      | AtSelect =>
          match src with
          | FromSignal =>
              match t_c th with
              | Some c =>
                  match sigchans st !! c with
                  | Some sc =>
                      match buf sc with
                      | _ :: rest =>
                          Ok (upd (set_sigchans st
                                     (<[c := mkSigChan (watched sc) rest]> (sigchans st)))
                                t (advance th (t_c th) (t_finish th) AtReturn
                                     (t_defers th) [EvWake FromSignal]))
                      | [] => Blocked
                      end
                  | None => Blocked
                  end
              | None => Blocked
              end
          | FromFinish =>
              match t_finish th with
              | Some f =>
                  match chans st !! f with
                  | Some true =>
                      Ok (upd st t (advance th (t_c th) (t_finish th) AtReturn
                                      (t_defers th) [EvWake FromFinish]))
                  | _ => Blocked
                  end
              | None => Blocked
              end
          end
      | _ => Blocked
      end
  | None => Blocked
  end.

(** Line 157: the deferred calls run last-in first-out, then the function
    returns. *)
Definition step_RunDefer (t : nat) (st : State) : Result State :=
  match threads st !! t with
  | Some th =>
      match t_pc th with
      | AtReturn =>
          match t_defers th with
          | (i, shutdown) :: rest =>
              Ok (upd (set_world st (shutdown (world st))) t
                    (advance th (t_c th) (t_finish th) AtReturn rest [EvShutdown i]))
          | [] =>
              Ok (upd st t (advance th (t_c th) (t_finish th) Returned [] [EvReturn]))
          end
      | _ => Blocked
      end
  | None => Blocked
  end.

Definition step (a : Action) (st : State) : Result State :=
  match a with
  | AwaitKillSignals sigs runnerFuncs =>
      Ok (set_threads st
            (threads st ++ [mkThread sigs runnerFuncs None None AtNotify [] []]))
  | Notify t => step_Notify t st
  | Register t uuid => step_Register t uuid st
  | RunNext t => step_RunNext t st
  | Wake t src => step_Wake t src st
  | RunDefer t => step_RunDefer t st
  | Deliver s => Ok (set_sigchans st (relay s <$> sigchans st))
  | CancelAll order =>
      if decide (range_order order (signals (globalCanceller st)))
      then cancelAll order st
      else Blocked
  end.

Fixpoint run (acts : list Action) (st : State) : Result State :=
  match acts with
  | [] => Ok st
  | a :: rest => do st1 <- step a st; run rest st1
  end.

(** The states the package can be in: those some schedule leads to from the
    state after [init]. *)
Definition reachable (st : State) : Prop :=
  ∃ w acts, run acts (init w) = Ok st.

(** The invocation that takes the step, when the action is a statement of
    one. *)
Definition actor (a : Action) : option nat :=
  match a with
  | Notify t | Register t _ | RunNext t | Wake t _ | RunDefer t => Some t
  | AwaitKillSignals _ _ | Deliver _ | CancelAll _ => None
  end.

(** The position an invocation must be at for a statement to be its next. *)
Definition takes_at (a : Action) (pc : Pc) : Prop :=
  match a, pc with
  | Notify _, AtNotify => True
  | Register _ _, AtRegister => True
  | RunNext _, AtLoop _ => True
  | Wake _ _, AtSelect => True
  | RunDefer _, AtReturn => True
  | _, _ => False
  end.

(** The for loop of lines 145-148 run to its end from index [i] over the
    remaining runners [rs], with [ds] already deferred: the stack of deferred
    calls and the world it ends with. *)
Fixpoint start_all (rs : list RunnerFunc) (i : nat)
    (ds : list (nat * ShutdownFunc)) (w : W) : list (nat * ShutdownFunc) * W :=
  match rs with
  | [] => (ds, w)
  | runner :: rest =>
      let '(shutdown, w1) := runner w in
      start_all rest (S i) ((i, shutdown) :: ds) w1
  end.

(** Running a stack of deferred calls, top first. *)
Definition stop_all (ds : list (nat * ShutdownFunc)) (w : W) : W :=
  foldl (λ w d, d.2 w) w ds.

(** ** The wrappers *)

(** [func AwaitKillSignal(runnerFuncs ...RunnerFunc)] *)
Definition AwaitKillSignal (runnerFuncs : list RunnerFunc) : Action :=
  AwaitKillSignals [SIGINT; SIGTERM] runnerFuncs.

(** [func KillSignal(runner RunnerFunc)] *)
Definition KillSignal (runner : RunnerFunc) : Action :=
  AwaitKillSignal [runner].

(** [func Signals(runner RunnerFunc, signals ...os.Signal)] *)
Definition Signals (runner : RunnerFunc) (sigs : list Signal) : Action :=
  AwaitKillSignals sigs [runner].

(** The wrappers as the specification words them: [await_kill_signal]
    "watches the platform's standard interrupt and terminate signals;
    equivalent to await_kill_signals(default_signal_set, runners...)"; the
    deprecated aliases are "single-runner, single/variadic-signal convenience
    forms that construct the equivalent call into the Orchestrator". *)
Definition default_signal_set : list Signal := [SIGINT; SIGTERM].

Definition spec_await_kill_signal (runners : list RunnerFunc) : Action :=
  AwaitKillSignals default_signal_set runners.

Definition spec_kill_signal (runner : RunnerFunc) : Action :=
  AwaitKillSignals default_signal_set [runner].

Definition spec_signals (runner : RunnerFunc) (sigs : list Signal) : Action :=
  AwaitKillSignals sigs [runner].

End Rununtil.

Arguments Thread : clear implicits.
Arguments State : clear implicits.
Arguments Action : clear implicits.
Arguments ShutdownFunc : clear implicits.
Arguments RunnerFunc : clear implicits.

(** ** Predicates of the specification *)

Section Predicates.
Context {W : Type}.
Implicit Types st : State W.

(** What holds of the entries of the registry, also inside a critical
    section: every entry of the map holds a channel that is open (not yet
    notified); no channel is held by two entries; no channel has been closed
    twice, and the closed channels are exactly those some close was executed
    on. *)
Record entries_ok st : Prop := {
  ok_open : ∀ k c, signals (globalCanceller st) !! k = Some c → chans st !! c = Some false;
  ok_inj : ∀ k1 k2 c, signals (globalCanceller st) !! k1 = Some c →
                      signals (globalCanceller st) !! k2 = Some c → k1 = k2;
  ok_nodup : NoDup (closes st);
  ok_closes : ∀ c, c ∈ closes st ↔ chans st !! c = Some true
}.

(** The registry invariant: between operations the mutex is free and the
    entries are as above. *)
Definition registry_inv st : Prop :=
  mux (globalCanceller st) = false ∧ entries_ok st.

(** The channels the entries of the registry hold, for the keys [order]. *)
Definition registered (order : list string) st : list nat :=
  omap (λ k, signals (globalCanceller st) !! k) order.

(** The log of runners [0 .. i-1], in the order of the slice. *)
Definition started (i : nat) : list Event := EvRunner <$> seq 0 i.

(** What the log of an invocation with local variables [c], [finish] and
    registry key [key] starts with once it is in the loop. *)
Definition prologue (c : nat) (key : string) (finish : nat) : list Event :=
  [EvNotify c; EvRegister key finish].

(** The shape of one invocation: at each position, what its log and its
    stack of deferred calls are.  [n] is the number of runners it was given. *)
Definition thread_shape (th : Thread W) : Prop :=
  let n := length (t_runners th) in
  match t_pc th with
  | AtNotify =>
      t_c th = None ∧ t_finish th = None ∧ t_defers th = [] ∧ t_trace th = []
  | AtRegister =>
      ∃ c, t_c th = Some c ∧ t_finish th = None ∧ t_defers th = [] ∧
           t_trace th = [EvNotify c]
  | AtLoop i =>
      i ≤ n ∧ ∃ c key f, t_c th = Some c ∧ t_finish th = Some f ∧
        (t_defers th).*1 = reverse (seq 0 i) ∧
        t_trace th = prologue c key f ++ started i
  | AtSelect =>
      ∃ c key f, t_c th = Some c ∧ t_finish th = Some f ∧
        (t_defers th).*1 = reverse (seq 0 n) ∧
        t_trace th = prologue c key f ++ started n
  | AtReturn =>
      ∃ c key f src done, t_c th = Some c ∧ t_finish th = Some f ∧
        done ++ (t_defers th).*1 = reverse (seq 0 n) ∧
        t_trace th = prologue c key f ++ started n ++ [EvWake src] ++
                     (EvShutdown <$> done)
  | Returned =>
      ∃ c key f src, t_c th = Some c ∧ t_finish th = Some f ∧
        t_defers th = [] ∧
        t_trace th = prologue c key f ++ started n ++ [EvWake src] ++
                     (EvShutdown <$> reverse (seq 0 n)) ++ [EvReturn]
  end.

(** Every deferred call is a shutdown function that the runner of its index
    returned. *)
Definition defers_from_runners (th : Thread W) : Prop :=
  ∀ i f, (i, f) ∈ t_defers th →
    ∃ runner w, t_runners th !! i = Some runner ∧ f = (runner w).1.

(** The local variables of an invocation point into the heap: [c] is
    subscribed to the signals the invocation was given, [finish] is
    allocated. *)
Definition thread_heap st (th : Thread W) : Prop :=
  (∀ c, t_c th = Some c →
        ∃ sc, sigchans st !! c = Some sc ∧ watched sc = Some (t_signals th)) ∧
  (∀ f, t_finish th = Some f → is_Some (chans st !! f)).

Definition thread_ok st (th : Thread W) : Prop :=
  thread_shape th ∧ defers_from_runners th ∧ thread_heap st th.

(** The invariant of the package. *)
Definition state_inv st : Prop :=
  registry_inv st ∧ Forall (thread_ok st) (threads st).

(** The identifiers [uuid.New()] returned along a schedule, in order. *)
Definition uuids (acts : list (Action W)) : list string :=
  omap (λ a, match a with Register _ uuid => Some uuid | _ => None end) acts.

(** What holds of the registrations when the identifiers [used] so far were
    pairwise distinct: the entry of every invocation that has registered is
    in the map, under its own key and holding its own channel, unless the
    channel has been closed; no two invocations have the same key; the map
    has no key that was not generated. *)
Record uniq_inv (used : list string) st : Prop := {
  uq_intact : ∀ t th k f,
    threads st !! t = Some th → EvRegister k f ∈ t_trace th →
    k ∈ used ∧
    (signals (globalCanceller st) !! k = Some f ∨ chans st !! f = Some true);
  uq_own : ∀ t1 t2 th1 th2 k f1 f2,
    threads st !! t1 = Some th1 → threads st !! t2 = Some th2 →
    EvRegister k f1 ∈ t_trace th1 → EvRegister k f2 ∈ t_trace th2 → t1 = t2;
  uq_used : ∀ k, is_Some (signals (globalCanceller st) !! k) → k ∈ used
}.



(** The heap only grows, and a [chan os.Signal] keeps its subscription. *)
Definition heap_le st st' : Prop :=
  (∀ c sc, sigchans st !! c = Some sc →
           ∃ sc', sigchans st' !! c = Some sc' ∧ watched sc' = watched sc) ∧
  (∀ f, is_Some (chans st !! f) → is_Some (chans st' !! f)).

End Predicates.

(** ** A first run: runners A, B, C, then CancelAll *)

Module Demo.

(** The world is the list of what has been started and stopped, in order. *)
Definition logw (s : string) : list string → list string := fun w => w ++ [s].
Definition runner (name : string) : RunnerFunc (list string) :=
  fun w => (logw ("stop " +:+ name), w ++ ["start " +:+ name]).

Definition schedule : list (Action (list string)) :=
  [ AwaitKillSignal [runner "A"; runner "B"; runner "C"];
    Notify 0; Register 0 "u0";
    RunNext 0; RunNext 0; RunNext 0; RunNext 0;
    CancelAll ["u0"];
    Wake 0 FromFinish;
    RunDefer 0; RunDefer 0; RunDefer 0; RunDefer 0 ].

Definition state_after (acts : list (Action (list string))) : State (list string) :=
  match run acts (init []) with
  | Ok st => st
  | _ => init []
  end.

Definition final_world : list string := world (state_after schedule).

(** Two invocations blocked in their select: the first watches SIGINT and
    SIGTERM, the second was given no signals. *)
Definition setup : list (Action (list string)) :=
  [ AwaitKillSignal [runner "A"; runner "B"; runner "C"];
    Notify 0; Register 0 "u0";
    RunNext 0; RunNext 0; RunNext 0; RunNext 0;
    AwaitKillSignals [] [runner "D"];
    Notify 1; Register 1 "u1";
    RunNext 1; RunNext 1 ].

Definition waiting : State (list string) := state_after setup.

(** The first of the two, and a third that has just been called. *)
Definition first : Thread (list string) :=
  default (mkThread [] [] None None AtNotify [] []) (threads waiting !! 0).

Definition setup_called : list (Action (list string)) :=
  setup ++ [AwaitKillSignal [runner "E"]].



(** The second of the two, which was given no signals. *)
Definition second : Thread (list string) :=
  default (mkThread [] [] None None Returned [] []) (threads waiting !! 1).

(** SIGTERM arrives while the two are blocked, and the first takes the case
    of its signal channel. *)
Definition setup_signalled : list (Action (list string)) :=
  setup ++ [Deliver SIGTERM].

Definition signalled : State (list string) := state_after setup_signalled.

Definition first_signalled : Thread (list string) :=
  default (mkThread [] [] None None Returned [] []) (threads signalled !! 0).

Definition woken : State (list string) :=
  state_after (setup_signalled ++ [Wake 0 FromSignal]).

(** The first after its loop has invoked one runner. *)
Definition setup_looping : list (Action (list string)) :=
  [ AwaitKillSignal [runner "A"; runner "B"; runner "C"];
    Notify 0; Register 0 "u0"; RunNext 0 ].

Definition looping : State (list string) := state_after setup_looping.

Definition in_loop : Thread (list string) :=
  default (mkThread [] [] None None Returned [] []) (threads looping !! 0).

(** [uuid.New()] returns the same identifier to two invocations: the second
    registration overwrites the first, and [CancelAll] closes only the
    channel of the second. *)
Definition collided : State (list string) :=
  state_after [ AwaitKillSignal []; Notify 0; Register 0 "u0"; RunNext 0;
                AwaitKillSignal []; Notify 1; Register 1 "u0"; RunNext 1;
                CancelAll ["u0"] ].










End Demo.

(** ** Predicates of the further properties *)

Section MorePredicates.
Context {W : Type}.
Implicit Types st : State W.

(** The action is a call of [CancelAll]. *)
Definition is_CancelAll (a : Action W) : bool :=
  match a with
  | CancelAll _ => true
  | _ => false
  end.

(** The action is invocation [t] receiving from its signal channel. *)
Definition is_receive (t : nat) (a : Action W) : bool :=
  match a with
  | Wake t' FromSignal => bool_decide (t' = t)
  | _ => false
  end.

(** The action is invocation [t] leaving its select. *)
Definition is_wake (t : nat) (a : Action W) : bool :=
  match a with
  | Wake t' _ => bool_decide (t' = t)
  | _ => false
  end.

(** Some entry of the registry holds channel [f]. *)
Definition held (f : nat) st : Prop :=
  ∃ k, signals (globalCanceller st) !! k = Some f.

(** Every invocation's signal channel is allocated, and no two invocations
    have the same one: each makes its own. *)
Definition sig_owned st : Prop :=
  (∀ t th c, threads st !! t = Some th → t_c th = Some c →
             is_Some (sigchans st !! c)) ∧
  (∀ t1 t2 th1 th2 c,
     threads st !! t1 = Some th1 → threads st !! t2 = Some th2 →
     t_c th1 = Some c → t_c th2 = Some c → t1 = t2).

(** No signal channel holds more than its capacity. *)
Definition bufs_bounded st : Prop :=
  ∀ c sc, sigchans st !! c = Some sc → length (buf sc) ≤ 1.

(** The whole of one invocation, from the call to the select, as a
    schedule: the call creates invocation [t]. *)
Definition startup (sigs : list nat) (rs : list (RunnerFunc W)) (t : nat)
    (uuid : string) : list (Action W) :=
  [AwaitKillSignals sigs rs; Notify t; Register t uuid] ++
  replicate (S (length rs)) (RunNext t).

(** From the wake-up to the return. *)
Definition winddown (rs : list (RunnerFunc W)) (t : nat) (src : Source) :
    list (Action W) :=
  Wake t src :: replicate (S (length rs)) (RunDefer t).

End MorePredicates.

(** ** The test harness: Killed, runMain, killMainWhenDone *)

(** Where the goroutine of [runMain] stands. *)
Inductive MainPc :=
| AtFindProcess   (* p, err := os.FindProcess(os.Getpid()) not yet executed *)
| AtGoKiller      (* about to execute: go killMainWhenDone(ctx, p) *)
| AtMain          (* about to call main() *)
| InMain.         (* main() has been called *)

(** Where the goroutine of [killMainWhenDone] stands. *)
Inductive KillerPc :=
| NotStarted      (* the go statement of runMain has not been executed *)
| AtDone          (* at <-ctx.Done() *)
| AtCancelAll     (* ctx.Done() was closed; about to call CancelAll() *)
| KillerReturned. (* CancelAll() returned *)

#[global] Instance MainPc_eq_dec : EqDecision MainPc.
Proof. solve_decision. Defined.
#[global] Instance KillerPc_eq_dec : EqDecision KillerPc.
Proof. solve_decision. Defined.

(** What [runMain] prints with [fmt.Printf] when [os.FindProcess] fails. *)
Inductive Printed := ErrTryingToGetPID.

(** One call of [Killed]: the context made by [context.WithCancel]
    ([h_ctx] is true once its cancel function has been called, which closes
    [ctx.Done()]), its two goroutines, and a ghost count of the calls of
    [CancelAll] its killer has made. *)
Record Harness := mkHarness {
  h_ctx : bool;
  h_main : MainPc;
  h_killer : KillerPc;
  h_cancelAlls : nat
}.

Section HarnessModel.
Context {W : Type}.

(** The package together with the calls of [Killed] and what they have
    printed. *)
Record HState := mkHState {
  base : State W;
  harnesses : list Harness;
  printed : list Printed
}.

(** The statements of the harness; [HBase] is any action of the package,
    among them whatever [main] does.  The function [Killed] returns is the
    index [k] of the call: [HCancel k] is a call of it. *)
Inductive HAction :=
| HBase (a : Action W)
| HKilled
    (* ctx, cancel := context.WithCancel(context.Background());
       go runMain(ctx, main); return cancel *)
| HFindProcess (k : nat) (ok : bool)
    (* p, err := os.FindProcess(os.Getpid());
       if err != nil { fmt.Printf(...) } *)
| HGoKiller (k : nat)
    (* go killMainWhenDone(ctx, p) *)
| HCallMain (k : nat)
    (* main() *)
| HCancel (k : nat)
    (* the caller of Killed calls the context.CancelFunc it got *)
| HDone (k : nat)
    (* <-ctx.Done() *)
| HCancelAll (k : nat) (order : list string).
    (* CancelAll() *)

Definition set_harness (hs : HState) (k : nat) (h : Harness) : HState :=
  mkHState (base hs) (<[k := h]> (harnesses hs)) (printed hs).

(** [func Killed(main func()) context.CancelFunc] *)
Definition hstep_Killed (hs : HState) : Result HState :=
  Ok (mkHState (base hs)
        (harnesses hs ++ [mkHarness false AtFindProcess NotStarted 0])
        (printed hs)).

(** [func runMain(ctx context.Context, main func())], statement by
    statement.  An error of [os.FindProcess] is printed and nothing else. *)
Definition hstep_FindProcess (k : nat) (ok : bool) (hs : HState) : Result HState :=
  match harnesses hs !! k with
  | Some h =>
      match h_main h with
      | AtFindProcess =>
          Ok (mkHState (base hs)
                (<[k := mkHarness (h_ctx h) AtGoKiller (h_killer h) (h_cancelAlls h)]>
                   (harnesses hs))
                (printed hs ++ (if ok then [] else [ErrTryingToGetPID])))
      | _ => Blocked
      end
  | None => Blocked
  end.

Definition hstep_GoKiller (k : nat) (hs : HState) : Result HState :=
  match harnesses hs !! k with
  | Some h =>
      match h_main h with
      | AtGoKiller =>
          Ok (set_harness hs k (mkHarness (h_ctx h) AtMain AtDone (h_cancelAlls h)))
      | _ => Blocked
      end
  | None => Blocked
  end.

Definition hstep_CallMain (k : nat) (hs : HState) : Result HState :=
  match harnesses hs !! k with
  | Some h =>
      match h_main h with
      | AtMain =>
          Ok (set_harness hs k (mkHarness (h_ctx h) InMain (h_killer h) (h_cancelAlls h)))
      | _ => Blocked
      end
  | None => Blocked
  end.

(** The cancel function of [context.WithCancel]: closes [ctx.Done()]; a
    further call does nothing. *)
Definition hstep_Cancel (k : nat) (hs : HState) : Result HState :=
  match harnesses hs !! k with
  | Some h =>
      Ok (set_harness hs k (mkHarness true (h_main h) (h_killer h) (h_cancelAlls h)))
  | None => Blocked
  end.

(** [func killMainWhenDone(ctx context.Context, p *os.Process)], statement
    by statement: the receive blocks until [ctx.Done()] is closed. *)
Definition hstep_Done (k : nat) (hs : HState) : Result HState :=
  match harnesses hs !! k with
  | Some h =>
      match h_killer h with
      | AtDone =>
          if h_ctx h
          then Ok (set_harness hs k
                     (mkHarness (h_ctx h) (h_main h) AtCancelAll (h_cancelAlls h)))
          else Blocked
      | _ => Blocked
      end
  | None => Blocked
  end.

Definition hstep_CancelAll (k : nat) (order : list string) (hs : HState) :
    Result HState :=
  match harnesses hs !! k with
  | Some h =>
      match h_killer h with
      | AtCancelAll =>
          do st <- step (CancelAll order) (base hs);
          Ok (mkHState st
                (<[k := mkHarness (h_ctx h) (h_main h) KillerReturned
                          (S (h_cancelAlls h))]> (harnesses hs))
                (printed hs))
      | _ => Blocked
      end
  | None => Blocked
  end.

Definition hstep (a : HAction) (hs : HState) : Result HState :=
  match a with
  | HBase b => do st <- step b (base hs); Ok (mkHState st (harnesses hs) (printed hs))
  | HKilled => hstep_Killed hs
  | HFindProcess k ok => hstep_FindProcess k ok hs
  | HGoKiller k => hstep_GoKiller k hs
  | HCallMain k => hstep_CallMain k hs
  | HCancel k => hstep_Cancel k hs
  | HDone k => hstep_Done k hs
  | HCancelAll k order => hstep_CancelAll k order hs
  end.

Fixpoint hrun (acts : list HAction) (hs : HState) : Result HState :=
  match acts with
  | [] => Ok hs
  | a :: rest => do hs1 <- hstep a hs; hrun rest hs1
  end.

Definition hinit (w : W) : HState := mkHState (init w) [] [].

Definition hreachable (hs : HState) : Prop :=
  ∃ w acts, hrun acts (hinit w) = Ok hs.

(** What a statement of the harness does to the package. *)
Definition project (a : HAction) : list (Action W) :=
  match a with
  | HBase b => [b]
  | HCancelAll _ order => [CancelAll order]
  | _ => []
  end.

Fixpoint base_schedule (acts : list HAction) : list (Action W) :=
  match acts with
  | [] => []
  | a :: rest => project a ++ base_schedule rest
  end.

(** The state of one call of [Killed]: the killer is started by [runMain]
    before [main] is called; it goes past [ctx.Done()] only when the context
    is cancelled; it has called [CancelAll] once when it has returned and
    not at all before. *)
Definition harness_ok (h : Harness) : Prop :=
  (h_killer h = NotStarted ↔ h_main h = AtFindProcess ∨ h_main h = AtGoKiller) ∧
  (h_killer h = AtCancelAll ∨ h_killer h = KillerReturned → h_ctx h = true) ∧
  h_cancelAlls h = (if decide (h_killer h = KillerReturned) then 1 else 0).

(** The statements that are neither a [CancelAll] of the package nor one of
    the killer of another call of [Killed] than [k]. *)
Definition quiet (k : nat) (a : HAction) : bool :=
  match a with
  | HBase b => negb (is_CancelAll b)
  | HCancelAll k' _ => bool_decide (k' = k)
  | _ => true
  end.

(** [Killed(main)] with a [main] that calls [AwaitKillSignals(sigs, rs...)],
    up to the select of that invocation; [k] is the call of [Killed], [t]
    the invocation. *)
Definition killed_startup (k : nat) (ok : bool) (sigs : list nat)
    (rs : list (RunnerFunc W)) (t : nat) (uuid : string) : list HAction :=
  [HKilled; HFindProcess k ok; HGoKiller k; HCallMain k] ++
  (HBase <$> startup sigs rs t uuid).

(** The cancel function is called, the killer calls [CancelAll], the
    invocation returns. *)
Definition killed_shutdown (k : nat) (order : list string)
    (rs : list (RunnerFunc W)) (t : nat) : list HAction :=
  [HCancel k; HDone k; HCancelAll k order] ++
  (HBase <$> winddown rs t FromFinish).

End HarnessModel.

Arguments HState : clear implicits.
Arguments HAction : clear implicits.

(** ** Further example states *)

Module Scenarios.

(** [CancelAll] while the two invocations of [Demo.waiting] are blocked. *)
Definition cancelled : State (list string) :=
  Demo.state_after (Demo.setup ++ [CancelAll ["u0"; "u1"]]).

(** Afterwards a signal arrives and another invocation is called. *)
Definition later : list (Action (list string)) :=
  [Deliver SIGINT; AwaitKillSignal [Demo.runner "E"]].

(** A third invocation is about to register while the two are blocked. *)
Definition registering : State (list string) :=
  Demo.state_after (Demo.setup_called ++ [Notify 2]).

(** It registers under the identifier of the first. *)
Definition overwritten : State (list string) :=
  Demo.state_after (Demo.setup_called ++ [Notify 2; Register 2 "u0"]).

(** The run of [Demo.schedule] to its end. *)
Definition finished : State (list string) := Demo.state_after Demo.schedule.

Definition returned : Thread (list string) :=
  default (mkThread [] [] None None AtNotify [] []) (threads finished !! 0).

(** SIGINT arrives while the first invocation is still in its loop. *)
Definition early : State (list string) :=
  Demo.state_after (Demo.setup_looping ++ [Deliver SIGINT]).

Definition early_thread : Thread (list string) :=
  default (mkThread [] [] None None AtNotify [] []) (threads early !! 0).

(** The loop goes on to the select, and SIGTERM arrives too. *)
Definition rest_of_loop : list (Action (list string)) :=
  [RunNext 0; RunNext 0; RunNext 0; Deliver SIGTERM].

Definition late : State (list string) :=
  Demo.state_after (Demo.setup_looping ++ [Deliver SIGINT] ++ rest_of_loop).

(** A signal the first invocation has not asked for arrives while the two
    are blocked. *)
Definition hangup : State (list string) :=
  Demo.state_after (Demo.setup ++ [Deliver 1]).

(** States of the package with the harness. *)
Definition hstate_after (acts : list (HAction (list string))) :
    HState (list string) :=
  match hrun acts (hinit []) with
  | Ok hs => hs
  | _ => hinit []
  end.

(** [kill := Killed(main)], where [main] awaits SIGINT with two runners,
    and [kill()] when the invocation of [main] is at its select. *)
Definition killed_and_cancelled : list (HAction (list string)) :=
  killed_startup 0 true [SIGINT] [Demo.runner "A"; Demo.runner "B"] 0 "u0" ++
  killed_shutdown 0 ["u0"] [Demo.runner "A"; Demo.runner "B"] 0.

(** [kill()] is called, and the killer runs, before [main] is: the
    invocation of [main] registers after the only [CancelAll]. *)
Definition hasty_schedule : list (HAction (list string)) :=
  [HKilled; HFindProcess 0 true; HGoKiller 0;
   HCancel 0; HDone 0; HCancelAll 0 []].

Definition hasty : HState (list string) := hstate_after hasty_schedule.

Definition after_hasty : list (HAction (list string)) :=
  [HCallMain 0] ++
  (HBase <$> startup [SIGINT] [Demo.runner "A"; Demo.runner "B"] 0 "u0") ++
  [HCancel 0; HCancel 0].

Definition too_late : HState (list string) :=
  hstate_after (hasty_schedule ++ after_hasty).

Definition too_late_thread : Thread (list string) :=
  default (mkThread [] [] None None AtNotify [] [])
          (threads (base too_late) !! 0).

(** [Killed] was called and [os.FindProcess] failed; [kill()] has not been
    called. *)
Definition not_cancelled : HState (list string) :=
  hstate_after [HKilled; HFindProcess 0 false; HGoKiller 0; HCallMain 0].

End Scenarios.

(** ** The canceller, statement by statement *)

(** In the transition system above a call of [addChannel] or of [cancelAll]
    is one step.  Here each call is a goroutine of its own that takes the
    statements of the method one at a time, interleaved in any way with the
    statements of the other calls; what keeps them apart is the mutex. *)

(** Where a call of [addChannel] stands. *)
Inductive AddPc :=
| AddAtLock       (* about to execute canc.mux.Lock() *)
| AddAtStore      (* about to execute canc.signals[key] = c *)
| AddAtUnlock     (* returning: the deferred canc.mux.Unlock() is about to run *)
| AddDone.        (* returned *)

(** Where a call of [cancelAll] stands.  [visited] is a ghost: the keys the
    [range] has produced so far, the last one first. *)
Inductive CancelPc :=
| CanAtLock                                  (* about to execute canc.mux.Lock() *)
| CanAtRange (visited : list string)         (* at the head of the for loop *)
| CanAtClose (key : string) (visited : list string)
                                             (* about to execute close(canc.signals[key]) *)
| CanAtDelete (key : string) (visited : list string)
                                             (* about to execute delete(canc.signals, key) *)
| CanAtUnlock (visited : list string)        (* returning: the deferred Unlock is about to run *)
| CanDone (visited : list string).           (* returned *)

Inductive Call :=
| CallAdd (key : string) (c : nat) (pc : AddPc)   (* globalCanceller.addChannel(key, c) *)
| CallCancel (pc : CancelPc).                     (* globalCanceller.cancelAll() *)

(** The call is between its [Lock] and its [Unlock]. *)
Definition critical (c : Call) : bool :=
  match c with
  | CallAdd _ _ (AddAtStore | AddAtUnlock) => true
  | CallCancel (CanAtRange _ | CanAtClose _ _ | CanAtDelete _ _ | CanAtUnlock _) => true
  | _ => false
  end.

(** How many calls are between their [Lock] and their [Unlock]. *)
Fixpoint holders (cs : list Call) : nat :=
  match cs with
  | [] => 0
  | c :: rest => (if critical c then 1 else 0) + holders rest
  end.

(** The keys the [range] of a call has produced and dealt with. *)
Definition produced (c : Call) : list string :=
  match c with
  | CallCancel (CanAtRange v | CanAtClose _ v | CanAtDelete _ v) => v
  | _ => []
  end.

(** The methods of the canceller executed as a whole, and the [make] of
    line 141. *)
Inductive Atomic :=
| AMake                                (* make(chan struct{}) *)
| AAdd (key : string) (c : nat)        (* addChannel(key, c), as a whole *)
| ACancelAll (order : list string).    (* cancelAll(), as a whole *)

Section Statements.
Context {W : Type}.

(** The state of the package together with the calls under way. *)
Record FState := mkFState {
  shared : State W;
  calls : list Call
}.

(** The statements.  [GoAddChannel] and [GoCancelAll] are the only callers
    the methods have: [AwaitKillSignals], which passes a channel it has just
    made (lines 141-143), and [CancelAll]. *)
Inductive Stmt :=
| GoAddChannel (key : string)
    (* finish := make(chan struct{}); a goroutine enters
       globalCanceller.addChannel(key, finish) *)
| GoCancelAll
    (* a goroutine enters globalCanceller.cancelAll() *)
| DoLock (g : nat)
    (* canc.mux.Lock() *)
| DoStore (g : nat)
    (* canc.signals[key] = c *)
| DoNext (g : nat) (next : option string)
    (* for key := range canc.signals: the range produces its next key, or
       ends *)
| DoClose (g : nat)
    (* close(canc.signals[key]) *)
| DoDelete (g : nat)
    (* delete(canc.signals, key) *)
| DoUnlock (g : nat).
    (* the deferred canc.mux.Unlock() *)

Definition set_call (fs : FState) (st : State W) (g : nat) (c : Call) : FState :=
  mkFState st (<[g := c]> (calls fs)).

(** [make(chan struct{})]: a new open channel. *)
Definition make_chan (st : State W) : State W :=
  set_chans st (<[fresh (dom (chans st)) := false]> (chans st)).

(** [canc.signals[key] = c] *)
Definition store (key : string) (c : nat) (st : State W) : State W :=
  let canc := globalCanceller st in
  set_canc st (mkCanceller (<[key := c]> (signals canc)) (mux canc)).

(** [delete(canc.signals, key)] *)
Definition remove (key : string) (st : State W) : State W :=
  let canc := globalCanceller st in
  set_canc st (mkCanceller (delete key (signals canc)) (mux canc)).

(** One statement of one call.  The [range] produces a key that is in the
    map and that it has not produced, and ends when there is none. *)
Definition exec (a : Stmt) (fs : FState) : Result FState :=
  match a with
  | GoAddChannel key =>
      Ok (mkFState (make_chan (shared fs))
            (calls fs ++ [CallAdd key (fresh (dom (chans (shared fs)))) AddAtLock]))
  | GoCancelAll =>
      Ok (mkFState (shared fs) (calls fs ++ [CallCancel CanAtLock]))
  | DoLock g =>
      match calls fs !! g with
      | Some (CallAdd key c AddAtLock) =>
          do st <- Lock (shared fs);
          Ok (set_call fs st g (CallAdd key c AddAtStore))
      | Some (CallCancel CanAtLock) =>
          do st <- Lock (shared fs);
          Ok (set_call fs st g (CallCancel (CanAtRange [])))
      | _ => Blocked
      end
  | DoStore g =>
      match calls fs !! g with
      | Some (CallAdd key c AddAtStore) =>
          Ok (set_call fs (store key c (shared fs)) g (CallAdd key c AddAtUnlock))
      | _ => Blocked
      end
  | DoNext g next =>
      match calls fs !! g with
      | Some (CallCancel (CanAtRange visited)) =>
          let m := signals (globalCanceller (shared fs)) in
          match next with
          | Some key =>
              if decide (key ∈ dom m ∧ key ∉ visited)
              then Ok (set_call fs (shared fs) g (CallCancel (CanAtClose key visited)))
              else Blocked
          | None =>
              if decide (dom m ⊆ list_to_set visited)
              then Ok (set_call fs (shared fs) g (CallCancel (CanAtUnlock visited)))
              else Blocked
          end
      | _ => Blocked
      end
  | DoClose g =>
      match calls fs !! g with
      | Some (CallCancel (CanAtClose key visited)) =>
          do st <- close (signals (globalCanceller (shared fs)) !! key) (shared fs);
          Ok (set_call fs st g (CallCancel (CanAtDelete key visited)))
      | _ => Blocked
      end
  | DoDelete g =>
      match calls fs !! g with
      | Some (CallCancel (CanAtDelete key visited)) =>
          Ok (set_call fs (remove key (shared fs)) g
                (CallCancel (CanAtRange (key :: visited))))
      | _ => Blocked
      end
  | DoUnlock g =>
      match calls fs !! g with
      | Some (CallAdd key c AddAtUnlock) =>
          do st <- Unlock (shared fs);
          Ok (set_call fs st g (CallAdd key c AddDone))
      | Some (CallCancel (CanAtUnlock visited)) =>
          do st <- Unlock (shared fs);
          Ok (set_call fs st g (CallCancel (CanDone visited)))
      | _ => Blocked
      end
  end.

Fixpoint execs (acts : list Stmt) (fs : FState) : Result FState :=
  match acts with
  | [] => Ok fs
  | a :: rest => do fs1 <- exec a fs; execs rest fs1
  end.

(** After [init], no call under way. *)
Definition finit (w : W) : FState := mkFState (init w) [].

(** The methods as a whole; [ACancelAll] is what the action [CancelAll] of
    the transition system does. *)
Definition atomic (o : Atomic) (st : State W) : Result (State W) :=
  match o with
  | AMake => Ok (make_chan st)
  | AAdd key c => addChannel key c st
  | ACancelAll order => step (CancelAll order) st
  end.

Fixpoint atomics (os : list Atomic) (st : State W) : Result (State W) :=
  match os with
  | [] => Ok st
  | o :: rest => do st1 <- atomic o st; atomics rest st1
  end.

(** What a statement completes: a [make], or, with its [Unlock], the call
    it ends. *)
Definition commit (a : Stmt) (fs : FState) : list Atomic :=
  match a with
  | GoAddChannel _ => [AMake]
  | DoUnlock g =>
      match calls fs !! g with
      | Some (CallAdd key c AddAtUnlock) => [AAdd key c]
      | Some (CallCancel (CanAtUnlock visited)) => [ACancelAll (reverse visited)]
      | _ => []
      end
  | _ => []
  end.

(** The calls of a schedule in the order in which they end. *)
Fixpoint linearize (acts : list Stmt) (fs : FState) : list Atomic :=
  match acts with
  | [] => []
  | a :: rest =>
      match exec a fs with
      | Ok fs1 => commit a fs ++ linearize rest fs1
      | _ => []
      end
  end.

(** What the call that holds the mutex has done so far, as a function of
    the state [st] in which it took the mutex. *)
Definition so_far (c : Call) (st : State W) : Result (State W) :=
  match c with
  | CallAdd key ch AddAtStore => Lock st
  | CallAdd key ch AddAtUnlock => do st1 <- Lock st; Ok (store key ch st1)
  | CallCancel (CanAtRange v) | CallCancel (CanAtClose _ v)
  | CallCancel (CanAtUnlock v) =>
      do st1 <- Lock st; cancelAll_range (reverse v) st1
  | CallCancel (CanAtDelete k v) =>
      do st1 <- Lock st;
      do st2 <- cancelAll_range (reverse v) st1;
      close (signals (globalCanceller st2) !! k) st2
  | _ => Ok st
  end.

(** The invariant of the calls under way.  The mutex is held exactly when
    one call is between its [Lock] and its [Unlock], and never by two.
    Every entry of the map holds an open channel, but for the entry a
    [cancelAll] has closed and is about to delete.  No channel is held by
    two entries or was closed twice.  The channel of an [addChannel] that
    has not stored it yet is open and in no entry, and no two calls were
    given the same channel.  The keys a [range] has dealt with are gone from
    the map, and the map is empty when the [range] has ended. *)
Record fine_inv (fs : FState) : Prop := {
  fi_mutex :
    holders (calls fs) = if mux (globalCanceller (shared fs)) then 1 else 0;
  fi_open : ∀ k c, signals (globalCanceller (shared fs)) !! k = Some c →
    chans (shared fs) !! c = Some false ∨
    (chans (shared fs) !! c = Some true ∧
     ∃ g v, calls fs !! g = Some (CallCancel (CanAtDelete k v)));
  fi_inj : ∀ k1 k2 c, signals (globalCanceller (shared fs)) !! k1 = Some c →
                      signals (globalCanceller (shared fs)) !! k2 = Some c → k1 = k2;
  fi_nodup : NoDup (closes (shared fs));
  fi_closes : ∀ c, c ∈ closes (shared fs) ↔ chans (shared fs) !! c = Some true;
  fi_alloc : ∀ g key c pc, calls fs !! g = Some (CallAdd key c pc) →
    is_Some (chans (shared fs) !! c);
  fi_pending : ∀ g key c pc, calls fs !! g = Some (CallAdd key c pc) →
    pc = AddAtLock ∨ pc = AddAtStore →
    chans (shared fs) !! c = Some false ∧
    ∀ k, signals (globalCanceller (shared fs)) !! k ≠ Some c;
  fi_distinct : ∀ g1 g2 key1 key2 c pc1 pc2,
    calls fs !! g1 = Some (CallAdd key1 c pc1) →
    calls fs !! g2 = Some (CallAdd key2 c pc2) → g1 = g2;
  fi_at_close : ∀ g k v, calls fs !! g = Some (CallCancel (CanAtClose k v)) →
    is_Some (signals (globalCanceller (shared fs)) !! k);
  fi_at_delete : ∀ g k v, calls fs !! g = Some (CallCancel (CanAtDelete k v)) →
    ∃ c, signals (globalCanceller (shared fs)) !! k = Some c ∧
         chans (shared fs) !! c = Some true;
  fi_produced : ∀ g c k, calls fs !! g = Some c → k ∈ produced c →
    signals (globalCanceller (shared fs)) !! k = None;
  fi_at_unlock : ∀ g v, calls fs !! g = Some (CallCancel (CanAtUnlock v)) →
    signals (globalCanceller (shared fs)) = ∅
}.

(** How the state relates to the state [st] the calls that have ended
    lead to when each is executed as a whole: they are the same while the
    mutex is free, and otherwise differ by what the holder has done so
    far. *)
Definition lin_rel (fs : FState) (st : State W) : Prop :=
  (mux (globalCanceller (shared fs)) = false → shared fs = st) ∧
  (∀ g c, calls fs !! g = Some c → critical c = true →
          so_far c st = Ok (shared fs)).

End Statements.

Arguments FState : clear implicits.

(** Two registrations and two calls of [CancelAll], interleaved. *)
Module Interleaved.

Definition fstate_after (acts : list (Stmt)) : FState (list string) :=
  match execs acts (finit []) with
  | Ok fs => fs
  | _ => finit []
  end.

(** The first [addChannel] holds the mutex; a [cancelAll] has been called,
    and a second [addChannel]. *)
Definition contended : list (Stmt) :=
  [GoAddChannel "u0"; DoLock 0; GoCancelAll; GoAddChannel "u1"].

(** The first [addChannel] ends, the [cancelAll] takes the mutex, closes the
    channel of "u0" and is about to delete the entry; meanwhile the second
    [addChannel] and a second [cancelAll] are waiting for the mutex. *)
Definition closing : list (Stmt) :=
  contended ++
  [DoStore 0; DoUnlock 0; DoLock 1; GoCancelAll;
   DoNext 1 (Some "u0"); DoClose 1].

(** All four calls run to their end. *)
Definition complete : list (Stmt) :=
  closing ++
  [DoDelete 1; DoNext 1 None; DoUnlock 1;
   DoLock 2; DoStore 2; DoUnlock 2;
   DoLock 3; DoNext 3 (Some "u1"); DoClose 3; DoDelete 3; DoNext 3 None;
   DoUnlock 3].

End Interleaved.

(** ** Proof automation *)

(** Unfolds the shape of an invocation that a statement has advanced. *)
Ltac shape :=
  unfold thread_shape, advance;
  cbn [t_pc t_c t_finish t_defers t_trace t_runners t_signals].

(** Membership of an event in a log of known shape. *)
Ltac log_mem H :=
  unfold prologue, started in H;
  repeat first
    [ apply elem_of_app in H as [H|H]
    | apply elem_of_cons in H as [H|H]
    | apply list_elem_of_fmap in H as (? & H & _)
    | by apply elem_of_nil in H ];
  try discriminate H.

(** * Lemmas *)

(** ** The loop of cancelAll *)

Section Registry.
Context {W : Type}.
Implicit Types st : State W.

Lemma init_registry_inv (w : W) : registry_inv (init w).
Proof.
  split; [done|]. split; simpl; try done.
  - constructor.
  - intros c. rewrite lookup_empty. split; [by intros ?%elem_of_nil | done].
Qed.

Lemma omap_agree {A B} (f g : A → option B) (l : list A) :
  (∀ x, x ∈ l → f x = g x) → omap f l = omap g l.
Proof.
  induction l as [|x l IH]; intros Hfg; [done|].
  csimpl. rewrite (Hfg x) by left. rewrite IH; [done|].
  intros y Hy. apply Hfg. by right.
Qed.

(** One turn of the loop of [cancelAll]: the channel of the entry is open,
    so the close succeeds, and what is left satisfies the invariant again. *)
Lemma cancelAll_iter st key c :
  entries_ok st →
  signals (globalCanceller st) !! key = Some c →
  ∃ st1, close (Some c) st = Ok st1 ∧
    entries_ok (set_canc st1 (mkCanceller (delete key (signals (globalCanceller st1)))
                                (mux (globalCanceller st1)))).
Proof.
  intros [Hopen Hinj Hnd Hcl] Hk.
  exists (set_closes (set_chans st (<[c := true]> (chans st))) (closes st ++ [c])).
  split.
  - unfold close. by rewrite (Hopen _ _ Hk).
  - split; simpl.
    + intros k c' Hk'. apply lookup_delete_Some in Hk' as [Hne Hk'].
      rewrite lookup_insert_ne; [by eapply Hopen|].
      intros ->. by apply Hne, (Hinj _ _ _ Hk Hk').
    + intros k1 k2 c' [_ H1]%lookup_delete_Some [_ H2]%lookup_delete_Some.
      by eapply Hinj.
    + apply NoDup_app. split_and!; [done| |apply NoDup_singleton].
      intros x Hx ->%list_elem_of_singleton.
      apply Hcl in Hx. rewrite (Hopen _ _ Hk) in Hx. done.
    + intros c'. rewrite elem_of_app, list_elem_of_singleton, Hcl.
      destruct (decide (c' = c)) as [->|Hne].
      * rewrite lookup_insert_eq. split; [done | by right].
      * rewrite lookup_insert_ne by done. split; [by intros [?|?] | by left].
Qed.

(** The loop of [cancelAll] over keys that are all present: it does not
    panic; it closes the channel of every key, in order, and deletes the
    key; it touches nothing else. *)
Lemma cancelAll_range_ok (order : list string) : ∀ st,
  entries_ok st →
  NoDup order →
  (∀ k, k ∈ order → is_Some (signals (globalCanceller st) !! k)) →
  ∃ st', cancelAll_range order st = Ok st' ∧ entries_ok st' ∧
    mux (globalCanceller st') = mux (globalCanceller st) ∧
    (∀ k, signals (globalCanceller st') !! k =
          if decide (k ∈ order) then None else signals (globalCanceller st) !! k) ∧
    closes st' = closes st ++ registered order st ∧
    (∀ c, chans st' !! c =
          if decide (c ∈ registered order st) then Some true else chans st !! c) ∧
    sigchans st' = sigchans st ∧ threads st' = threads st ∧ world st' = world st.
Proof.
  induction order as [|key rest IH]; intros st Hok Hnd Hin.
  - exists st. unfold registered. csimpl. rewrite app_nil_r.
    split_and!; try done.
  - apply NoDup_cons in Hnd as [Hnotin Hnd].
    destruct (Hin key) as [c Hk]; [left|].
    destruct (cancelAll_iter st key c Hok Hk) as (st1 & Hclose & Hok2).
    assert (Hst1 : st1 = set_closes (set_chans st (<[c := true]> (chans st)))
                           (closes st ++ [c])).
    { unfold close in Hclose. rewrite (ok_open _ Hok _ _ Hk) in Hclose.
      by injection Hclose. }
    set (st2 := set_canc _ _) in Hok2.
    destruct (IH st2 Hok2 Hnd) as (st' & Hrun & Hok' & Hmux & Hsig & Hcls & Hch & ? & ? & ?).
    { intros k Hk'. subst st2 st1. simpl.
      rewrite lookup_delete_ne; [apply Hin; by right|].
      intros ->. done. }
    assert (Hreg : registered rest st2 = registered rest st).
    { apply omap_agree. intros k Hk'. subst st2 st1. simpl.
      apply lookup_delete_ne. intros ->. done. }
    rewrite Hreg in Hcls, Hch. clear Hclose. subst st2 st1. simpl in *.
    exists st'. split_and!; try done.
    + rewrite Hk. unfold close. rewrite (ok_open _ Hok _ _ Hk). exact Hrun.
    + intros k. rewrite Hsig. simpl.
      destruct (decide (k = key)) as [->|Hne].
      * rewrite (decide_False (P := key ∈ rest)) by done.
        rewrite lookup_delete_eq. by rewrite decide_True by left.
      * rewrite lookup_delete_ne by done.
        destruct (decide (k ∈ rest)).
        -- rewrite decide_True; [done | by right].
        -- rewrite decide_False; [done|]. by intros [?|?]%elem_of_cons.
    + rewrite Hcls. unfold registered at 2. csimpl. rewrite Hk. csimpl.
      by rewrite <- app_assoc.
    + intros c'. rewrite Hch. unfold registered at 2. csimpl. rewrite Hk. csimpl.
      destruct (decide (c' ∈ registered rest st)).
      * rewrite decide_True; [done | by right].
      * destruct (decide (c' = c)) as [->|Hne].
        -- rewrite decide_True by left. by rewrite lookup_insert_eq.
        -- rewrite decide_False; [by rewrite lookup_insert_ne|].
           by intros [?|?]%elem_of_cons.
Qed.

Lemma registry_inv_frame st st' :
  globalCanceller st' = globalCanceller st →
  chans st' = chans st →
  closes st' = closes st →
  registry_inv st → registry_inv st'.
Proof.
  intros Hc Hh Hl [Hm [H1 H2 H3 H4]].
  split; [by rewrite Hc|]. split; rewrite ?Hc, ?Hh, ?Hl; done.
Qed.

(** [cancelAll] on a state that satisfies the invariant. *)
Lemma cancelAll_ok st order :
  registry_inv st →
  range_order order (signals (globalCanceller st)) →
  ∃ st', cancelAll order st = Ok st' ∧ registry_inv st' ∧
    signals (globalCanceller st') = ∅ ∧
    closes st' = closes st ++ registered order st ∧
    (∀ c, chans st' !! c =
          if decide (c ∈ registered order st) then Some true else chans st !! c) ∧
    sigchans st' = sigchans st ∧ threads st' = threads st ∧ world st' = world st.
Proof.
  intros [Hmux Hok] [Hnd Hdom].
  set (st1 := set_canc st (mkCanceller (signals (globalCanceller st)) true)).
  destruct (cancelAll_range_ok order st1) as
    (st2 & Hrun & Hok2 & Hmux2 & Hsig & Hcls & Hch & Hs & Ht & Hw); [|done|..].
  { destruct Hok. by split. }
  { intros k Hk. simpl. apply elem_of_dom. rewrite <- Hdom.
    by apply elem_of_list_to_set. }
  exists (set_canc st2 (mkCanceller (signals (globalCanceller st2)) false)).
  split_and!; try done.
  - unfold cancelAll, Lock. rewrite Hmux. cbn [bind]. fold st1. rewrite Hrun.
    cbn [bind]. unfold Unlock. by rewrite Hmux2.
  - split; [done|]. destruct Hok2. by split.
  - simpl. apply map_eq. intros k. rewrite Hsig, lookup_empty. simpl.
    case_decide as Hk; [done|]. apply not_elem_of_dom. rewrite <- Hdom.
    by rewrite elem_of_list_to_set.
Qed.

(** While the mutex is held, neither method can enter its critical
    section. *)
Lemma locked_excludes st key c order :
  mux (globalCanceller st) = true →
  addChannel key c st = Blocked ∧ cancelAll order st = Blocked.
Proof. intros Hmux. unfold addChannel, cancelAll, Lock. by rewrite Hmux. Qed.

(** Every key of a map is produced by some order of the [range]. *)
Lemma range_order_exists (m : gmap string nat) :
  ∃ order, range_order order m.
Proof.
  exists (elements (dom m)). split.
  - apply NoDup_elements.
  - apply list_to_set_elements_L.
Qed.

Lemma registered_range st order k c :
  range_order order (signals (globalCanceller st)) →
  signals (globalCanceller st) !! k = Some c →
  c ∈ registered order st.
Proof.
  intros [_ Hdom] Hk. unfold registered. apply list_elem_of_omap.
  exists k. split; [|done].
  apply (elem_of_list_to_set (C := gset string)). rewrite Hdom.
  apply elem_of_dom. eauto.
Qed.

Lemma registered_elem st order c :
  c ∈ registered order st →
  ∃ k, k ∈ order ∧ signals (globalCanceller st) !! k = Some c.
Proof. unfold registered. by intros ?%list_elem_of_omap. Qed.

End Registry.

(** ** What each statement does to the state *)

Section Steps.
Context {W : Type}.
Implicit Types st : State W.
Implicit Types th : Thread W.

Lemma step_Notify_inv t st st' :
  step_Notify t st = Ok st' →
  ∃ th, threads st !! t = Some th ∧ t_pc th = AtNotify ∧
    st' = upd (set_sigchans st
                 (<[fresh (dom (sigchans st)) :=
                      mkSigChan (Some (t_signals th)) []]>
                    (sigchans st)))
            t (advance th (Some (fresh (dom (sigchans st)))) None
                 AtRegister (t_defers th)
                 [EvNotify (fresh (dom (sigchans st)))]).
Proof.
  unfold step_Notify. intros H.
  destruct (threads st !! t) as [th|]; [|done]. exists th.
  destruct (t_pc th); try done. by injection H as <-.
Qed.

Lemma step_Register_inv t uuid st st' :
  step_Register t uuid st = Ok st' →
  ∃ th, threads st !! t = Some th ∧ t_pc th = AtRegister ∧
    mux (globalCanceller st) = false ∧
    st' = upd (set_canc (set_chans st (<[fresh (dom (chans st)) := false]> (chans st)))
                 (mkCanceller (<[uuid := fresh (dom (chans st))]>
                                 (signals (globalCanceller st))) false))
            t (advance th (t_c th) (Some (fresh (dom (chans st)))) (AtLoop 0)
                 (t_defers th) [EvRegister uuid (fresh (dom (chans st)))]).
Proof.
  unfold step_Register. intros H.
  destruct (threads st !! t) as [th|]; [|done]. exists th.
  destruct (t_pc th); try done.
  unfold addChannel, Lock in H. simpl in H.
  destruct (mux (globalCanceller st)); [done|].
  by injection H as <-.
Qed.

Lemma step_RunNext_inv t st st' :
  step_RunNext t st = Ok st' →
  ∃ th i, threads st !! t = Some th ∧ t_pc th = AtLoop i ∧
    ((∃ runner, t_runners th !! i = Some runner ∧
        st' = upd (set_world st (runner (world st)).2) t
                (advance th (t_c th) (t_finish th) (AtLoop (S i))
                   ((i, (runner (world st)).1) :: t_defers th) [EvRunner i])) ∨
     (t_runners th !! i = None ∧
        st' = upd st t (advance th (t_c th) (t_finish th) AtSelect (t_defers th) []))).
Proof.
  unfold step_RunNext. intros H.
  destruct (threads st !! t) as [th|]; [|done]. exists th.
  destruct (t_pc th) as [| |i| | |]; try done. exists i.
  destruct (t_runners th !! i) as [runner|].
  - destruct (runner (world st)) as [shutdown w] eqn:Hr. injection H as <-.
    split_and!; try done. left. exists runner. by rewrite Hr.
  - injection H as <-. split_and!; try done. by right.
Qed.

Lemma step_Wake_inv t src st st' :
  step_Wake t src st = Ok st' →
  ∃ th, threads st !! t = Some th ∧ t_pc th = AtSelect ∧
    match src with
    | FromSignal =>
        ∃ c sc s rest, t_c th = Some c ∧ sigchans st !! c = Some sc ∧
          buf sc = s :: rest ∧
          st' = upd (set_sigchans st (<[c := mkSigChan (watched sc) rest]> (sigchans st)))
                  t (advance th (t_c th) (t_finish th) AtReturn (t_defers th)
                       [EvWake FromSignal])
    | FromFinish =>
        ∃ f, t_finish th = Some f ∧ chans st !! f = Some true ∧
          st' = upd st t (advance th (t_c th) (t_finish th) AtReturn (t_defers th)
                            [EvWake FromFinish])
    end.
Proof.
  unfold step_Wake. intros H.
  destruct (threads st !! t) as [th|]; [|done]. exists th.
  destruct (t_pc th); try done. split_and!; try done.
  destruct src.
  - destruct (t_c th) as [c|]; [|done].
    destruct (sigchans st !! c) as [sc|] eqn:Hsc; [|done].
    destruct (buf sc) as [|s rest] eqn:Hb; [done|].
    injection H as <-. by exists c, sc, s, rest.
  - destruct (t_finish th) as [f|]; [|done].
    destruct (chans st !! f) as [[|]|] eqn:Hf; try done.
    injection H as <-. by exists f.
Qed.

Lemma step_RunDefer_inv t st st' :
  step_RunDefer t st = Ok st' →
  ∃ th, threads st !! t = Some th ∧ t_pc th = AtReturn ∧
    ((∃ i shutdown rest, t_defers th = (i, shutdown) :: rest ∧
        st' = upd (set_world st (shutdown (world st))) t
                (advance th (t_c th) (t_finish th) AtReturn rest [EvShutdown i])) ∨
     (t_defers th = [] ∧
        st' = upd st t (advance th (t_c th) (t_finish th) Returned [] [EvReturn]))).
Proof.
  unfold step_RunDefer. intros H.
  destruct (threads st !! t) as [th|]; [|done]. exists th.
  destruct (t_pc th); try done. split_and!; try done.
  destruct (t_defers th) as [|[i shutdown] rest].
  - injection H as <-. by right.
  - injection H as <-. left. by exists i, shutdown, rest.
Qed.

(** ** The invariant is preserved *)

Lemma heap_le_same st st' :
  sigchans st' = sigchans st → chans st' = chans st → heap_le st st'.
Proof. intros Hs Hc. split; rewrite ?Hs, ?Hc; eauto. Qed.

Lemma thread_heap_mono st st' th :
  heap_le st st' → thread_heap st th → thread_heap st' th.
Proof.
  intros [Hs Hc] [H1 H2]. split.
  - intros c Hcth. destruct (H1 c Hcth) as (sc & Hsc & Hw).
    destruct (Hs c sc Hsc) as (sc' & ? & Hw'). exists sc'. by rewrite Hw'.
  - intros f Hf. by apply Hc, H2.
Qed.

Lemma thread_ok_mono st st' th :
  heap_le st st' → thread_ok st th → thread_ok st' th.
Proof. intros Hle (? & ? & ?). split_and!; eauto using thread_heap_mono. Qed.

Lemma threads_ok_mono st st' (ths : list (Thread W)) :
  heap_le st st' → Forall (thread_ok st) ths → Forall (thread_ok st') ths.
Proof.
  intros Hle Hall. eapply Forall_impl; [exact Hall|].
  intros th. by apply thread_ok_mono.
Qed.

Lemma threads_ok_upd st st' t th' (ths : list (Thread W)) :
  heap_le st st' → Forall (thread_ok st) ths → thread_ok st' th' →
  Forall (thread_ok st') (<[t := th']> ths).
Proof.
  intros Hle Hall Hth. apply Forall_insert; [|done].
  by eapply threads_ok_mono.
Qed.

Lemma fresh_lookup_None {A} (m : gmap nat A) : m !! fresh (dom m) = None.
Proof. apply not_elem_of_dom, is_fresh. Qed.

Lemma watched_relay s sc : watched (relay s sc) = watched sc.
Proof.
  unfold relay. destruct (watched sc) eqn:Hw; [|done].
  by destruct (wants _ _ && _).
Qed.

Lemma started_S i : started (S i) = started i ++ [EvRunner i].
Proof. unfold started. by rewrite seq_S, fmap_app. Qed.

Lemma reverse_seq_S i : reverse (seq 0 (S i)) = i :: reverse (seq 0 i).
Proof. rewrite seq_S. apply reverse_snoc. Qed.

Lemma thread_lookup_ok st t th :
  state_inv st → threads st !! t = Some th → thread_ok st th.
Proof. intros [_ Hall] Ht. by eapply Forall_lookup_1. Qed.

Lemma call_ok st st' sigs rs :
  state_inv st → step (AwaitKillSignals sigs rs) st = Ok st' → state_inv st'.
Proof.
  intros [Hreg Hall] [= <-]. split; [by apply (registry_inv_frame st)|].
  simpl. apply Forall_app.
  split; [eapply threads_ok_mono; [|done]; by apply heap_le_same|].
  apply Forall_singleton.
  split_and!.
  - by unfold thread_shape.
  - intros i f Hin. by apply elem_of_nil in Hin.
  - by split.
Qed.

Lemma step_Notify_ok t st st' :
  state_inv st → step_Notify t st = Ok st' → state_inv st'.
Proof.
  intros Hinv (th & Ht & Hpc & ->)%step_Notify_inv.
  destruct (thread_lookup_ok _ _ _ Hinv Ht) as (Hsh & Hdf & Hhp).
  destruct Hinv as [Hreg Hall].
  unfold thread_shape in Hsh. rewrite Hpc in Hsh.
  destruct Hsh as (Hc & Hf & Hd & Htr).
  split; [by apply (registry_inv_frame st)|].
  simpl. eapply threads_ok_upd; [|done|].
  - split; simpl; [|done]. intros c sc Hsc. exists sc. split; [|done].
    rewrite lookup_insert_ne; [done|]. intros <-.
    by rewrite fresh_lookup_None in Hsc.
  - split_and!.
    + shape. rewrite Htr, Hd. by eexists.
    + done.
    + split; simpl; [|done]. intros c [= <-].
      rewrite lookup_insert_eq. by eexists.
Qed.

Lemma step_Register_ok t uuid st st' :
  state_inv st → step_Register t uuid st = Ok st' → state_inv st'.
Proof.
  intros Hinv (th & Ht & Hpc & Hmux & ->)%step_Register_inv.
  destruct (thread_lookup_ok _ _ _ Hinv Ht) as (Hsh & Hdf & Hhp).
  destruct Hinv as [[_ [Hopen Hinj Hnd Hcl]] Hall].
  unfold thread_shape in Hsh. rewrite Hpc in Hsh.
  destruct Hsh as (c & Hc & Hf & Hd & Htr).
  set (f := fresh (dom (chans st))).
  assert (Hfresh : chans st !! f = None) by apply fresh_lookup_None.
  split.
  - split; [done|]. split; simpl.
    + intros k c' [[-> <-]|[Hne Hk]]%lookup_insert_Some.
      * by rewrite lookup_insert_eq.
      * rewrite lookup_insert_ne; [by eapply Hopen|].
        intros <-. apply Hopen in Hk. congruence.
    + intros k1 k2 c' [[-> <-]|[Hne1 Hk1]]%lookup_insert_Some
                      [[-> Heq]|[Hne2 Hk2]]%lookup_insert_Some; try done.
      * apply Hopen in Hk2. congruence.
      * subst c'. apply Hopen in Hk1. congruence.
      * by eapply Hinj.
    + done.
    + intros c'. rewrite Hcl. destruct (decide (c' = f)) as [->|Hne].
      * rewrite lookup_insert_eq, Hfresh. by split.
      * by rewrite lookup_insert_ne.
  - simpl. eapply threads_ok_upd; [|done|].
    + split; simpl; [eauto|]. intros f' Hf'.
      destruct (decide (f' = f)) as [->|Hne].
      * by rewrite lookup_insert_eq.
      * by rewrite lookup_insert_ne.
    + split_and!.
      * shape. split; [lia|].
        exists c, uuid, f. by rewrite Htr, Hd.
      * done.
      * destruct Hhp as [Hhc _]. split; simpl.
        -- intros c' Hc'. by apply Hhc.
        -- intros f' [= <-]. by rewrite lookup_insert_eq.
Qed.

Lemma step_RunNext_ok t st st' :
  state_inv st → step_RunNext t st = Ok st' → state_inv st'.
Proof.
  intros Hinv (th & i & Ht & Hpc & Hcase)%step_RunNext_inv.
  destruct (thread_lookup_ok _ _ _ Hinv Ht) as (Hsh & Hdf & Hhp).
  destruct Hinv as [Hreg Hall].
  unfold thread_shape in Hsh. rewrite Hpc in Hsh.
  destruct Hsh as (Hle & c & key & f & Hc & Hf & Hd & Htr).
  destruct Hhp as [Hhc Hhf].
  destruct Hcase as [(runner & Hr & ->)|[Hr ->]].
  - split; [by apply (registry_inv_frame st)|].
    simpl. eapply threads_ok_upd; [by apply heap_le_same|done|].
    split_and!.
    + shape. split; [by apply lookup_lt_Some in Hr|].
      exists c, key, f. split_and!; try done.
      * by rewrite fmap_cons, Hd, reverse_seq_S.
      * by rewrite Htr, started_S, <- app_assoc.
    + intros j g [[= -> ->]|Hin]%elem_of_cons; [|by apply Hdf].
      by exists runner, (world st).
    + split; simpl; [|done]. intros c' Hc'. by apply Hhc.
  - apply lookup_ge_None in Hr.
    assert (i = length (t_runners th)) as -> by lia.
    split; [by apply (registry_inv_frame st)|].
    simpl. eapply threads_ok_upd; [by apply heap_le_same|done|].
    split_and!.
    + shape. exists c, key, f.
      by rewrite app_nil_r.
    + done.
    + split; simpl; [|done]. intros c' Hc'. by apply Hhc.
Qed.

Lemma step_Wake_ok t src st st' :
  state_inv st → step_Wake t src st = Ok st' → state_inv st'.
Proof.
  intros Hinv (th & Ht & Hpc & Hcase)%step_Wake_inv.
  destruct (thread_lookup_ok _ _ _ Hinv Ht) as (Hsh & Hdf & Hhp).
  destruct Hinv as [Hreg Hall].
  unfold thread_shape in Hsh. rewrite Hpc in Hsh.
  destruct Hsh as (c & key & f & Hc & Hf & Hd & Htr).
  destruct Hhp as [Hhc Hhf].
  assert (Hshape : ∀ ds, ds = t_defers th →
            thread_shape (advance th (t_c th) (t_finish th) AtReturn ds [EvWake src])).
  { intros ds ->. shape. exists c, key, f, src, [].
    split_and!; try done. rewrite Htr. by rewrite <- !app_assoc. }
  destruct src.
  - destruct Hcase as (c' & sc & s & rest & Hc' & Hsc & Hb & ->).
    assert (Hle : heap_le st (set_sigchans st
              (<[c' := mkSigChan (watched sc) rest]> (sigchans st)))).
    { split; simpl; [|done]. intros c0 sc0 Hsc0.
      destruct (decide (c0 = c')) as [->|Hne].
      - rewrite lookup_insert_eq. eexists. split; [done|]. simpl. congruence.
      - rewrite lookup_insert_ne by done. eauto. }
    split; [by apply (registry_inv_frame st)|].
    simpl. eapply threads_ok_upd; [exact Hle|done|].
    split_and!; [by apply Hshape|done|].
    apply (thread_heap_mono st); [done|].
    split; simpl; [|done]. intros c0 Hc0. by apply Hhc.
  - destruct Hcase as (f' & Hf' & Hcl & ->).
    split; [by apply (registry_inv_frame st)|].
    simpl. eapply threads_ok_upd; [by apply heap_le_same|done|].
    split_and!; [by apply Hshape|done|].
    split; simpl; [|done]. intros c0 Hc0. by apply Hhc.
Qed.

Lemma step_RunDefer_ok t st st' :
  state_inv st → step_RunDefer t st = Ok st' → state_inv st'.
Proof.
  intros Hinv (th & Ht & Hpc & Hcase)%step_RunDefer_inv.
  destruct (thread_lookup_ok _ _ _ Hinv Ht) as (Hsh & Hdf & Hhp).
  destruct Hinv as [Hreg Hall].
  unfold thread_shape in Hsh. rewrite Hpc in Hsh.
  destruct Hsh as (c & key & f & src & done & Hc & Hf & Hd & Htr).
  destruct Hhp as [Hhc Hhf].
  destruct Hcase as [(i & shutdown & rest & Hds & ->)|[Hds ->]].
  - split; [by apply (registry_inv_frame st)|].
    simpl. eapply threads_ok_upd; [by apply heap_le_same|done|].
    split_and!.
    + shape. exists c, key, f, src, (done ++ [i]).
      split_and!; try done.
      * rewrite <- Hd, Hds, fmap_cons. by rewrite <- app_assoc.
      * rewrite Htr, fmap_app. by rewrite <- !app_assoc.
    + intros j g Hin. apply Hdf. rewrite Hds. by right.
    + split; simpl; [|done]. intros c0 Hc0. by apply Hhc.
  - rewrite Hds, fmap_nil, app_nil_r in Hd. subst done.
    split; [by apply (registry_inv_frame st)|].
    simpl. eapply threads_ok_upd; [by apply heap_le_same|done|].
    split_and!.
    + shape. exists c, key, f, src.
      split_and!; try done. rewrite Htr. by rewrite <- !app_assoc.
    + intros j g Hin. by apply elem_of_nil in Hin.
    + split; simpl; [|done]. intros c0 Hc0. by apply Hhc.
Qed.

Lemma deliver_ok s st st' :
  state_inv st → step (Deliver s) st = Ok st' → state_inv st'.
Proof.
  intros [Hreg Hall] [= <-]. split; [by apply (registry_inv_frame st)|].
  simpl. eapply threads_ok_mono; [|done].
  split; simpl; [|done]. intros c sc Hsc. exists (relay s sc).
  rewrite lookup_fmap, Hsc. split; [done|]. apply watched_relay.
Qed.

Lemma cancelAll_step_ok order st st' :
  state_inv st → step (CancelAll order) st = Ok st' → state_inv st'.
Proof.
  intros [Hreg Hall] Hstep. simpl in Hstep.
  destruct (decide (range_order order _)) as [Hord|]; [|done].
  destruct (cancelAll_ok st order Hreg Hord)
    as (st2 & Hrun & Hreg2 & _ & _ & Hch & Hs & Ht & _).
  rewrite Hrun in Hstep. injection Hstep as <-.
  split; [done|]. rewrite Ht. eapply threads_ok_mono; [|done].
  split; [rewrite Hs; eauto|]. intros f Hf. rewrite Hch. by case_decide.
Qed.

(** The registry half of the invariant needs nothing of the goroutines: a
    registration adds a channel that [make] has just allocated. *)
Lemma register_registry_inv t uuid st st' :
  registry_inv st → step_Register t uuid st = Ok st' →
  registry_inv st' ∧
  signals (globalCanceller st') =
    <[uuid := fresh (dom (chans st))]> (signals (globalCanceller st)) ∧
  chans st' = <[fresh (dom (chans st)) := false]> (chans st) ∧
  closes st' = closes st.
Proof.
  intros [_ [Hopen Hinj Hnd Hcl]] (th & Ht & Hpc & Hmux & ->)%step_Register_inv.
  set (f := fresh (dom (chans st))).
  assert (Hfresh : chans st !! f = None) by apply fresh_lookup_None.
  split_and!; try done.
  split; [done|]. split; simpl.
  - intros k c' [[-> <-]|[Hne Hk]]%lookup_insert_Some.
    + by rewrite lookup_insert_eq.
    + rewrite lookup_insert_ne; [by eapply Hopen|].
      intros <-. apply Hopen in Hk. congruence.
  - intros k1 k2 c' [[-> <-]|[Hne1 Hk1]]%lookup_insert_Some
                    [[-> Heq]|[Hne2 Hk2]]%lookup_insert_Some; try done.
    + apply Hopen in Hk2. congruence.
    + subst c'. apply Hopen in Hk1. congruence.
    + by eapply Hinj.
  - done.
  - intros c'. rewrite Hcl. destruct (decide (c' = f)) as [->|Hne].
    + rewrite lookup_insert_eq, Hfresh. by split.
    + by rewrite lookup_insert_ne.
Qed.

(** Apart from a registration and [CancelAll], no statement touches the
    canceller or the heap of [chan struct{}]. *)
Lemma step_registry_frame a st st' :
  step a st = Ok st' →
  (∀ t uuid, a ≠ Register t uuid) → (∀ order, a ≠ CancelAll order) →
  globalCanceller st' = globalCanceller st ∧ chans st' = chans st ∧
  closes st' = closes st.
Proof.
  intros Hstep Hr Hc. destruct a as [sigs rs|t|t uuid|t|t src|t|s|order]; simpl in Hstep.
  - by injection Hstep as <-.
  - by apply step_Notify_inv in Hstep as (th & _ & _ & ->).
  - by destruct (Hr t uuid).
  - by apply step_RunNext_inv in Hstep
      as (th & i & _ & _ & [(runner & _ & ->)|[_ ->]]).
  - apply step_Wake_inv in Hstep as (th & _ & _ & Hcase). destruct src.
    + by destruct Hcase as (c & sc & s & rest & _ & _ & _ & ->).
    + by destruct Hcase as (f & _ & _ & ->).
  - by apply step_RunDefer_inv in Hstep
      as (th & _ & _ & [(i & sd & rest & _ & ->)|[_ ->]]).
  - by injection Hstep as <-.
  - by destruct (Hc order).
Qed.

Lemma step_registry_inv a st st' :
  registry_inv st → step a st = Ok st' → registry_inv st'.
Proof.
  intros Hinv Hstep.
  destruct a as [sigs rs|t|t uuid|t|t src|t|s|order].
  3: by apply (register_registry_inv t uuid st st').
  7: { simpl in Hstep. destruct (decide (range_order order _)) as [Hord|]; [|done].
       destruct (cancelAll_ok st order Hinv Hord) as (st2 & Hrun & Hreg2 & _).
       rewrite Hrun in Hstep. by injection Hstep as <-. }
  all: destruct (step_registry_frame _ _ _ Hstep) as (? & ? & ?); [done|done|];
       by apply (registry_inv_frame st).
Qed.

(** No statement panics: in particular no [close] is ever executed on a
    closed channel. *)
Lemma step_no_panic a st : registry_inv st → step a st ≠ Panic.
Proof.
  intros Hinv. destruct a as [sigs rs|t|t uuid|t|t src|t|s|order]; simpl; try done.
  - unfold step_Notify. repeat case_match; done.
  - unfold step_Register. destruct (threads st !! t); [|done].
    destruct (t_pc _); try done.
    unfold addChannel, Lock. simpl. destruct Hinv as [-> _]. done.
  - unfold step_RunNext. repeat case_match; done.
  - unfold step_Wake. repeat case_match; done.
  - unfold step_RunDefer. repeat case_match; done.
  - destruct (decide (range_order order _)) as [Hord|]; [|done].
    destruct (cancelAll_ok st order Hinv Hord) as (st2 & -> & _). done.
Qed.

Lemma run_cons a acts st st' :
  run (a :: acts) st = Ok st' ↔ ∃ st1, step a st = Ok st1 ∧ run acts st1 = Ok st'.
Proof.
  cbn [run]. destruct (step a st) as [st1| |]; simpl.
  - split; [eauto|]. by intros (? & [= <-] & ?).
  - split; [done|]. by intros (? & ? & ?).
  - split; [done|]. by intros (? & ? & ?).
Qed.

Lemma run_app acts1 : ∀ acts2 st st',
  run (acts1 ++ acts2) st = Ok st' ↔
  ∃ st1, run acts1 st = Ok st1 ∧ run acts2 st1 = Ok st'.
Proof.
  induction acts1 as [|a acts1 IH]; intros acts2 st st'.
  - simpl. split; [eauto|]. by intros (? & [= <-] & ?).
  - rewrite <- app_comm_cons, run_cons. split.
    + intros (st1 & Hs & (st2 & H1 & H2)%IH). exists st2. split; [|done].
      apply run_cons. eauto.
    + intros (st2 & (st1 & Hs & H1)%run_cons & H2). exists st1. split; [done|].
      apply IH. eauto.
Qed.

Lemma upd_lookup st t th th0 :
  threads st !! t = Some th0 → threads (upd st t th) !! t = Some th.
Proof.
  intros Ht. simpl. apply list_lookup_insert_eq. by eapply lookup_lt_Some.
Qed.

Lemma advance_advance th c f pc ds es c' f' pc' ds' es' :
  advance (advance th c f pc ds es) c' f' pc' ds' es' =
  advance th c' f' pc' ds' (es ++ es').
Proof. unfold advance. simpl. by rewrite <- app_assoc. Qed.

(** Once an invocation has left the select, nothing can hold it up: its
    deferred calls run one after the other, top of the stack first, and it
    returns.  Nothing but the world and its own record changes. *)
Lemma run_defers t (ds : list (nat * ShutdownFunc W)) : ∀ st th,
  threads st !! t = Some th → t_pc th = AtReturn → t_defers th = ds →
  ∃ st', run (replicate (S (length ds)) (RunDefer t)) st = Ok st' ∧
    threads st' = <[t := advance th (t_c th) (t_finish th) Returned []
                           ((EvShutdown <$> ds.*1) ++ [EvReturn])]> (threads st) ∧
    world st' = stop_all ds (world st) ∧
    globalCanceller st' = globalCanceller st ∧ chans st' = chans st ∧
    sigchans st' = sigchans st ∧ closes st' = closes st.
Proof.
  induction ds as [|[i shutdown] rest IH]; intros st th Ht Hpc Hds.
  - exists (upd st t (advance th (t_c th) (t_finish th) Returned [] [EvReturn])).
    split_and!; try done.
    cbn [length replicate run step]. unfold step_RunDefer.
    by rewrite Ht, Hpc, Hds.
  - set (th1 := advance th (t_c th) (t_finish th) AtReturn rest [EvShutdown i]).
    set (st1 := upd (set_world st (shutdown (world st))) t th1).
    destruct (IH st1 th1) as (st' & Hrun & Hth & Hw & Hc & Hch & Hs & Hcl);
      [by apply (upd_lookup _ _ _ th)|done|done|].
    exists st'. split_and!; try done.
    + cbn [length replicate]. apply run_cons. exists st1. split; [|done].
      cbn [step]. unfold step_RunDefer. by rewrite Ht, Hpc, Hds.
    + rewrite Hth. subst st1 th1. simpl.
      rewrite list_insert_insert_eq. f_equal.
      unfold advance. simpl. by rewrite <- app_assoc.
Qed.

(** The loop cannot be held up either: from index [i] it invokes the
    remaining runners in the order of the slice, pushes what each returns,
    and reaches the select. *)
Lemma run_loop t (rs : list (RunnerFunc W)) : ∀ st th i,
  threads st !! t = Some th → t_pc th = AtLoop i → drop i (t_runners th) = rs →
  ∃ st', run (replicate (S (length rs)) (RunNext t)) st = Ok st' ∧
    threads st' = <[t := advance th (t_c th) (t_finish th) AtSelect
                           (start_all rs i (t_defers th) (world st)).1
                           (EvRunner <$> seq i (length rs))]> (threads st) ∧
    world st' = (start_all rs i (t_defers th) (world st)).2 ∧
    globalCanceller st' = globalCanceller st ∧ chans st' = chans st ∧
    sigchans st' = sigchans st ∧ closes st' = closes st.
Proof.
  induction rs as [|runner rest IH]; intros st th i Ht Hpc Hdrop.
  - assert (Hnone : t_runners th !! i = None).
    { apply lookup_ge_None. apply (f_equal length) in Hdrop.
      rewrite length_drop in Hdrop. simpl in Hdrop. lia. }
    exists (upd st t (advance th (t_c th) (t_finish th) AtSelect (t_defers th) [])).
    split_and!; try done.
    cbn [length replicate run step]. unfold step_RunNext.
    rewrite Ht, Hpc. unfold RunnerFunc in *. by rewrite Hnone.
  - assert (Hsome : t_runners th !! i = Some runner).
    { rewrite <- (Nat.add_0_r i), <- lookup_drop, Hdrop. done. }
    assert (Hrest : drop (S i) (t_runners th) = rest).
    { rewrite (drop_S _ _ _ Hsome) in Hdrop. by injection Hdrop. }
    destruct (runner (world st)) as [shutdown w1] eqn:Hr.
    set (th1 := advance th (t_c th) (t_finish th) (AtLoop (S i))
                  ((i, shutdown) :: t_defers th) [EvRunner i]).
    set (st1 := upd (set_world st w1) t th1).
    destruct (IH st1 th1 (S i)) as (st' & Hrun & Hth & Hw & Hc & Hch & Hs & Hcl);
      [by apply (upd_lookup _ _ _ th)|done|done|].
    exists st'. split_and!; try done.
    + cbn [length replicate]. apply run_cons. exists st1. split; [|done].
      cbn [step]. unfold step_RunNext. rewrite Ht, Hpc.
      unfold RunnerFunc in *. by rewrite Hsome, Hr.
    + rewrite Hth. subst st1 th1. unfold upd, advance. cbn -[seq].
      rewrite list_insert_insert_eq, Hr. by rewrite <- app_assoc.
    + rewrite Hw. subst st1 th1. simpl. by rewrite Hr.
Qed.


(** A statement changes the record of the invocation that takes it and of
    no other, and an invocation takes only the statement it is at. *)
Lemma step_frame a st st' t th :
  registry_inv st → step a st = Ok st' → threads st !! t = Some th →
  (actor a ≠ Some t → threads st' !! t = Some th) ∧
  (actor a = Some t → takes_at a (t_pc th)).
Proof.
  intros Hinv Hstep Ht.
  destruct a as [sigs rs|t0|t0 uuid|t0|t0 src|t0|s|order]; simpl in Hstep |- *.
  - injection Hstep as <-. split; [|done]. intros _. simpl.
    by apply lookup_app_l_Some.
  - apply step_Notify_inv in Hstep as (th0 & Ht0 & Hpc & ->). split.
    + intros Hne. simpl. rewrite list_lookup_insert_ne; [done|congruence].
    + intros [= ->]. simplify_eq. by rewrite Hpc.
  - apply step_Register_inv in Hstep as (th0 & Ht0 & Hpc & _ & ->). split.
    + intros Hne. simpl. rewrite list_lookup_insert_ne; [done|congruence].
    + intros [= ->]. simplify_eq. by rewrite Hpc.
  - apply step_RunNext_inv in Hstep as (th0 & i & Ht0 & Hpc & Hcase). split.
    + intros Hne. destruct Hcase as [(runner & _ & ->)|[_ ->]]; simpl;
        (rewrite list_lookup_insert_ne; [done|congruence]).
    + intros [= ->]. simplify_eq. by rewrite Hpc.
  - apply step_Wake_inv in Hstep as (th0 & Ht0 & Hpc & Hcase). split.
    + intros Hne. destruct src.
      * destruct Hcase as (c & sc & s & rest & _ & _ & _ & ->). simpl.
        rewrite list_lookup_insert_ne; [done|congruence].
      * destruct Hcase as (f & _ & _ & ->). simpl.
        rewrite list_lookup_insert_ne; [done|congruence].
    + intros [= ->]. simplify_eq. by rewrite Hpc.
  - apply step_RunDefer_inv in Hstep as (th0 & Ht0 & Hpc & Hcase). split.
    + intros Hne. destruct Hcase as [(i & sd & rest & _ & ->)|[_ ->]]; simpl;
        (rewrite list_lookup_insert_ne; [done|congruence]).
    + intros [= ->]. simplify_eq. by rewrite Hpc.
  - injection Hstep as <-. by split.
  - destruct (decide (range_order order _)) as [Hord|]; [|done].
    destruct (cancelAll_ok st order Hinv Hord) as (st2 & Hrun & _ & _ & _ & _ & _ & Hth & _).
    rewrite Hrun in Hstep. injection Hstep as <-. rewrite Hth. by split.
Qed.

(** Taking a case of the select changes the position and the log of the
    invocation, and the buffer of its signal channel when that is the case
    taken; nothing else. *)
Lemma wake_result t src st st1 th :
  step_Wake t src st = Ok st1 → threads st !! t = Some th →
  t_pc th = AtSelect ∧
  threads st1 = <[t := advance th (t_c th) (t_finish th) AtReturn (t_defers th)
                         [EvWake src]]> (threads st) ∧
  world st1 = world st ∧ globalCanceller st1 = globalCanceller st ∧
  chans st1 = chans st ∧ closes st1 = closes st.
Proof.
  intros (th0 & Ht0 & Hpc & Hcase)%step_Wake_inv Ht. simplify_eq.
  destruct src.
  - by destruct Hcase as (c & sc & s & rest & _ & _ & _ & ->).
  - by destruct Hcase as (f & _ & _ & ->).
Qed.

Lemma defers_length th i :
  (t_defers th).*1 = reverse (seq 0 i) → length (t_defers th) = i.
Proof.
  intros H%(f_equal length).
  by rewrite length_fmap, length_reverse, length_seq in H.
Qed.

(** When each case of the select can be taken. *)
Lemma wake_signal_enabled t st th c sc :
  threads st !! t = Some th → t_pc th = AtSelect →
  t_c th = Some c → sigchans st !! c = Some sc →
  (∃ st', step_Wake t FromSignal st = Ok st') ↔ buf sc ≠ [].
Proof.
  intros Ht Hpc Hc Hsc. split.
  - intros (st' & (th0 & Ht0 & _ & c' & sc' & s & rest & Hc' & Hsc' & Hb & _)%step_Wake_inv).
    simplify_eq. by rewrite Hb.
  - intros Hb. unfold step_Wake. rewrite Ht, Hpc, Hc, Hsc.
    destruct (buf sc); [done|eauto].
Qed.

Lemma wake_finish_enabled t st th f :
  threads st !! t = Some th → t_pc th = AtSelect → t_finish th = Some f →
  (∃ st', step_Wake t FromFinish st = Ok st') ↔ chans st !! f = Some true.
Proof.
  intros Ht Hpc Hf. split.
  - intros (st' & (th0 & Ht0 & _ & f' & Hf' & Hcl & _)%step_Wake_inv).
    by simplify_eq.
  - intros Hcl. unfold step_Wake. rewrite Ht, Hpc, Hf, Hcl. eauto.
Qed.

Lemma wake_blocked t st th c sc f :
  threads st !! t = Some th → t_pc th = AtSelect →
  t_c th = Some c → sigchans st !! c = Some sc → t_finish th = Some f →
  buf sc = [] → chans st !! f ≠ Some true →
  ∀ src, step_Wake t src st = Blocked.
Proof.
  intros Ht Hpc Hc Hsc Hf Hb Hcl src. unfold step_Wake.
  rewrite Ht, Hpc, Hc, Hsc, Hf, Hb. destruct src; [done|].
  by destruct (chans st !! f) as [[|]|].
Qed.

(** A signal the channel is subscribed to leaves a value in its buffer. *)
Lemma relay_fills s sc sigs :
  watched sc = Some sigs → wants sigs s = true → buf (relay s sc) ≠ [].
Proof.
  intros Hw Hs. unfold relay. rewrite Hw, Hs. cbn [andb].
  destruct (bool_decide (length (buf sc) < 1)) eqn:Hlen.
  - cbn [buf]. by intros [_ ?]%app_eq_nil.
  - apply bool_decide_eq_false in Hlen. intros Hb.
    rewrite Hb in Hlen. simpl in Hlen. lia.
Qed.

(** Every statement preserves the invariant. *)
Lemma step_ok a st st' : state_inv st → step a st = Ok st' → state_inv st'.
Proof.
  destruct a.
  - apply call_ok.
  - apply step_Notify_ok.
  - apply step_Register_ok.
  - apply step_RunNext_ok.
  - apply step_Wake_ok.
  - apply step_RunDefer_ok.
  - apply deliver_ok.
  - apply cancelAll_step_ok.
Qed.

Lemma run_ok acts : ∀ st st',
  state_inv st → run acts st = Ok st' → state_inv st'.
Proof.
  induction acts as [|a acts IH]; intros st st' Hinv Hrun.
  - by injection Hrun as <-.
  - apply run_cons in Hrun as (st1 & Hstep & Hrun). eauto using step_ok.
Qed.

Lemma init_ok (w : W) : state_inv (init w).
Proof. split; [apply init_registry_inv | constructor]. Qed.

Lemma reachable_ok st : reachable st → state_inv st.
Proof. intros (w & acts & Hrun). eapply run_ok; [apply init_ok | done]. Qed.

Lemma reachable_step a st st' :
  reachable st → step a st = Ok st' → reachable st'.
Proof.
  intros (w & acts & Hrun) Hstep. exists w, (acts ++ [a]).
  apply run_app. exists st. split; [done|]. apply run_cons. eauto.
Qed.

(** What the loop leaves on the stack of deferred calls: the indices of the
    runners it invoked, last first, on top of what was there. *)
Lemma start_all_indices (rs : list (RunnerFunc W)) : ∀ i ds w,
  (start_all rs i ds w).1.*1 = reverse (seq i (length rs)) ++ ds.*1.
Proof.
  induction rs as [|runner rest IH]; intros i ds w; [done|].
  cbn [start_all length seq]. destruct (runner w) as [shutdown w1].
  rewrite IH, reverse_cons, fmap_cons. by rewrite <- app_assoc.
Qed.

Lemma wake_not_in_loop src c key f i :
  EvWake src ∉ prologue c key f ++ started i.
Proof. intros Hin. log_mem Hin. Qed.

Lemma wake_in_log src src' c key f i done (tl : list Event) :
  (∀ s, EvWake s ∉ tl) →
  EvWake src ∈ prologue c key f ++ started i ++ [EvWake src'] ++
               (EvShutdown <$> done) ++ tl →
  src = src'.
Proof.
  intros Htl Hin. rewrite app_assoc in Hin.
  apply elem_of_app in Hin as [Hin|Hin]; [by apply wake_not_in_loop in Hin|].
  apply elem_of_app in Hin as [Hin|Hin].
  - apply list_elem_of_singleton in Hin. by injection Hin.
  - apply elem_of_app in Hin as [Hin|Hin]; [|by apply Htl in Hin].
    by apply list_elem_of_fmap in Hin as (? & ? & _).
Qed.

Lemma return_not_in_log c key f i src done :
  EvReturn ∉ prologue c key f ++ started i ++ [EvWake src] ++
             (EvShutdown <$> done).
Proof. intros Hin. log_mem Hin. Qed.

Lemma return_not_in_loop c key f i :
  EvReturn ∉ prologue c key f ++ started i.
Proof. intros Hin. log_mem Hin. Qed.

End Steps.

(** ** Registrations *)

Section Registrations.
Context {W : Type}.
Implicit Types st : State W.
Implicit Types th : Thread W.

Lemma upd_registrations st0 st t0 th0 c fi pc ds es t th' k f :
  threads (upd st0 t0 (advance th0 c fi pc ds es)) !! t = Some th' →
  EvRegister k f ∈ t_trace th' →
  threads st0 = threads st → threads st !! t0 = Some th0 →
  (∃ th, threads st !! t = Some th ∧ EvRegister k f ∈ t_trace th) ∨
  (t = t0 ∧ EvRegister k f ∈ es).
Proof.
  intros Ht Hin Hths Ht0. simpl in Ht. rewrite Hths in Ht.
  apply list_lookup_insert_Some in Ht as [(-> & <- & _)|[Hne Ht]].
  - simpl in Hin. apply elem_of_app in Hin as [Hin|Hin]; eauto.
  - eauto.
Qed.

(** A registration appears in the log of an invocation only by its own
    [Register] statement. *)
Lemma step_registrations a st st' t th' k f :
  registry_inv st → step a st = Ok st' →
  threads st' !! t = Some th' → EvRegister k f ∈ t_trace th' →
  (∃ th, threads st !! t = Some th ∧ EvRegister k f ∈ t_trace th) ∨
  (a = Register t k ∧ f = fresh (dom (chans st))).
Proof.
  intros Hinv Hstep Ht Hin.
  destruct a as [sigs rs|t0|t0 uuid|t0|t0 src|t0|s|order]; simpl in Hstep.
  - injection Hstep as <-. simpl in Ht.
    apply lookup_app_Some in Ht as [Ht|[_ Ht]]; [eauto|].
    apply list_elem_of_lookup_2, list_elem_of_singleton in Ht. subst th'.
    by apply elem_of_nil in Hin.
  - apply step_Notify_inv in Hstep as (th0 & Ht0 & _ & ->).
    destruct (upd_registrations _ st _ _ _ _ _ _ _ _ _ _ _ Ht Hin eq_refl Ht0)
      as [?|[_ Hes]]; [eauto|].
    log_mem Hes.
  - apply step_Register_inv in Hstep as (th0 & Ht0 & _ & _ & ->).
    destruct (upd_registrations _ st _ _ _ _ _ _ _ _ _ _ _ Ht Hin eq_refl Ht0)
      as [?|[-> Hes]]; [eauto|].
    right. log_mem Hes. by injection Hes as -> ->.
  - apply step_RunNext_inv in Hstep as (th0 & i & Ht0 & _ & [(r & _ & ->)|[_ ->]]);
      destruct (upd_registrations _ st _ _ _ _ _ _ _ _ _ _ _ Ht Hin eq_refl Ht0)
        as [?|[_ Hes]]; eauto; log_mem Hes.
  - apply step_Wake_inv in Hstep as (th0 & Ht0 & _ & Hcase). destruct src.
    + destruct Hcase as (c & sc & s & rest & _ & _ & _ & ->).
      destruct (upd_registrations _ st _ _ _ _ _ _ _ _ _ _ _ Ht Hin eq_refl Ht0)
        as [?|[_ Hes]]; eauto; log_mem Hes.
    + destruct Hcase as (f' & _ & _ & ->).
      destruct (upd_registrations _ st _ _ _ _ _ _ _ _ _ _ _ Ht Hin eq_refl Ht0)
        as [?|[_ Hes]]; eauto; log_mem Hes.
  - apply step_RunDefer_inv in Hstep
      as (th0 & Ht0 & _ & [(i & sd & rest & _ & ->)|[_ ->]]);
      destruct (upd_registrations _ st _ _ _ _ _ _ _ _ _ _ _ Ht Hin eq_refl Ht0)
        as [?|[_ Hes]]; eauto; log_mem Hes.
  - injection Hstep as <-. eauto.
  - destruct (decide (range_order order _)) as [Hord|]; [|done].
    destruct (cancelAll_ok st order Hinv Hord)
      as (st2 & Hrun & _ & _ & _ & _ & _ & Hth & _).
    rewrite Hrun in Hstep. injection Hstep as <-. rewrite Hth in Ht. eauto.
Qed.

Lemma uuids_other (a : Action W) :
  (∀ t uuid, a ≠ Register t uuid) → uuids [a] = [].
Proof. intros Hne. destruct a; try done. by destruct (Hne t uuid). Qed.

(** A statement other than a registration and [CancelAll] keeps what holds
    of the registrations. *)
Lemma uniq_frame used (a : Action W) st st' :
  registry_inv st → uniq_inv used st → step a st = Ok st' →
  (∀ t uuid, a ≠ Register t uuid) → (∀ order, a ≠ CancelAll order) →
  uniq_inv used st'.
Proof.
  intros Hreg [Hint Hown Hused] Hstep Hnr Hnc.
  destruct (step_registry_frame _ _ _ Hstep Hnr Hnc) as (Hc & Hch & _).
  assert (Hold : ∀ t th' k f, threads st' !! t = Some th' →
            EvRegister k f ∈ t_trace th' →
            ∃ th, threads st !! t = Some th ∧ EvRegister k f ∈ t_trace th).
  { intros t th' k f Ht Hin.
    destruct (step_registrations _ _ _ _ _ _ _ Hreg Hstep Ht Hin) as [?|[-> _]];
      [done|]. by destruct (Hnr t k). }
  split.
  - intros t th' k f Ht Hin. destruct (Hold _ _ _ _ Ht Hin) as (th & Ht0 & Hin0).
    rewrite Hc, Hch. by eapply Hint.
  - intros t1 t2 th1 th2 k f1 f2 Ht1 Ht2 Hin1 Hin2.
    destruct (Hold _ _ _ _ Ht1 Hin1) as (? & ? & ?).
    destruct (Hold _ _ _ _ Ht2 Hin2) as (? & ? & ?).
    by eapply Hown.
  - intros k. rewrite Hc. apply Hused.
Qed.

(** [CancelAll] closes the channel of every registration that was in the
    map. *)
Lemma uniq_cancelAll used order st st' :
  registry_inv st → uniq_inv used st → step (CancelAll order) st = Ok st' →
  uniq_inv used st'.
Proof.
  intros Hreg [Hint Hown Hused] Hstep.
  assert (Hold : ∀ t th' k f, threads st' !! t = Some th' →
            EvRegister k f ∈ t_trace th' →
            ∃ th, threads st !! t = Some th ∧ EvRegister k f ∈ t_trace th).
  { intros t th' k f Ht Hin.
    by destruct (step_registrations _ _ _ _ _ _ _ Hreg Hstep Ht Hin) as [?|[? _]]. }
  simpl in Hstep. destruct (decide (range_order order _)) as [Hord|]; [|done].
  destruct (cancelAll_ok st order Hreg Hord)
    as (st2 & Hrun & _ & Hsig & _ & Hch & _).
  rewrite Hrun in Hstep. injection Hstep as <-.
  split.
  - intros t th' k f Ht Hin. destruct (Hold _ _ _ _ Ht Hin) as (th & Ht0 & Hin0).
    destruct (Hint _ _ _ _ Ht0 Hin0) as [Hk [Hentry|Hclosed]].
    + split; [done|]. right. rewrite Hch, decide_True; [done|].
      by eapply registered_range.
    + split; [done|]. right. rewrite Hch. by case_decide.
  - intros t1 t2 th1 th2 k f1 f2 Ht1 Ht2 Hin1 Hin2.
    destruct (Hold _ _ _ _ Ht1 Hin1) as (? & ? & ?).
    destruct (Hold _ _ _ _ Ht2 Hin2) as (? & ? & ?).
    by eapply Hown.
  - intros k. rewrite Hsig, lookup_empty. by intros [? ?].
Qed.

(** A registration under an identifier that was not used before adds an
    entry and disturbs no other. *)
Lemma uniq_register used t0 uuid st st' :
  registry_inv st → uniq_inv used st → step (Register t0 uuid) st = Ok st' →
  uuid ∉ used →
  uniq_inv (used ++ [uuid]) st'.
Proof.
  intros Hreg [Hint Hown Hused] Hstep Hnew.
  pose proof (λ t th' k f, step_registrations _ _ _ t th' k f Hreg Hstep) as Hregs.
  destruct (register_registry_inv _ _ _ _ Hreg Hstep) as (_ & Hsig & Hch & _).
  pose proof (fresh_lookup_None (chans st)) as Hfresh.
  split.
  - intros t th' k f Ht Hin.
    destruct (Hregs _ _ _ _ Ht Hin) as [(th & Ht0 & Hin0)|[[= -> ->] ->]].
    + destruct (Hint _ _ _ _ Ht0 Hin0) as [Hk Hcase].
      split; [apply elem_of_app; by left|].
      rewrite Hsig, Hch.
      assert (k ≠ uuid) by (by intros ->).
      destruct Hcase as [Hentry|Hclosed].
      * left. by rewrite lookup_insert_ne.
      * right. rewrite lookup_insert_ne; [done|]. intros <-. congruence.
    + split; [apply elem_of_app; right; by left|].
      left. by rewrite Hsig, lookup_insert_eq.
  - intros t1 t2 th1 th2 k f1 f2 Ht1 Ht2 Hin1 Hin2.
    destruct (Hregs _ _ _ _ Ht1 Hin1) as [(th & Ht0 & Hin0)|[Heq1 ->]];
      destruct (Hregs _ _ _ _ Ht2 Hin2) as [(th' & Ht0' & Hin0')|[Heq2 ->]];
      simplify_eq.
    + by eapply Hown.
    + by destruct (Hint _ _ _ _ Ht0 Hin0) as [? _].
    + by destruct (Hint _ _ _ _ Ht0' Hin0') as [? _].
    + done.
  - intros k. rewrite Hsig. intros [c [[-> _]|[_ Hk]]%lookup_insert_Some].
    + apply elem_of_app. right. by left.
    + apply elem_of_app. left. apply Hused. eauto.
Qed.

Lemma uniq_step used (a : Action W) st st' :
  registry_inv st → uniq_inv used st → step a st = Ok st' →
  (∀ k, k ∈ uuids [a] → k ∉ used) →
  uniq_inv (used ++ uuids [a]) st'.
Proof.
  intros Hreg Huq Hstep Hnew.
  destruct a as [sigs rs|t0|t0 uuid|t0|t0 src|t0|s|order].
  3: { apply (uniq_register used t0 uuid st); try done. apply Hnew. by left. }
  7: { rewrite app_nil_r. by apply (uniq_cancelAll used order st). }
  all: rewrite app_nil_r; by eapply uniq_frame.
Qed.

Lemma uniq_init (w : W) : uniq_inv [] (init w).
Proof.
  split; simpl.
  - intros t th k f Ht. by rewrite lookup_nil in Ht.
  - intros t1 t2 th1 th2 k f1 f2 Ht. by rewrite lookup_nil in Ht.
  - intros k [c Hk]. by rewrite lookup_empty in Hk.
Qed.

(** Along a schedule in which [uuid.New()] never returns the same identifier
    twice. *)
Lemma uniq_run (w : W) acts : ∀ st,
  run acts (init w) = Ok st → NoDup (uuids acts) → uniq_inv (uuids acts) st.
Proof.
  induction acts as [|a acts IH] using rev_ind; intros st Hrun Hnd.
  - injection Hrun as <-. apply uniq_init.
  - apply run_app in Hrun as (st1 & Hrun1 & (st2 & Hstep & [= ->])%run_cons).
    unfold uuids in Hnd |- *. rewrite omap_app in Hnd |- *.
    apply NoDup_app in Hnd as (Hnd1 & Hdisj & _).
    apply (uniq_step _ a st1); [|by apply IH|done|].
    + apply (reachable_ok st1). by exists w, acts.
    + intros k Hk Hused. by apply (Hdisj k).
Qed.


End Registrations.

(** ** The example states *)

Example collision_overwrites :
  chans Demo.collided !! 0 = Some false ∧ chans Demo.collided !! 1 = Some true ∧
  step (Wake 0 FromFinish) Demo.collided = Blocked ∧
  (∃ st', step (Wake 1 FromFinish) Demo.collided = Ok st').
Proof. split_and!; [vm_compute; reflexivity..|]. eexists. vm_compute. reflexivity. Qed.

Example final_world_ABC :
  Demo.final_world =
  ["start A"; "start B"; "start C"; "stop C"; "stop B"; "stop A"].
Proof. vm_compute. reflexivity. Qed.

(** ** The calls of the canceller, statement by statement *)

Example interleaved_complete :
  ∃ fs : FState (list string),
        execs Interleaved.complete (finit []) = Ok fs ∧
        closes (shared fs) = [0; 1] ∧
        linearize Interleaved.complete (finit ([] : list string)) =
          [AMake; AMake; AAdd "u0" 0; ACancelAll ["u0"]; AAdd "u1" 1;
           ACancelAll ["u1"]].
Proof. eexists. split_and!; vm_compute; reflexivity. Qed.

Section StatementLemmas.
Context {W : Type}.
Implicit Types fs : FState W.
Implicit Types st : State W.

Lemma execs_cons (a : Stmt) acts fs fs' :
  execs (a :: acts) fs = Ok fs' ↔
  ∃ fs1, exec a fs = Ok fs1 ∧ execs acts fs1 = Ok fs'.
Proof.
  cbn [execs]. destruct (exec a fs) as [fs1| |]; simpl.
  - split; [eauto|]. by intros (? & [= <-] & ?).
  - split; [done|]. by intros (? & ? & ?).
  - split; [done|]. by intros (? & ? & ?).
Qed.

Lemma execs_app (acts1 : list Stmt) : ∀ acts2 fs fs',
  execs (acts1 ++ acts2) fs = Ok fs' ↔
  ∃ fs1, execs acts1 fs = Ok fs1 ∧ execs acts2 fs1 = Ok fs'.
Proof.
  induction acts1 as [|a acts1 IH]; intros acts2 fs fs'.
  - simpl. split; [eauto|]. by intros (? & [= <-] & ?).
  - rewrite <- app_comm_cons, execs_cons. split.
    + intros (fs1 & Hs & (fs2 & H1 & H2)%IH). exists fs2. split; [|done].
      apply execs_cons. eauto.
    + intros (fs2 & (fs1 & Hs & H1)%execs_cons & H2). exists fs1. split; [done|].
      apply IH. eauto.
Qed.

Lemma holders_app (l1 l2 : list Call) :
  holders (l1 ++ l2) = holders l1 + holders l2.
Proof. induction l1 as [|c l1 IH]; simpl; [done|]. rewrite IH. lia. Qed.

Lemma holders_insert (l : list Call) g c c' :
  l !! g = Some c →
  holders (<[g := c']> l) + (if critical c then 1 else 0) =
  holders l + (if critical c' then 1 else 0).
Proof.
  revert g. induction l as [|c0 l IH]; intros [|g] Hg; simplify_eq/=.
  - lia.
  - specialize (IH g Hg). lia.
Qed.

Lemma holders_lookup (l : list Call) g c :
  l !! g = Some c → critical c = true → 1 ≤ holders l.
Proof.
  revert g. induction l as [|c0 l IH]; intros [|g] Hg Hc; simplify_eq/=.
  - rewrite Hc. lia.
  - specialize (IH g Hg Hc). lia.
Qed.

Lemma sole_holder (l : list Call) g1 g2 c1 c2 :
  holders l ≤ 1 →
  l !! g1 = Some c1 → critical c1 = true →
  l !! g2 = Some c2 → critical c2 = true → g1 = g2.
Proof.
  revert g1 g2. induction l as [|c0 l IH]; intros [|g1] [|g2] Hle H1 Hc1 H2 Hc2;
    simplify_eq/=; try done.
  - rewrite Hc1 in Hle. pose proof (holders_lookup _ _ _ H2 Hc2). lia.
  - rewrite Hc2 in Hle. pose proof (holders_lookup _ _ _ H1 Hc1). lia.
  - f_equal. apply (IH g1 g2); try done. lia.
Qed.

Lemma Lock_Ok st st' :
  Lock st = Ok st' ↔
  mux (globalCanceller st) = false ∧
  st' = set_canc st (mkCanceller (signals (globalCanceller st)) true).
Proof.
  unfold Lock. destruct (mux (globalCanceller st)); split; try done.
  - by intros [? _].
  - by intros [= <-].
  - by intros [_ ->].
Qed.

Lemma Unlock_Ok st st' :
  Unlock st = Ok st' ↔
  mux (globalCanceller st) = true ∧
  st' = set_canc st (mkCanceller (signals (globalCanceller st)) false).
Proof.
  unfold Unlock. destruct (mux (globalCanceller st)); split; try done.
  - by intros [= <-].
  - by intros [_ ->].
  - by intros [? _].
Qed.

Lemma close_Ok ch st st' :
  close ch st = Ok st' ↔
  ∃ c, ch = Some c ∧ chans st !! c = Some false ∧
       st' = set_closes (set_chans st (<[c := true]> (chans st))) (closes st ++ [c]).
Proof.
  unfold close. split.
  - destruct ch as [c|]; [|done].
    destruct (chans st !! c) as [[|]|] eqn:Hc; try done.
    intros [= <-]. by exists c.
  - intros (c & -> & Hc & ->). by rewrite Hc.
Qed.

Lemma lookup_snoc_inv {A} (l : list A) x i y :
  (l ++ [x]) !! i = Some y ↔ l !! i = Some y ∨ (i = length l ∧ x = y).
Proof.
  rewrite lookup_app_Some. split.
  - intros [?|[Hle Hi]]; [by left|]. right.
    apply list_lookup_singleton_Some in Hi as [Hi ->]. split; [lia|done].
  - intros [?|[-> ->]]; [by left|]. right. split; [done|].
    by rewrite Nat.sub_diag.
Qed.

Lemma holder_mux fs g c :
  fine_inv fs → calls fs !! g = Some c → critical c = true →
  mux (globalCanceller (shared fs)) = true.
Proof.
  intros Hinv Hg Hc. pose proof (fi_mutex _ Hinv) as Hm.
  pose proof (holders_lookup _ _ _ Hg Hc).
  destruct (mux _); [done|lia].
Qed.

Lemma holder_unique fs g1 g2 c1 c2 :
  fine_inv fs →
  calls fs !! g1 = Some c1 → critical c1 = true →
  calls fs !! g2 = Some c2 → critical c2 = true → g1 = g2.
Proof.
  intros Hinv. apply sole_holder. rewrite (fi_mutex _ Hinv).
  destruct (mux _); lia.
Qed.

Lemma free_no_holder fs g c :
  fine_inv fs → mux (globalCanceller (shared fs)) = false →
  calls fs !! g = Some c → critical c = false.
Proof.
  intros Hinv Hm Hg. destruct (critical c) eqn:Hc; [|done].
  by rewrite (holder_mux fs g c) in Hm.
Qed.

(** While the holder is not between a close and its delete, every entry
    holds an open channel. *)
Lemma holder_open fs g c :
  fine_inv fs → calls fs !! g = Some c → critical c = true →
  (∀ k v, c ≠ CallCancel (CanAtDelete k v)) →
  ∀ k ch, signals (globalCanceller (shared fs)) !! k = Some ch →
          chans (shared fs) !! ch = Some false.
Proof.
  intros Hinv Hg Hc Hne k ch Hk.
  destruct (fi_open _ Hinv k ch Hk) as [?|(_ & g' & v & Hg')]; [done|].
  assert (g' = g) as -> by (by eapply holder_unique).
  rewrite Hg in Hg'. injection Hg' as ->. by destruct (Hne k v).
Qed.

(** So it does whenever the mutex is free. *)
Lemma free_open fs :
  fine_inv fs → mux (globalCanceller (shared fs)) = false →
  ∀ k ch, signals (globalCanceller (shared fs)) !! k = Some ch →
          chans (shared fs) !! ch = Some false.
Proof.
  intros Hinv Hm k ch Hk.
  destruct (fi_open _ Hinv k ch Hk) as [?|(_ & g' & v & Hg')]; [done|].
  by pose proof (free_no_holder fs g' _ Hinv Hm Hg').
Qed.

Lemma entry_allocated fs k ch :
  fine_inv fs → signals (globalCanceller (shared fs)) !! k = Some ch →
  is_Some (chans (shared fs) !! ch).
Proof. intros Hinv Hk. destruct (fi_open _ Hinv k ch Hk) as [?|[? _]]; eauto. Qed.

Lemma go_addChannel_inv key fs fs' :
  fine_inv fs → exec (GoAddChannel key) fs = Ok fs' → fine_inv fs'.
Proof.
  intros Hinv [= <-].
  set (f := fresh (dom (chans (shared fs)))).
  assert (Hf : chans (shared fs) !! f = None) by apply fresh_lookup_None.
  assert (Hkeep : ∀ c b, chans (shared fs) !! c = Some b →
            <[f := false]> (chans (shared fs)) !! c = Some b).
  { intros c b Hc. rewrite lookup_insert_ne; [done|]. intros <-. congruence. }
  destruct Hinv as [Hm Hopen Hinj Hnd Hcl Hal Hpe Hdi Hac Had Hpr Hau].
  split; simpl.
  - rewrite holders_app. simpl. lia.
  - intros k c Hk. destruct (Hopen k c Hk) as [?|(? & g & v & Hg)].
    + left. by apply Hkeep.
    + right. split; [by apply Hkeep|]. exists g, v. by apply lookup_app_l_Some.
  - done.
  - done.
  - intros c. rewrite Hcl. split.
    + apply Hkeep.
    + intros Hc. apply lookup_insert_Some in Hc as [[_ ?]|[_ ?]]; done.
  - intros g k c pc [Hg|[_ [= <- <- <-]]]%lookup_snoc_inv.
    + destruct (Hal g k c pc Hg) as [b Hb]. exists b. by apply Hkeep.
    + by rewrite lookup_insert_eq.
  - intros g k c pc [Hg|[_ [= <- <- <-]]]%lookup_snoc_inv Hpc.
    + destruct (Hpe g k c pc Hg Hpc) as [Hc Hk]. split; [by apply Hkeep|done].
    + split; [by rewrite lookup_insert_eq|].
      intros k' Hk'. destruct (Hopen k' f Hk') as [?|[? _]]; congruence.
  - intros g1 g2 k1 k2 c pc1 pc2 Hg1 Hg2.
    apply lookup_snoc_inv in Hg1 as [Hg1|[-> Heq1]];
      apply lookup_snoc_inv in Hg2 as [Hg2|[-> Heq2]]; simplify_eq.
    + by eapply Hdi.
    + destruct (Hal g1 _ _ _ Hg1) as [b Hb]. congruence.
    + destruct (Hal g2 _ _ _ Hg2) as [b Hb]. congruence.
    + done.
  - intros g k v [Hg|[_ [=]]]%lookup_snoc_inv. by eapply Hac.
  - intros g k v [Hg|[_ [=]]]%lookup_snoc_inv.
    destruct (Had g k v Hg) as (c & Hk & Hc). exists c. split; [done|by apply Hkeep].
  - intros g c k [Hg|[_ <-]]%lookup_snoc_inv Hk; [by eapply Hpr|].
    by apply elem_of_nil in Hk.
  - intros g v [Hg|[_ [=]]]%lookup_snoc_inv. by eapply Hau.
Qed.

Lemma go_cancelAll_inv fs fs' :
  fine_inv fs → exec GoCancelAll fs = Ok fs' → fine_inv fs'.
Proof.
  intros Hinv [= <-].
  destruct Hinv as [Hm Hopen Hinj Hnd Hcl Hal Hpe Hdi Hac Had Hpr Hau].
  split; simpl; try done.
  - rewrite holders_app. simpl. lia.
  - intros k c Hk. destruct (Hopen k c Hk) as [?|(? & g & v & Hg)]; [by left|].
    right. split; [done|]. exists g, v. by apply lookup_app_l_Some.
  - intros g k c pc [Hg|[_ [=]]]%lookup_snoc_inv. by eapply Hal.
  - intros g k c pc [Hg|[_ [=]]]%lookup_snoc_inv. by eapply Hpe.
  - intros g1 g2 k1 k2 c pc1 pc2
      [Hg1|[_ [=]]]%lookup_snoc_inv [Hg2|[_ [=]]]%lookup_snoc_inv.
    by eapply Hdi.
  - intros g k v [Hg|[_ [=]]]%lookup_snoc_inv. by eapply Hac.
  - intros g k v [Hg|[_ [=]]]%lookup_snoc_inv. by eapply Had.
  - intros g c k [Hg|[_ <-]]%lookup_snoc_inv Hk; [by eapply Hpr|].
    by apply elem_of_nil in Hk.
  - intros g v [Hg|[_ [=]]]%lookup_snoc_inv. by eapply Hau.
Qed.

(** A statement of a call leaves the key and the channel of every call of
    [addChannel] as they are. *)
Definition same_adds (l l' : list Call) : Prop :=
  ∀ i k c pc, l' !! i = Some (CallAdd k c pc) →
    ∃ pc0, l !! i = Some (CallAdd k c pc0).

Lemma insert_same_adds_add (l : list Call) g k c pc0 pc1 :
  l !! g = Some (CallAdd k c pc0) → same_adds l (<[g := CallAdd k c pc1]> l).
Proof.
  intros Hg i k' c' pc Hi.
  apply list_lookup_insert_Some in Hi as [(<- & [= <- <- <-] & _)|[_ Hi]]; eauto.
Qed.

Lemma insert_same_adds_cancel (l : list Call) g pc0 pc1 :
  l !! g = Some (CallCancel pc0) → same_adds l (<[g := CallCancel pc1]> l).
Proof.
  intros Hg i k' c' pc Hi.
  apply list_lookup_insert_Some in Hi as [(<- & [=] & _)|[_ Hi]]; eauto.
Qed.

Lemma same_adds_distinct fs (l' : list Call) :
  fine_inv fs → same_adds (calls fs) l' →
  ∀ g1 g2 key1 key2 c pc1 pc2,
    l' !! g1 = Some (CallAdd key1 c pc1) →
    l' !! g2 = Some (CallAdd key2 c pc2) → g1 = g2.
Proof.
  intros Hinv Hsame g1 g2 k1 k2 c pc1 pc2 H1 H2.
  destruct (Hsame _ _ _ _ H1) as [pc1' H1'].
  destruct (Hsame _ _ _ _ H2) as [pc2' H2'].
  by eapply (fi_distinct _ Hinv).
Qed.

Lemma same_adds_alloc fs (l' : list Call) (ch : gmap nat bool) :
  fine_inv fs → same_adds (calls fs) l' →
  (∀ c, is_Some (chans (shared fs) !! c) → is_Some (ch !! c)) →
  ∀ g key c pc, l' !! g = Some (CallAdd key c pc) → is_Some (ch !! c).
Proof.
  intros Hinv Hsame Hle g k c pc Hg.
  destruct (Hsame _ _ _ _ Hg) as [pc' Hg'].
  apply Hle. by eapply (fi_alloc _ Hinv).
Qed.

Lemma do_lock_inv g fs fs' :
  fine_inv fs → exec (DoLock g) fs = Ok fs' → fine_inv fs'.
Proof.
  intros Hinv Hexec. simpl in Hexec.
  destruct (calls fs !! g) as [c0|] eqn:Hg; [|done].
  assert (∃ c1 st', Lock (shared fs) = Ok st' ∧ fs' = set_call fs st' g c1 ∧
            critical c0 = false ∧ critical c1 = true ∧ produced c1 = [] ∧
            same_adds (calls fs) (<[g := c1]> (calls fs)) ∧
            (∀ k c pc, c1 = CallAdd k c pc →
                c0 = CallAdd k c AddAtLock ∧ pc = AddAtStore) ∧
            (∀ k v, c1 ≠ CallCancel (CanAtClose k v)) ∧
            (∀ k v, c1 ≠ CallCancel (CanAtDelete k v)) ∧
            (∀ v, c1 ≠ CallCancel (CanAtUnlock v)))
    as (c1 & st' & HL & -> & Hc0 & Hc1 & Hp1 & Hsame & Hadd & Hn1 & Hn2 & Hn3).
  { destruct c0 as [k c []|[]]; try done.
    - destruct (Lock (shared fs)) as [st'| |] eqn:HL; try done.
      injection Hexec as <-. eexists _, st'. split_and!; try done.
      + by eapply insert_same_adds_add.
      + by intros ? ? ? [= <- <- <-].
    - destruct (Lock (shared fs)) as [st'| |] eqn:HL; try done.
      injection Hexec as <-. eexists _, st'. split_and!; try done.
      by eapply insert_same_adds_cancel. }
  clear Hexec. apply Lock_Ok in HL as [Hfree ->].
  pose proof (free_open fs Hinv Hfree) as Hallopen.
  pose proof Hinv as [Hm Hopen Hinj Hnd Hcl Hal Hpe Hdi Hac Had Hpr Hau].
  split; simpl.
  - pose proof (holders_insert _ g c0 c1 Hg) as Hh.
    rewrite Hc0, Hc1, Hm, Hfree in Hh. lia.
  - intros k c Hk. left. by eapply Hallopen.
  - done.
  - done.
  - done.
  - by eapply same_adds_alloc.
  - intros g' k c pc Hg' Hpc.
    apply list_lookup_insert_Some in Hg' as [(<- & Heq & _)|[_ Hg']].
    + destruct (Hadd k c pc Heq) as [-> ->].
      eapply Hpe; [done|by left].
    + by eapply Hpe.
  - by eapply same_adds_distinct.
  - intros g' k v Hg'.
    apply list_lookup_insert_Some in Hg' as [(<- & Heq & _)|[_ Hg']].
    + by destruct (Hn1 k v).
    + by eapply Hac.
  - intros g' k v Hg'.
    apply list_lookup_insert_Some in Hg' as [(<- & Heq & _)|[_ Hg']].
    + by destruct (Hn2 k v).
    + by eapply Had.
  - intros g' c k Hg' Hk.
    apply list_lookup_insert_Some in Hg' as [(<- & <- & _)|[_ Hg']].
    + rewrite Hp1 in Hk. by apply elem_of_nil in Hk.
    + by eapply Hpr.
  - intros g' v Hg'.
    apply list_lookup_insert_Some in Hg' as [(<- & Heq & _)|[_ Hg']].
    + by destruct (Hn3 v).
    + by eapply Hau.
Qed.

Lemma others_idle fs g c g' c' :
  fine_inv fs → calls fs !! g = Some c → critical c = true →
  g ≠ g' → calls fs !! g' = Some c' → critical c' = false.
Proof.
  intros Hinv Hg Hc Hne Hg'. destruct (critical c') eqn:Hc'; [|done].
  destruct Hne. by eapply holder_unique.
Qed.

Lemma produced_critical (c : Call) k : k ∈ produced c → critical c = true.
Proof.
  destruct c as [? ? ?|[]]; simpl; try done; by intros ?%elem_of_nil.
Qed.

(** The fields of the invariant that speak of the calls inside the loop of
    [cancelAll], for the calls other than the holder [g]: there are none. *)
Ltac idle Hinv Hg Hne Hg' :=
  let H := fresh in
  pose proof (others_idle _ _ _ _ _ Hinv Hg eq_refl Hne Hg') as H;
  try discriminate H.

Lemma do_store_inv g fs fs' :
  fine_inv fs → exec (DoStore g) fs = Ok fs' → fine_inv fs'.
Proof.
  intros Hinv Hexec. simpl in Hexec.
  destruct (calls fs !! g) as [[key c []|]|] eqn:Hg; try done.
  injection Hexec as <-.
  pose proof (holder_open fs g _ Hinv Hg eq_refl ltac:(done)) as Hallopen.
  pose proof Hinv as [Hm Hopen Hinj Hnd Hcl Hal Hpe Hdi Hac Had Hpr Hau].
  destruct (Hpe g key c _ Hg ltac:(by right)) as [Hcopen Hcnew].
  pose proof (insert_same_adds_add _ g key c _ AddAtUnlock Hg) as Hsame.
  split; simpl.
  - pose proof (holders_insert _ g _ (CallAdd key c AddAtUnlock) Hg) as Hh.
    simpl in Hh. lia.
  - intros k c' [[<- <-]|[_ Hk]]%lookup_insert_Some; left; [done|by eapply Hallopen].
  - intros k1 k2 c' [[<- <-]|[Hne1 Hk1]]%lookup_insert_Some
                    [[<- Heq]|[Hne2 Hk2]]%lookup_insert_Some; try done.
    + subst. by destruct (Hcnew k2).
    + subst. by destruct (Hcnew k1).
    + by eapply Hinj.
  - done.
  - done.
  - by eapply same_adds_alloc.
  - intros g' k c' pc Hg' Hpc.
    apply list_lookup_insert_Some in Hg' as [(<- & Heq & _)|[Hne Hg']].
    + injection Heq as <- <- <-. by destruct Hpc.
    + destruct (Hpe g' k c' pc Hg' Hpc) as [Hc' Hk']. split; [done|].
      intros k0 [[<- <-]|[_ Hk0]]%lookup_insert_Some; [|by eapply Hk'].
      destruct Hne. by eapply Hdi.
  - by eapply same_adds_distinct.
  - intros g' k v Hg'.
    apply list_lookup_insert_Some in Hg' as [(<- & Heq & _)|[Hne Hg']]; [done|].
    idle Hinv Hg Hne Hg'.
  - intros g' k v Hg'.
    apply list_lookup_insert_Some in Hg' as [(<- & Heq & _)|[Hne Hg']]; [done|].
    idle Hinv Hg Hne Hg'.
  - intros g' c' k Hg' Hk.
    apply list_lookup_insert_Some in Hg' as [(<- & <- & _)|[Hne Hg']].
    + by apply elem_of_nil in Hk.
    + apply produced_critical in Hk. idle Hinv Hg Hne Hg'. congruence.
  - intros g' v Hg'.
    apply list_lookup_insert_Some in Hg' as [(<- & Heq & _)|[Hne Hg']]; [done|].
    idle Hinv Hg Hne Hg'.
Qed.

Lemma do_next_inv g next fs fs' :
  fine_inv fs → exec (DoNext g next) fs = Ok fs' → fine_inv fs'.
Proof.
  intros Hinv Hexec. simpl in Hexec.
  destruct (calls fs !! g) as [[|[|v| | | |]]|] eqn:Hg; try done.
  pose proof (holder_open fs g _ Hinv Hg eq_refl ltac:(done)) as Hallopen.
  pose proof Hinv as [Hm Hopen Hinj Hnd Hcl Hal Hpe Hdi Hac Had Hpr Hau].
  assert (∃ pc1, fs' = set_call fs (shared fs) g (CallCancel pc1) ∧
            critical (CallCancel pc1) = true ∧
            (∀ k, k ∈ produced (CallCancel pc1) → k ∈ v) ∧
            (∀ k v', pc1 = CanAtClose k v' →
               is_Some (signals (globalCanceller (shared fs)) !! k)) ∧
            (∀ k v', pc1 ≠ CanAtDelete k v') ∧
            (∀ v', pc1 = CanAtUnlock v' →
               signals (globalCanceller (shared fs)) = ∅))
    as (pc1 & -> & Hc1 & Hp1 & Hcl1 & Hnd1 & Hul1).
  { destruct next as [key|].
    - destruct (decide _) as [[Hin Hnot]|]; [|done]. injection Hexec as <-.
      eexists. split_and!; try done.
      intros k v' [= <- <-]. by apply elem_of_dom.
    - destruct (decide _) as [Hsub|]; [|done]. injection Hexec as <-.
      eexists. split_and!; try done.
      + simpl. by intros k ?%elem_of_nil.
      + intros v' [= <-]. apply map_empty. intros k.
        destruct (signals (globalCanceller (shared fs)) !! k) as [c|] eqn:Hk; [|done].
        assert (k ∈ v).
        { apply (elem_of_list_to_set (C := gset string)), Hsub, elem_of_dom. eauto. }
        by rewrite (Hpr g _ k Hg) in Hk. }
  clear Hexec.
  pose proof (insert_same_adds_cancel _ g _ pc1 Hg) as Hsame.
  split; simpl.
  - pose proof (holders_insert _ g _ (CallCancel pc1) Hg) as Hh.
    rewrite Hc1 in Hh. simpl in Hh. lia.
  - intros k c Hk. left. by eapply Hallopen.
  - done.
  - done.
  - done.
  - by eapply same_adds_alloc.
  - intros g' k c pc Hg' Hpc.
    apply list_lookup_insert_Some in Hg' as [(<- & Heq & _)|[Hne Hg']]; [done|].
    by eapply Hpe.
  - by eapply same_adds_distinct.
  - intros g' k v' Hg'.
    apply list_lookup_insert_Some in Hg' as [(<- & Heq & _)|[Hne Hg']].
    + injection Heq as ->. by eapply Hcl1.
    + idle Hinv Hg Hne Hg'.
  - intros g' k v' Hg'.
    apply list_lookup_insert_Some in Hg' as [(<- & Heq & _)|[Hne Hg']].
    + injection Heq as ->. by destruct (Hnd1 k v').
    + idle Hinv Hg Hne Hg'.
  - intros g' c' k Hg' Hk.
    apply list_lookup_insert_Some in Hg' as [(<- & <- & _)|[Hne Hg']].
    + apply (Hpr g _ k Hg). simpl. by apply Hp1.
    + apply produced_critical in Hk. idle Hinv Hg Hne Hg'. congruence.
  - intros g' v' Hg'.
    apply list_lookup_insert_Some in Hg' as [(<- & Heq & _)|[Hne Hg']].
    + injection Heq as ->. by eapply Hul1.
    + idle Hinv Hg Hne Hg'.
Qed.

Lemma do_close_inv g fs fs' :
  fine_inv fs → exec (DoClose g) fs = Ok fs' → fine_inv fs'.
Proof.
  intros Hinv Hexec. simpl in Hexec.
  destruct (calls fs !! g) as [[|[| |key v| | |]]|] eqn:Hg; try done.
  destruct (close _ (shared fs)) as [st'| |] eqn:Hclose; try done.
  injection Hexec as <-.
  apply close_Ok in Hclose as (c & Hkey & Hc & ->).
  pose proof (holder_open fs g _ Hinv Hg eq_refl ltac:(done)) as Hallopen.
  pose proof Hinv as [Hm Hopen Hinj Hnd Hcl Hal Hpe Hdi Hac Had Hpr Hau].
  pose proof (insert_same_adds_cancel _ g _ (CanAtDelete key v) Hg) as Hsame.
  assert (Hlt : g < length (calls fs)) by (by eapply lookup_lt_Some).
  split; simpl.
  - pose proof (holders_insert _ g _ (CallCancel (CanAtDelete key v)) Hg) as Hh.
    simpl in Hh. lia.
  - intros k c' Hk. destruct (decide (c' = c)) as [->|Hne].
    + right. split; [by rewrite lookup_insert_eq|].
      assert (k = key) as -> by (by eapply Hinj).
      exists g, v. by apply list_lookup_insert_eq.
    + left. rewrite lookup_insert_ne by done. by eapply Hallopen.
  - done.
  - apply NoDup_app. split_and!; [done| |apply NoDup_singleton].
    intros c' Hin ->%list_elem_of_singleton. apply Hcl in Hin. congruence.
  - intros c'. rewrite elem_of_app, list_elem_of_singleton, Hcl.
    destruct (decide (c' = c)) as [->|Hne].
    + rewrite lookup_insert_eq. split; [done|by right].
    + rewrite lookup_insert_ne by done. split; [by intros [?|?]|by left].
  - eapply same_adds_alloc; [done|done|].
    intros c' Hc'. by apply lookup_insert_is_Some'; right.
  - intros g' k c' pc Hg' Hpc.
    apply list_lookup_insert_Some in Hg' as [(<- & Heq & _)|[Hne Hg']]; [done|].
    destruct (Hpe g' k c' pc Hg' Hpc) as [Hc' Hk']. split; [|done].
    rewrite lookup_insert_ne; [done|]. intros <-. by destruct (Hk' key).
  - by eapply same_adds_distinct.
  - intros g' k v' Hg'.
    apply list_lookup_insert_Some in Hg' as [(<- & Heq & _)|[Hne Hg']]; [done|].
    idle Hinv Hg Hne Hg'.
  - intros g' k v' Hg'.
    apply list_lookup_insert_Some in Hg' as [(<- & Heq & _)|[Hne Hg']].
    + injection Heq as <- <-. exists c. by rewrite lookup_insert_eq.
    + idle Hinv Hg Hne Hg'.
  - intros g' c' k Hg' Hk.
    apply list_lookup_insert_Some in Hg' as [(<- & <- & _)|[Hne Hg']].
    + by apply (Hpr g _ k Hg).
    + apply produced_critical in Hk. idle Hinv Hg Hne Hg'. congruence.
  - intros g' v' Hg'.
    apply list_lookup_insert_Some in Hg' as [(<- & Heq & _)|[Hne Hg']]; [done|].
    idle Hinv Hg Hne Hg'.
Qed.

Lemma do_delete_inv g fs fs' :
  fine_inv fs → exec (DoDelete g) fs = Ok fs' → fine_inv fs'.
Proof.
  intros Hinv Hexec. simpl in Hexec.
  destruct (calls fs !! g) as [[|[| | |key v| |]]|] eqn:Hg; try done.
  injection Hexec as <-.
  pose proof Hinv as [Hm Hopen Hinj Hnd Hcl Hal Hpe Hdi Hac Had Hpr Hau].
  pose proof (insert_same_adds_cancel _ g _ (CanAtRange (key :: v)) Hg) as Hsame.
  split; simpl.
  - pose proof (holders_insert _ g _ (CallCancel (CanAtRange (key :: v))) Hg) as Hh.
    simpl in Hh. lia.
  - intros k c [Hne Hk]%lookup_delete_Some.
    destruct (Hopen k c Hk) as [?|(_ & g' & v' & Hg')]; [by left|].
    assert (g' = g) as -> by (by eapply holder_unique).
    rewrite Hg in Hg'. by injection Hg' as -> ->.
  - intros k1 k2 c [_ Hk1]%lookup_delete_Some [_ Hk2]%lookup_delete_Some.
    by eapply Hinj.
  - done.
  - done.
  - by eapply same_adds_alloc.
  - intros g' k c' pc Hg' Hpc.
    apply list_lookup_insert_Some in Hg' as [(<- & Heq & _)|[Hne Hg']]; [done|].
    destruct (Hpe g' k c' pc Hg' Hpc) as [Hc' Hk']. split; [done|].
    intros k0 [_ Hk0]%lookup_delete_Some. by eapply Hk'.
  - by eapply same_adds_distinct.
  - intros g' k v' Hg'.
    apply list_lookup_insert_Some in Hg' as [(<- & Heq & _)|[Hne Hg']]; [done|].
    idle Hinv Hg Hne Hg'.
  - intros g' k v' Hg'.
    apply list_lookup_insert_Some in Hg' as [(<- & Heq & _)|[Hne Hg']]; [done|].
    idle Hinv Hg Hne Hg'.
  - intros g' c' k Hg' Hk.
    apply list_lookup_insert_Some in Hg' as [(<- & <- & _)|[Hne Hg']].
    + simpl in Hk. apply elem_of_cons in Hk as [->|Hk].
      * apply lookup_delete_eq.
      * apply lookup_delete_None. right. by apply (Hpr g _ k Hg).
    + apply produced_critical in Hk. idle Hinv Hg Hne Hg'. congruence.
  - intros g' v' Hg'.
    apply list_lookup_insert_Some in Hg' as [(<- & Heq & _)|[Hne Hg']]; [done|].
    idle Hinv Hg Hne Hg'.
Qed.

Lemma do_unlock_inv g fs fs' :
  fine_inv fs → exec (DoUnlock g) fs = Ok fs' → fine_inv fs'.
Proof.
  intros Hinv Hexec. simpl in Hexec.
  destruct (calls fs !! g) as [c0|] eqn:Hg; [|done].
  assert (∃ c1 st', Unlock (shared fs) = Ok st' ∧ fs' = set_call fs st' g c1 ∧
            critical c0 = true ∧ critical c1 = false ∧ produced c1 = [] ∧
            same_adds (calls fs) (<[g := c1]> (calls fs)) ∧
            (∀ k v, c0 ≠ CallCancel (CanAtDelete k v)) ∧
            (∀ k c pc, c1 = CallAdd k c pc → pc = AddDone) ∧
            (∀ k v, c1 ≠ CallCancel (CanAtClose k v)) ∧
            (∀ k v, c1 ≠ CallCancel (CanAtDelete k v)) ∧
            (∀ v, c1 ≠ CallCancel (CanAtUnlock v)))
    as (c1 & st' & HU & -> & Hc0 & Hc1 & Hp1 & Hsame & Hnd0 & Hadd & Hn1 & Hn2 & Hn3).
  { destruct c0 as [k c []|[]]; try done.
    - destruct (Unlock (shared fs)) as [st'| |] eqn:HU; try done.
      injection Hexec as <-. eexists _, st'. split_and!; try done.
      + by eapply insert_same_adds_add.
      + by intros ? ? ? [= _ _ <-].
    - destruct (Unlock (shared fs)) as [st'| |] eqn:HU; try done.
      injection Hexec as <-. eexists _, st'. split_and!; try done.
      by eapply insert_same_adds_cancel. }
  clear Hexec. apply Unlock_Ok in HU as [Hheld ->].
  pose proof (holder_open fs g _ Hinv Hg Hc0 Hnd0) as Hallopen.
  pose proof Hinv as [Hm Hopen Hinj Hnd Hcl Hal Hpe Hdi Hac Had Hpr Hau].
  split; simpl.
  - pose proof (holders_insert _ g c0 c1 Hg) as Hh.
    rewrite Hc0, Hc1, Hm, Hheld in Hh. lia.
  - intros k c Hk. left. by eapply Hallopen.
  - done.
  - done.
  - done.
  - by eapply same_adds_alloc.
  - intros g' k c pc Hg' Hpc.
    apply list_lookup_insert_Some in Hg' as [(<- & Heq & _)|[_ Hg']].
    + rewrite (Hadd k c pc Heq) in Hpc. by destruct Hpc.
    + by eapply Hpe.
  - by eapply same_adds_distinct.
  - intros g' k v Hg'.
    apply list_lookup_insert_Some in Hg' as [(<- & Heq & _)|[Hne Hg']].
    + by destruct (Hn1 k v).
    + pose proof (others_idle _ _ _ _ _ Hinv Hg Hc0 Hne Hg'). done.
  - intros g' k v Hg'.
    apply list_lookup_insert_Some in Hg' as [(<- & Heq & _)|[Hne Hg']].
    + by destruct (Hn2 k v).
    + pose proof (others_idle _ _ _ _ _ Hinv Hg Hc0 Hne Hg'). done.
  - intros g' c k Hg' Hk.
    apply list_lookup_insert_Some in Hg' as [(<- & <- & _)|[Hne Hg']].
    + rewrite Hp1 in Hk. by apply elem_of_nil in Hk.
    + apply produced_critical in Hk.
      pose proof (others_idle _ _ _ _ _ Hinv Hg Hc0 Hne Hg'). congruence.
  - intros g' v Hg'.
    apply list_lookup_insert_Some in Hg' as [(<- & Heq & _)|[Hne Hg']].
    + by destruct (Hn3 v).
    + pose proof (others_idle _ _ _ _ _ Hinv Hg Hc0 Hne Hg'). done.
Qed.

(** The invariant holds after [init] and is kept by every statement of
    every call. *)
Lemma exec_fine_inv (a : Stmt) fs fs' :
  fine_inv fs → exec a fs = Ok fs' → fine_inv fs'.
Proof.
  destruct a.
  - apply go_addChannel_inv.
  - apply go_cancelAll_inv.
  - apply do_lock_inv.
  - apply do_store_inv.
  - apply do_next_inv.
  - apply do_close_inv.
  - apply do_delete_inv.
  - apply do_unlock_inv.
Qed.

Lemma finit_fine_inv (w : W) : fine_inv (finit w).
Proof.
  split; simpl; try done.
  - apply NoDup_nil_2.
  - intros c. split; [by intros ?%elem_of_nil|]. by rewrite lookup_empty.
Qed.

Lemma execs_fine_inv (acts : list Stmt) : ∀ fs fs',
  fine_inv fs → execs acts fs = Ok fs' → fine_inv fs'.
Proof.
  induction acts as [|a acts IH]; intros fs fs' Hinv Hrun.
  - by injection Hrun as <-.
  - apply execs_cons in Hrun as (fs1 & Hstep & Hrun).
    eapply IH; [|done]. by eapply exec_fine_inv.
Qed.

(** No statement of any call panics: no [close] of a closed or nil channel,
    no [Unlock] of a free mutex. *)
Lemma exec_no_panic (a : Stmt) fs : fine_inv fs → exec a fs ≠ Panic.
Proof.
  intros Hinv. destruct a as [key| |g|g|g next|g|g|g]; simpl; try done.
  - destruct (calls fs !! g) as [[k c []|[]]|]; try done;
      unfold Lock; by destruct (mux _).
  - by destruct (calls fs !! g) as [[k c []|[]]|].
  - destruct (calls fs !! g) as [[k c []|[]]|]; try done.
    destruct next; by destruct (decide _).
  - destruct (calls fs !! g) as [[k c []|[| |key v| | |]]|] eqn:Hg; try done.
    destruct (fi_at_close _ Hinv g key v Hg) as [c Hk].
    pose proof (holder_open fs g _ Hinv Hg eq_refl ltac:(done) key c Hk) as Hc.
    rewrite Hk. simpl. by rewrite Hc.
  - by destruct (calls fs !! g) as [[k c []|[]]|].
  - destruct (calls fs !! g) as [[k c []|[]]|] eqn:Hg; try done;
      unfold Unlock; by rewrite (holder_mux fs g _ Hinv Hg eq_refl).
Qed.

(** [Lock] waits while the mutex is held, and only then. *)
Lemma lock_waits g fs :
  mux (globalCanceller (shared fs)) = true → exec (DoLock g) fs = Blocked.
Proof.
  intros Hheld. simpl. unfold Lock. rewrite Hheld.
  by destruct (calls fs !! g) as [[k c []|[]]|].
Qed.

Lemma lock_enters g c fs :
  mux (globalCanceller (shared fs)) = false →
  calls fs !! g = Some c → c = CallCancel CanAtLock ∨ (∃ k ch, c = CallAdd k ch AddAtLock) →
  ∃ fs', exec (DoLock g) fs = Ok fs'.
Proof.
  intros Hfree Hg Hc. simpl. rewrite Hg. unfold Lock. rewrite Hfree.
  destruct Hc as [->|(k & ch & ->)]; simpl; eauto.
Qed.

(** The holder is never held up: its next statement can be taken. *)
Lemma holder_proceeds g c fs :
  fine_inv fs → calls fs !! g = Some c → critical c = true →
  ∃ a fs', exec a fs = Ok fs' ∧
    (a = DoStore g ∨ (∃ next, a = DoNext g next) ∨ a = DoClose g ∨
     a = DoDelete g ∨ a = DoUnlock g).
Proof.
  intros Hinv Hg Hc.
  pose proof (holder_mux fs g c Hinv Hg Hc) as Hheld.
  destruct c as [k ch []|[|v|key v|key v|v|v]]; try done.
  - exists (DoStore g). eexists. split; [simpl; by rewrite Hg|]. by left.
  - exists (DoUnlock g). eexists. split; [|by do 4 right].
    simpl. rewrite Hg. unfold Unlock. by rewrite Hheld.
  - destruct (set_choose_or_empty
                (dom (signals (globalCanceller (shared fs))) ∖
                 (list_to_set v : gset string))) as [[key Hkey]|Hempty].
    + apply elem_of_difference in Hkey as [Hin Hnot].
      exists (DoNext g (Some key)). eexists. split; [|right; left; eauto].
      simpl. rewrite Hg. rewrite decide_True; [done|].
      split; [done|]. by rewrite elem_of_list_to_set in Hnot.
    + exists (DoNext g None). eexists. split; [|right; left; eauto].
      simpl. rewrite Hg. rewrite decide_True; [done|].
      intros k Hk. destruct (decide (k ∈ (list_to_set v : gset string))); [done|].
      assert (k ∈ dom (signals (globalCanceller (shared fs))) ∖
                  (list_to_set v : gset string)) as Hd
        by (by apply elem_of_difference).
      rewrite Hempty in Hd. by apply elem_of_empty in Hd.
  - exists (DoClose g).
    destruct (fi_at_close _ Hinv g key v Hg) as [c Hk].
    pose proof (holder_open fs g _ Hinv Hg eq_refl ltac:(done) key c Hk) as Hopen.
    eexists. split; [|by do 2 right; left].
    simpl. rewrite Hg, Hk. simpl. by rewrite Hopen.
  - exists (DoDelete g). eexists. split; [simpl; by rewrite Hg|].
    by do 3 right; left.
  - exists (DoUnlock g). eexists. split; [|by do 4 right].
    simpl. rewrite Hg. unfold Unlock. by rewrite Hheld.
Qed.

(** *** The calls take effect one at a time *)

Lemma atomics_app (os1 : list Atomic) : ∀ os2 st st',
  atomics (os1 ++ os2) st = Ok st' ↔
  ∃ st1, atomics os1 st = Ok st1 ∧ atomics os2 st1 = Ok st'.
Proof.
  induction os1 as [|o os1 IH]; intros os2 st st'.
  - simpl. split; [eauto|]. by intros (? & [= <-] & ?).
  - simpl. destruct (atomic o st) as [st1| |]; simpl.
    + apply IH.
    + split; [done|]. by intros (? & ? & _).
    + split; [done|]. by intros (? & ? & _).
Qed.

Lemma cancelAll_range_app (o1 : list string) : ∀ o2 st,
  cancelAll_range (o1 ++ o2) st =
  do st1 <- cancelAll_range o1 st; cancelAll_range o2 st1.
Proof.
  induction o1 as [|key o1 IH]; intros o2 st; simpl; [done|].
  destruct (close _ st) as [st1| |]; simpl; [apply IH|done|done].
Qed.

(** A loop of [cancelAll] that went through took keys that were all in the
    map, each once, and deleted them and no other. *)
Lemma cancelAll_range_inv (order : list string) : ∀ st st',
  cancelAll_range order st = Ok st' →
  NoDup order ∧
  (∀ k, k ∈ order → is_Some (signals (globalCanceller st) !! k)) ∧
  (∀ k, signals (globalCanceller st') !! k =
        if decide (k ∈ order) then None else signals (globalCanceller st) !! k) ∧
  mux (globalCanceller st') = mux (globalCanceller st).
Proof.
  induction order as [|key rest IH]; intros st st' Hrun.
  - injection Hrun as <-. split_and!; try done.
    + apply NoDup_nil_2.
    + by intros k ?%elem_of_nil.
  - simpl in Hrun.
    destruct (close _ st) as [st1| |] eqn:Hclose; try done. simpl in Hrun.
    apply close_Ok in Hclose as (c & Hk & Hc & ->). simpl in Hrun.
    apply IH in Hrun as (Hnd & Hin & Hsig & Hmux). simpl in *.
    assert (Hnot : key ∉ rest).
    { intros Hr. destruct (Hin key Hr) as [c' Hc'].
      by rewrite lookup_delete_eq in Hc'. }
    split_and!.
    + by apply NoDup_cons.
    + intros k [->|Hr]%elem_of_cons; [eauto|].
      destruct (Hin k Hr) as [c' Hc'].
      apply lookup_delete_Some in Hc' as [_ Hc']. eauto.
    + intros k. rewrite Hsig.
      destruct (decide (k ∈ rest)) as [Hr|Hr].
      * rewrite decide_True; [done|by right].
      * destruct (decide (k = key)) as [->|Hne].
        -- rewrite decide_True by (by left). apply lookup_delete_eq.
        -- rewrite decide_False; [by apply lookup_delete_ne|].
           by intros [?|?]%elem_of_cons.
    + done.
Qed.

(** A [make] by another goroutine does not disturb what the holder of the
    mutex is doing. *)
Lemma Lock_make st st1 :
  Lock st = Ok st1 → Lock (make_chan st) = Ok (make_chan st1).
Proof. intros [Hfree ->]%Lock_Ok. unfold Lock. simpl. by rewrite Hfree. Qed.

Lemma close_make ch st st1 :
  close ch st = Ok st1 → close ch (make_chan st) = Ok (make_chan st1).
Proof.
  intros (c & -> & Hc & ->)%close_Ok.
  assert (Hne : c ≠ fresh (dom (chans st))).
  { intros ->. by rewrite fresh_lookup_None in Hc. }
  unfold close, make_chan. simpl.
  rewrite lookup_insert_ne by done. rewrite Hc.
  rewrite (dom_insert_lookup_L (chans st) c true) by eauto.
  unfold set_closes, set_chans. simpl. do 2 f_equal.
  by apply insert_insert_ne.
Qed.

Lemma cancelAll_range_make (order : list string) : ∀ st st1,
  cancelAll_range order st = Ok st1 →
  cancelAll_range order (make_chan st) = Ok (make_chan st1).
Proof.
  induction order as [|key rest IH]; intros st st1 Hrun.
  - by injection Hrun as <-.
  - simpl in Hrun |- *.
    destruct (close _ st) as [st2| |] eqn:Hclose; try done. simpl in Hrun.
    change (signals (globalCanceller (make_chan st)))
      with (signals (globalCanceller st)).
    rewrite (close_make _ _ _ Hclose). simpl. by apply IH in Hrun.
Qed.

Lemma so_far_make (c : Call) st st1 :
  so_far c st = Ok st1 → so_far c (make_chan st) = Ok (make_chan st1).
Proof.
  assert (Hrange : ∀ v, (do s1 <- Lock st; cancelAll_range (reverse v) s1) = Ok st1 →
            (do s1 <- Lock (make_chan st); cancelAll_range (reverse v) s1) =
            Ok (make_chan st1)).
  { intros v H. destruct (Lock st) as [s1| |] eqn:HL; try done.
    rewrite (Lock_make _ _ HL). simpl in *. by apply cancelAll_range_make. }
  destruct c as [k ch []|[|v|key v|key v|v|v]]; simpl; try (by intros [= <-]);
    try apply Hrange.
  - apply Lock_make.
  - destruct (Lock st) as [s1| |] eqn:HL; try done. simpl. intros [= <-].
    by rewrite (Lock_make _ _ HL).
  - destruct (Lock st) as [s1| |] eqn:HL; try done. simpl.
    destruct (cancelAll_range (reverse v) s1) as [s2| |] eqn:HR; try done. simpl.
    intros Hclose. rewrite (Lock_make _ _ HL). simpl.
    rewrite (cancelAll_range_make _ _ _ HR). simpl.
    by apply close_make.
Qed.

(** Every statement keeps the state in step with the calls that have
    ended, each taken as a whole: the statement that ends a call is matched
    by the whole call, a [make] by a [make], every other statement by
    nothing. *)
Lemma exec_lin (a : Stmt) fs fs' st :
  fine_inv fs → lin_rel fs st → exec a fs = Ok fs' →
  ∃ st', atomics (commit a fs) st = Ok st' ∧ lin_rel fs' st'.
Proof.
  intros Hinv [Hfree Hheld] Hexec.
  pose proof (exec_fine_inv a fs fs' Hinv Hexec) as Hinv'.
  destruct a as [key| |g|g|g next|g|g|g]; simpl in Hexec.
  - (* GoAddChannel *)
    injection Hexec as <-. exists (make_chan st). split; [done|]. split; simpl.
    + intros Hm. by rewrite (Hfree Hm).
    + intros g c [Hg|[_ <-]]%lookup_snoc_inv Hc; [|done].
      apply so_far_make. by eapply Hheld.
  - (* GoCancelAll *)
    injection Hexec as <-. exists st. split; [done|]. split; simpl; [done|].
    intros g c [Hg|[_ <-]]%lookup_snoc_inv Hc; [|done]. by eapply Hheld.
  - (* DoLock *)
    exists st. split; [done|].
    destruct (calls fs !! g) as [c0|] eqn:Hg; [|done].
    assert (∃ c1 s1, Lock (shared fs) = Ok s1 ∧ fs' = set_call fs s1 g c1 ∧
              ∀ s : State W, so_far c1 s = do s1 <- Lock s; Ok s1)
      as (c1 & s1 & HL & -> & Hso).
    { destruct c0 as [k c []|[]]; try done;
        destruct (Lock (shared fs)) as [s1| |] eqn:HL; try done;
        injection Hexec as <-; eexists _, s1; split_and!; try done;
        intros s; simpl; by destruct (Lock s). }
    pose proof HL as [Hm ->]%Lock_Ok. split; simpl; [done|].
    intros g' c' Hg' Hc'.
    apply list_lookup_insert_Some in Hg' as [(<- & <- & _)|[_ Hg']].
    + rewrite Hso, <- (Hfree Hm), HL. done.
    + by rewrite (free_no_holder fs g' c' Hinv Hm Hg') in Hc'.
  - (* DoStore *)
    exists st. split; [done|].
    destruct (calls fs !! g) as [[key c []|]|] eqn:Hg; try done.
    injection Hexec as <-.
    pose proof (Hheld g _ Hg eq_refl) as Hso. simpl in Hso.
    pose proof (holder_mux fs g _ Hinv Hg eq_refl) as Hm.
    split; simpl; [by rewrite Hm|].
    intros g' c' Hg' Hc'.
    apply list_lookup_insert_Some in Hg' as [(<- & <- & _)|[Hne Hg']].
    + simpl. by rewrite Hso.
    + by rewrite (others_idle fs g _ g' c' Hinv Hg eq_refl Hne Hg') in Hc'.
  - (* DoNext *)
    exists st. split; [done|].
    destruct (calls fs !! g) as [[|[|v| | | |]]|] eqn:Hg; try done.
    pose proof (Hheld g _ Hg eq_refl) as Hso. simpl in Hso.
    pose proof (holder_mux fs g _ Hinv Hg eq_refl) as Hm.
    assert (∃ c1, fs' = set_call fs (shared fs) g c1 ∧
              so_far c1 st = Ok (shared fs)) as (c1 & -> & Hso1).
    { destruct next as [key|]; destruct (decide _); try done;
        injection Hexec as <-; by eexists. }
    split; simpl; [by rewrite Hm|].
    intros g' c' Hg' Hc'.
    apply list_lookup_insert_Some in Hg' as [(<- & <- & _)|[Hne Hg']]; [done|].
    by rewrite (others_idle fs g _ g' c' Hinv Hg eq_refl Hne Hg') in Hc'.
  - (* DoClose *)
    exists st. split; [done|].
    destruct (calls fs !! g) as [[|[| |key v| | |]]|] eqn:Hg; try done.
    destruct (close _ (shared fs)) as [s1| |] eqn:Hclose; try done.
    injection Hexec as <-.
    pose proof (Hheld g _ Hg eq_refl) as Hso. simpl in Hso.
    pose proof (holder_mux fs g _ Hinv Hg eq_refl) as Hm.
    split; simpl.
    + apply close_Ok in Hclose as (c & _ & _ & ->). simpl. by rewrite Hm.
    + intros g' c' Hg' Hc'.
      apply list_lookup_insert_Some in Hg' as [(<- & <- & _)|[Hne Hg']].
      * simpl. destruct (Lock st) as [s0| |]; try done. simpl in *.
        by rewrite Hso.
      * by rewrite (others_idle fs g _ g' c' Hinv Hg eq_refl Hne Hg') in Hc'.
  - (* DoDelete *)
    exists st. split; [done|].
    destruct (calls fs !! g) as [[|[| | |key v| |]]|] eqn:Hg; try done.
    injection Hexec as <-.
    pose proof (Hheld g _ Hg eq_refl) as Hso. simpl in Hso.
    pose proof (holder_mux fs g _ Hinv Hg eq_refl) as Hm.
    split; simpl; [by rewrite Hm|].
    intros g' c' Hg' Hc'.
    apply list_lookup_insert_Some in Hg' as [(<- & <- & _)|[Hne Hg']].
    + simpl. destruct (Lock st) as [s0| |]; try done. simpl in *.
      rewrite reverse_cons, cancelAll_range_app.
      destruct (cancelAll_range (reverse v) s0) as [s2| |]; try done. simpl in *.
      by rewrite Hso.
    + by rewrite (others_idle fs g _ g' c' Hinv Hg eq_refl Hne Hg') in Hc'.
  - (* DoUnlock *)
    destruct (calls fs !! g) as [c0|] eqn:Hg; [|done].
    assert (∃ c1 s1, Unlock (shared fs) = Ok s1 ∧ fs' = set_call fs s1 g c1 ∧
              critical c0 = true ∧
              atomics (commit (DoUnlock g) fs) st = Ok s1)
      as (c1 & s1 & HU & -> & Hc0 & Hat).
    { destruct c0 as [k c []|[| | | |v|]] eqn:Hc0; try done.
      - destruct (Unlock (shared fs)) as [s1| |] eqn:HU; try done.
        injection Hexec as <-. eexists _, s1. split_and!; try done.
        pose proof (Hheld g _ Hg eq_refl) as Hso. simpl in Hso.
        simpl. rewrite Hg. simpl. unfold addChannel.
        destruct (Lock st) as [s0| |]; try done. simpl in *.
        injection Hso as Hso. rewrite <- Hso in HU. unfold store in HU.
        by rewrite HU.
      - destruct (Unlock (shared fs)) as [s1| |] eqn:HU; try done.
        injection Hexec as <-. eexists _, s1. split_and!; try done.
        pose proof (Hheld g _ Hg eq_refl) as Hso. simpl in Hso.
        simpl. rewrite Hg. simpl.
        destruct (Lock st) as [s0| |] eqn:HL; try done. simpl in Hso.
        destruct (cancelAll_range_inv _ _ _ Hso) as (Hnd & Hin & Hsig & _).
        pose proof HL as [_ Hs0]%Lock_Ok.
        assert (Hord : range_order (reverse v) (signals (globalCanceller st))).
        { split; [done|]. apply set_eq. intros k.
          rewrite elem_of_list_to_set, elem_of_dom. split.
          - intros Hk. specialize (Hin k Hk). by rewrite Hs0 in Hin.
          - intros [c Hk]. destruct (decide (k ∈ reverse v)) as [|Hnot]; [done|].
            specialize (Hsig k). rewrite decide_False in Hsig by done.
            rewrite (fi_at_unlock _ Hinv g v Hg), lookup_empty in Hsig.
            rewrite Hs0 in Hsig. simpl in Hsig. congruence. }
        rewrite decide_True by done. unfold cancelAll.
        rewrite HL. cbn [bind]. rewrite Hso. cbn [bind]. by rewrite HU. }
    exists s1. split; [done|].
    pose proof HU as [Hm ->]%Unlock_Ok. split; simpl; [done|].
    intros g' c' Hg' Hc'.
    by rewrite (free_no_holder _ g' c' Hinv' eq_refl Hg') in Hc'.
Qed.

Lemma execs_lin (acts : list Stmt) : ∀ fs fs' st,
  fine_inv fs → lin_rel fs st → execs acts fs = Ok fs' →
  ∃ st', atomics (linearize acts fs) st = Ok st' ∧ lin_rel fs' st'.
Proof.
  induction acts as [|a acts IH]; intros fs fs' st Hinv Hrel Hrun.
  - injection Hrun as <-. by exists st.
  - apply execs_cons in Hrun as (fs1 & Hstep & Hrun).
    destruct (exec_lin a fs fs1 st Hinv Hrel Hstep) as (st1 & Hat & Hrel1).
    destruct (IH fs1 fs' st1) as (st' & Hat' & Hrel'); [|done|done|].
    { by eapply exec_fine_inv. }
    exists st'. split; [|done].
    cbn [linearize]. rewrite Hstep. apply atomics_app. eauto.
Qed.

Lemma finit_lin_rel (w : W) : lin_rel (finit w) (init w).
Proof. split; simpl; [done|]. intros g c Hg. by rewrite lookup_nil in Hg. Qed.

End StatementLemmas.

(** * The claims of the specification *)

(** C1. Whatever runners an invocation was given, and however its statements
    interleave with the rest of the program: its stack of deferred calls
    holds the shutdown functions the runners returned; once a case of the
    select is taken nothing can hold the invocation up, and it runs the
    shutdown functions of runners n-1, ..., 1, 0 in that order, each once,
    and only then returns; the log of an invocation that has returned shows
    exactly that. *)
Theorem shutdown_in_reverse_order {W : Type}
    (st : State W) (t : nat) (th : Thread W) :
  reachable st → threads st !! t = Some th →
  let n := length (t_runners th) in
  defers_from_runners th ∧
  (t_pc th = AtSelect →
     (t_defers th).*1 = reverse (seq 0 n) ∧
     ∀ src st1, step (Wake t src) st = Ok st1 →
       ∃ st2 th2, run (replicate (S n) (RunDefer t)) st1 = Ok st2 ∧
         threads st2 !! t = Some th2 ∧ t_pc th2 = Returned ∧
         t_trace th2 = t_trace th ++ [EvWake src] ++
                       (EvShutdown <$> reverse (seq 0 n)) ++ [EvReturn] ∧
         world st2 = stop_all (t_defers th) (world st)) ∧
  (t_pc th = AtReturn →
     (∃ st', step (RunDefer t) st = Ok st') ∧
     ∃ c key f src done,
       done ++ (t_defers th).*1 = reverse (seq 0 n) ∧
       t_trace th = prologue c key f ++ started n ++ [EvWake src] ++
                    (EvShutdown <$> done)) ∧
  (t_pc th = Returned →
     t_defers th = [] ∧
     ∃ c key f src,
       t_trace th = prologue c key f ++ started n ++ [EvWake src] ++
                    (EvShutdown <$> reverse (seq 0 n)) ++ [EvReturn]).
Proof.
  intros Hreach Ht n.
  destruct (thread_lookup_ok _ _ _ (reachable_ok _ Hreach) Ht) as (Hsh & Hdf & _).
  unfold thread_shape in Hsh. fold n in Hsh.
  split_and!; [done|..]; intros Hpc; rewrite Hpc in Hsh.
  - destruct Hsh as (c & key & f & Hc & Hf & Hd & Htr). split; [done|].
    intros src st1 Hstep.
    destruct (wake_result _ _ _ _ _ Hstep Ht) as (_ & Hth1 & Hw1 & _).
    set (th1 := advance th _ _ _ _ _) in Hth1.
    assert (Ht1 : threads st1 !! t = Some th1).
    { rewrite Hth1. apply list_lookup_insert_eq. by eapply lookup_lt_Some. }
    destruct (run_defers t (t_defers th) st1 th1 Ht1) as (st2 & Hrun & Hth2 & Hw2 & _);
      [done..|].
    rewrite (defers_length _ _ Hd) in Hrun.
    eexists st2, _. split_and!; [done| | | |].
    + rewrite Hth2. apply list_lookup_insert_eq. by eapply lookup_lt_Some.
    + done.
    + simpl. rewrite Hd. by rewrite <- !app_assoc.
    + by rewrite Hw2, Hw1.
  - destruct Hsh as (c & key & f & src & done & Hc & Hf & Hd & Htr). split.
    + simpl. unfold step_RunDefer. rewrite Ht, Hpc.
      destruct (t_defers th) as [|[i shutdown] rest]; eauto.
    + by exists c, key, f, src, done.
  - destruct Hsh as (c & key & f & src & Hc & Hf & Hd & Htr). split; [done|].
    by exists c, key, f, src.
Qed.

Lemma shutdown_in_reverse_order_witness :
  (t_defers Demo.first).*1 = [2; 1; 0].
Proof.
  destruct (shutdown_in_reverse_order Demo.waiting 0 Demo.first) as (_ & H & _).
  - exists [], Demo.setup. vm_compute. reflexivity.
  - vm_compute. reflexivity.
  - destruct H as [H _]; [vm_compute; reflexivity|]. exact H.
Defined.

(** C2. In every state that satisfies the registry invariant, [CancelAll]
    can run, whatever order the [range] takes; it does not panic; it closes
    the channel of every entry exactly once (the closes it executes are the
    registered channels, each one time) and leaves every other channel as it
    was; when it returns the map is empty; on an empty map it changes
    nothing. *)
Theorem cancelAll_closes_each_once_and_empties {W : Type} (st : State W) :
  registry_inv st →
  (∃ order, range_order order (signals (globalCanceller st))) ∧
  ∀ order, range_order order (signals (globalCanceller st)) →
    ∃ st', step (CancelAll order) st = Ok st' ∧
      signals (globalCanceller st') = ∅ ∧
      mux (globalCanceller st') = false ∧
      closes st' = closes st ++ registered order st ∧
      NoDup (registered order st) ∧
      (∀ k c, signals (globalCanceller st) !! k = Some c →
              c ∈ registered order st ∧ chans st !! c = Some false ∧
              chans st' !! c = Some true) ∧
      (∀ c, c ∉ registered order st → chans st' !! c = chans st !! c) ∧
      (signals (globalCanceller st) = ∅ → st' = st).
Proof.
  intros Hinv. split; [apply range_order_exists|].
  intros order Hord.
  destruct (cancelAll_ok st order Hinv Hord)
    as (st' & Hrun & [Hmux' Hok'] & Hsig & Hcls & Hch & Hs & Ht & Hw).
  exists st'. split_and!; try done.
  - simpl. by rewrite decide_True.
  - pose proof (ok_nodup _ Hok') as Hnd. rewrite Hcls in Hnd.
    by apply NoDup_app in Hnd as (_ & _ & ?).
  - intros k c Hk. pose proof (registered_range _ _ _ _ Hord Hk) as Hin.
    split_and!; [done|by eapply (ok_open _ (proj2 Hinv))|].
    by rewrite Hch, decide_True.
  - intros c Hc. by rewrite Hch, decide_False.
  - intros Hempty. destruct Hord as [_ Hdom].
    rewrite Hempty, dom_empty_L in Hdom.
    assert (order = []) as ->.
    { destruct order as [|k rest]; [done|]. exfalso.
      assert (k ∈ (∅ : gset string)); [|set_solver].
      rewrite <- Hdom. set_solver. }
    destruct Hinv as [Hmux _].
    unfold cancelAll, Lock in Hrun. rewrite Hmux in Hrun.
    simpl in Hrun. injection Hrun as <-.
    destruct st as [[sg mx] ? ? ? ? ?]. simpl in *. by subst.
Qed.

Lemma cancelAll_closes_each_once_and_empties_witness :
  ∃ st', step (CancelAll ["u1"; "u0"]) Demo.waiting = Ok st' ∧
         signals (globalCanceller st') = ∅.
Proof.
  destruct (cancelAll_closes_each_once_and_empties Demo.waiting) as [_ H].
  { apply (reachable_ok Demo.waiting). exists [], Demo.setup.
    vm_compute. reflexivity. }
  destruct (H ["u1"; "u0"]) as (st' & Hstep & Hempty & _).
  { refine (bool_decide_unpack _ _). vm_compute. exact I. }
  exists st'. split; [exact Hstep | exact Hempty].
Defined.

(** C3. The calls of [addChannel] and [cancelAll] taken statement by
    statement, interleaved in any way.  The mutex is held exactly when one
    call is between its [Lock] and its [Unlock], never by two, and [Lock]
    waits while it is held.  Every entry of the map holds an open channel,
    but for the one entry a [cancelAll] has closed and is about to delete:
    that happens only while that call holds the mutex, its next statement
    deletes the entry, and no other call gets at the map before.  So
    whenever the mutex is free the registry invariant holds.  No channel is
    closed twice and no statement panics.  All this is kept by every
    statement of every call.  And the calls take effect one at a time:
    whenever the mutex is free the state is the one the calls that have
    ended lead to when each is executed as a whole, in the order in which
    they ended. *)
Theorem registry_invariant_preserved {W : Type}
    (w : W) (acts : list Stmt) (fs : FState W) :
  execs acts (finit w) = Ok fs →
  holders (calls fs) = (if mux (globalCanceller (shared fs)) then 1 else 0) ∧
  (mux (globalCanceller (shared fs)) = true →
     ∀ g, exec (DoLock g) fs = Blocked) ∧
  (∀ k c, signals (globalCanceller (shared fs)) !! k = Some c →
     chans (shared fs) !! c = Some false ∨
     (chans (shared fs) !! c = Some true ∧
      mux (globalCanceller (shared fs)) = true ∧
      ∃ g v fs', calls fs !! g = Some (CallCancel (CanAtDelete k v)) ∧
        exec (DoDelete g) fs = Ok fs' ∧
        signals (globalCanceller (shared fs')) !! k = None)) ∧
  (mux (globalCanceller (shared fs)) = false → registry_inv (shared fs)) ∧
  NoDup (closes (shared fs)) ∧
  (∀ c, c ∈ closes (shared fs) ↔ chans (shared fs) !! c = Some true) ∧
  (∀ a, exec a fs ≠ Panic) ∧
  (∀ a fs', exec a fs = Ok fs' → fine_inv fs') ∧
  (mux (globalCanceller (shared fs)) = false →
     atomics (linearize acts (finit w)) (init w) = Ok (shared fs)).
Proof.
  intros Hrun.
  pose proof (execs_fine_inv acts _ _ (finit_fine_inv w) Hrun) as Hinv.
  split_and!.
  - apply (fi_mutex _ Hinv).
  - intros Hheld g. by apply lock_waits.
  - intros k c Hk.
    destruct (fi_open _ Hinv k c Hk) as [?|(Hc & g & v & Hg)]; [by left|].
    right. split_and!; [done|by eapply holder_mux|].
    exists g, v. eexists. split_and!; [done| |].
    + simpl. by rewrite Hg.
    + simpl. apply lookup_delete_eq.
  - intros Hfree. split; [done|]. split.
    + by apply free_open.
    + apply (fi_inj _ Hinv).
    + apply (fi_nodup _ Hinv).
    + apply (fi_closes _ Hinv).
  - apply (fi_nodup _ Hinv).
  - apply (fi_closes _ Hinv).
  - intros a. by apply exec_no_panic.
  - intros a fs'. by apply exec_fine_inv.
  - intros Hfree.
    destruct (execs_lin acts _ _ _ (finit_fine_inv w) (finit_lin_rel w) Hrun)
      as (st & Hat & [Heq _]).
    by rewrite (Heq Hfree).
Qed.

Lemma registry_invariant_preserved_witness :
  exec (DoLock 2) (Interleaved.fstate_after Interleaved.closing) = Blocked ∧
  atomics (linearize Interleaved.complete (finit ([] : list string))) (init []) =
    Ok (shared (Interleaved.fstate_after Interleaved.complete)).
Proof.
  split.
  - destruct (registry_invariant_preserved [] Interleaved.closing
                (Interleaved.fstate_after Interleaved.closing)) as (_ & H & _).
    + vm_compute. reflexivity.
    + apply H. vm_compute. reflexivity.
  - destruct (registry_invariant_preserved [] Interleaved.complete
                (Interleaved.fstate_after Interleaved.complete))
      as (_ & _ & _ & _ & _ & _ & _ & _ & H).
    + vm_compute. reflexivity.
    + apply H. vm_compute. reflexivity.
Defined.

(** C4. An invocation at its select stays there, with its record unchanged,
    whatever other statement is executed; it can leave by the case of the
    signal channel exactly when that channel holds a signal, and by the case
    of [finish] exactly when [finish] is closed; when neither holds it is
    blocked; when both hold either case can be taken; a signal it is
    subscribed to is enough, and so is a [CancelAll] while its entry is in
    the registry.  An invocation that is running its deferred calls or has
    returned has logged a wake-up.  It logs its return once, as the last
    thing it does: after that no statement changes its record. *)
Theorem select_blocks_until_woken {W : Type}
    (st : State W) (t : nat) (th : Thread W) :
  reachable st → threads st !! t = Some th →
  (t_pc th = AtSelect →
     ∃ c f sc, t_c th = Some c ∧ t_finish th = Some f ∧
       sigchans st !! c = Some sc ∧
       ((∃ st', step (Wake t FromSignal) st = Ok st') ↔ buf sc ≠ []) ∧
       ((∃ st', step (Wake t FromFinish) st = Ok st') ↔ chans st !! f = Some true) ∧
       (buf sc = [] → chans st !! f ≠ Some true →
        ∀ src, step (Wake t src) st = Blocked) ∧
       (∀ a st', step a st = Ok st' → (∀ src, a ≠ Wake t src) →
                 threads st' !! t = Some th) ∧
       (∀ src st', step (Wake t src) st = Ok st' →
          ∃ th', threads st' !! t = Some th' ∧ t_pc th' = AtReturn ∧
                 t_trace th' = t_trace th ++ [EvWake src]) ∧
       (∀ s, wants (t_signals th) s = true →
          ∃ st1 st2, step (Deliver s) st = Ok st1 ∧
                     step (Wake t FromSignal) st1 = Ok st2) ∧
       (∀ key order st1, signals (globalCanceller st) !! key = Some f →
          step (CancelAll order) st = Ok st1 →
          ∃ st2, step (Wake t FromFinish) st1 = Ok st2)) ∧
  (t_pc th = AtReturn ∨ t_pc th = Returned → ∃ src, EvWake src ∈ t_trace th) ∧
  (t_pc th ≠ Returned → EvReturn ∉ t_trace th) ∧
  (t_pc th = Returned →
     (∃ pre, t_trace th = pre ++ [EvReturn] ∧ EvReturn ∉ pre) ∧
     ∀ a st', step a st = Ok st' → threads st' !! t = Some th).
Proof.
  intros Hreach Ht.
  pose proof (reachable_ok _ Hreach) as Hinv.
  destruct (thread_lookup_ok _ _ _ Hinv Ht) as (Hsh & _ & Hhc & Hhf).
  destruct Hinv as [Hreg _].
  unfold thread_shape in Hsh.
  split_and!.
  - intros Hpc. rewrite Hpc in Hsh.
    destruct Hsh as (c & key & f & Hc & Hf & Hd & Htr).
    destruct (Hhc c Hc) as (sc & Hsc & Hw).
    exists c, f, sc. split_and!; try done.
    + by apply (wake_signal_enabled t st th c sc).
    + by apply (wake_finish_enabled t st th f).
    + by eapply wake_blocked.
    + intros a st' Hstep Hne.
      destruct (step_frame _ _ _ _ _ Hreg Hstep Ht) as [Hother Hsame].
      apply Hother. intros Hact. specialize (Hsame Hact). rewrite Hpc in Hsame.
      destruct a; simpl in Hact, Hsame; try done.
      injection Hact as ->. by eapply Hne.
    + intros src st' Hstep.
      destruct (wake_result _ _ _ _ _ Hstep Ht) as (_ & Hth & _).
      set (th' := advance th _ _ _ _ _) in Hth.
      exists th'. split_and!; [|done..].
      rewrite Hth. apply list_lookup_insert_eq. by eapply lookup_lt_Some.
    + intros s Hs.
      assert (H : ∃ st2, step_Wake t FromSignal
                (set_sigchans st (relay s <$> sigchans st)) = Ok st2).
      { apply (wake_signal_enabled t _ th c (relay s sc)); try done.
        - simpl. by rewrite lookup_fmap, Hsc.
        - by eapply relay_fills. }
      destruct H as [st2 H]. by eexists _, st2.
    + intros k order st1 Hk Hstep. simpl in Hstep.
      destruct (decide (range_order order _)) as [Hord|]; [|done].
      destruct (cancelAll_ok st order Hreg Hord)
        as (st2 & Hrun & _ & _ & _ & Hch & _ & Hth & _).
      rewrite Hrun in Hstep. injection Hstep as <-.
      apply (wake_finish_enabled t st2 th f); try done; [by rewrite Hth|].
      rewrite Hch, decide_True; [done|]. by eapply registered_range.
  - intros [Hpc|Hpc]; rewrite Hpc in Hsh.
    + destruct Hsh as (c & key & f & src & done & _ & _ & _ & Htr).
      exists src. rewrite Htr. unfold prologue.
      rewrite !elem_of_app. right. right. left. by left.
    + destruct Hsh as (c & key & f & src & _ & _ & _ & Htr).
      exists src. rewrite Htr. unfold prologue.
      rewrite !elem_of_app. right. right. left. by left.
  - intros Hpc. destruct (t_pc th).
    + destruct Hsh as (_ & _ & _ & ->). apply not_elem_of_nil.
    + destruct Hsh as (c & _ & _ & _ & ->). by intros ?%list_elem_of_singleton.
    + destruct Hsh as (_ & c & key & f & _ & _ & _ & ->). apply return_not_in_loop.
    + destruct Hsh as (c & key & f & _ & _ & _ & ->). apply return_not_in_loop.
    + destruct Hsh as (c & key & f & src & done & _ & _ & _ & ->).
      apply return_not_in_log.
    + done.
  - intros Hpc. rewrite Hpc in Hsh.
    destruct Hsh as (c & key & f & src & _ & _ & _ & Htr). split.
    + eexists. split; [by rewrite Htr, !app_assoc|].
      rewrite <- !app_assoc. apply return_not_in_log.
    + intros a st' Hstep.
      destruct (step_frame _ _ _ _ _ Hreg Hstep Ht) as [Hother Hsame].
      apply Hother. intros Hact. specialize (Hsame Hact). rewrite Hpc in Hsame.
      by destruct a.
Qed.

Lemma select_blocks_until_woken_witness :
  ∃ st1 st2, step (Deliver SIGINT) Demo.waiting = Ok st1 ∧
             step (Wake 0 FromSignal) st1 = Ok st2.
Proof.
  destruct (select_blocks_until_woken Demo.waiting 0 Demo.first) as (H & _).
  - exists [], Demo.setup. vm_compute. reflexivity.
  - vm_compute. reflexivity.
  - destruct H as (c & f & sc & _ & _ & _ & _ & _ & _ & _ & _ & Hsig & _);
      [vm_compute; reflexivity|].
    apply (Hsig SIGINT). vm_compute. reflexivity.
Defined.




(** C6. [AwaitKillSignal] is [AwaitKillSignals] with the signals SIGINT (2)
    and SIGTERM (15) and the same runners; [KillSignal] passes its runner to
    [AwaitKillSignal] and [Signals] passes its runner and signals to
    [AwaitKillSignals]; each is the call the specification describes, does
    in every state what that call does, and is followed by the same
    behaviour. *)
Theorem wrappers_pass_through {W : Type} (runners : list (RunnerFunc W))
    (runner : RunnerFunc W) (sigs : list nat) (st : State W)
    (acts : list (Action W)) :
  (AwaitKillSignal runners = spec_await_kill_signal runners ∧
   KillSignal runner = spec_kill_signal runner ∧
   Signals runner sigs = spec_signals runner sigs) ∧
  (KillSignal runner = AwaitKillSignal [runner] ∧
   Signals runner sigs = AwaitKillSignals sigs [runner]) ∧
  (step (AwaitKillSignal runners) st =
     Ok (set_threads st
           (threads st ++ [mkThread [2; 15] runners None None AtNotify [] []])) ∧
   step (KillSignal runner) st =
     Ok (set_threads st
           (threads st ++ [mkThread [2; 15] [runner] None None AtNotify [] []])) ∧
   step (Signals runner sigs) st =
     Ok (set_threads st
           (threads st ++ [mkThread sigs [runner] None None AtNotify [] []]))) ∧
  (run (AwaitKillSignal runners :: acts) st =
     run (AwaitKillSignals [SIGINT; SIGTERM] runners :: acts) st ∧
   run (KillSignal runner :: acts) st =
     run (AwaitKillSignals [SIGINT; SIGTERM] [runner] :: acts) st ∧
   run (Signals runner sigs :: acts) st =
     run (AwaitKillSignals sigs [runner] :: acts) st).
Proof.
  unfold KillSignal, Signals, AwaitKillSignal, spec_await_kill_signal,
    spec_kill_signal, spec_signals, default_signal_set, SIGINT, SIGTERM.
  split_and!; reflexivity.
Qed.

(** C7. Whatever the interleaving: in the loop at index [i] the invocation
    has invoked the runners 0 .. i-1, in that order, and holds their
    shutdown functions, last on top; the loop cannot be held up, it invokes
    the remaining runners one after the other in the order given and reaches
    the select; at the select every runner has been invoked, and so it is in
    every log that shows a wake-up. *)
Theorem runners_invoked_in_order_before_wait {W : Type}
    (st : State W) (t : nat) (th : Thread W) :
  reachable st → threads st !! t = Some th →
  let n := length (t_runners th) in
  defers_from_runners th ∧
  (∀ i, t_pc th = AtLoop i →
     i ≤ n ∧ (t_defers th).*1 = reverse (seq 0 i) ∧
     (∃ c key f, t_trace th = prologue c key f ++ started i) ∧
     ∃ st' th', run (replicate (S (n - i)) (RunNext t)) st = Ok st' ∧
       threads st' !! t = Some th' ∧ t_pc th' = AtSelect ∧
       t_trace th' = t_trace th ++ (EvRunner <$> seq i (n - i)) ∧
       t_defers th' =
         (start_all (drop i (t_runners th)) i (t_defers th) (world st)).1 ∧
       (t_defers th').*1 = reverse (seq 0 n) ∧
       world st' =
         (start_all (drop i (t_runners th)) i (t_defers th) (world st)).2) ∧
  (t_pc th = AtSelect →
     (t_defers th).*1 = reverse (seq 0 n) ∧
     ∃ c key f, t_trace th = prologue c key f ++ started n) ∧
  (∀ src, EvWake src ∈ t_trace th →
     ∃ c key f rest,
       t_trace th = prologue c key f ++ started n ++ EvWake src :: rest).
Proof.
  intros Hreach Ht n.
  destruct (thread_lookup_ok _ _ _ (reachable_ok _ Hreach) Ht) as (Hsh & Hdf & _).
  unfold thread_shape in Hsh. fold n in Hsh.
  split_and!; [done|..].
  - intros i Hpc. rewrite Hpc in Hsh.
    destruct Hsh as (Hle & c & key & f & Hc & Hf & Hd & Htr).
    split_and!; [done|done|by exists c, key, f|].
    destruct (run_loop t (drop i (t_runners th)) st th i Ht Hpc eq_refl)
      as (st' & Hrun & Hth & Hw & _).
    rewrite length_drop in Hrun, Hth.
    set (th' := advance th _ _ _ _ _) in Hth.
    exists st', th'. split_and!.
    + exact Hrun.
    + rewrite Hth. apply list_lookup_insert_eq. by eapply lookup_lt_Some.
    + done.
    + done.
    + done.
    + subst th'. cbn [t_defers advance].
      rewrite start_all_indices, Hd, length_drop.
      rewrite <- reverse_app, <- seq_app. do 2 f_equal. subst n. lia.
    + exact Hw.
  - intros Hpc. rewrite Hpc in Hsh.
    destruct Hsh as (c & key & f & Hc & Hf & Hd & Htr). split; [done|].
    by exists c, key, f.
  - intros src Hin. destruct (t_pc th).
    + destruct Hsh as (_ & _ & _ & Htr). rewrite Htr in Hin.
      by apply elem_of_nil in Hin.
    + destruct Hsh as (c & _ & _ & _ & Htr). rewrite Htr in Hin.
      by apply list_elem_of_singleton in Hin.
    + destruct Hsh as (_ & c & key & f & _ & _ & _ & Htr). rewrite Htr in Hin.
      by apply wake_not_in_loop in Hin.
    + destruct Hsh as (c & key & f & _ & _ & _ & Htr). rewrite Htr in Hin.
      by apply wake_not_in_loop in Hin.
    + destruct Hsh as (c & key & f & src' & done & _ & _ & _ & Htr).
      exists c, key, f, (EvShutdown <$> done).
      rewrite Htr in Hin |- *. assert (src = src') as ->; [|done].
      apply (wake_in_log _ _ c key f n done []); [intros s; apply not_elem_of_nil|].
      by rewrite app_nil_r.
    + destruct Hsh as (c & key & f & src' & _ & _ & _ & Htr).
      exists c, key, f, ((EvShutdown <$> reverse (seq 0 n)) ++ [EvReturn]).
      rewrite Htr in Hin |- *. assert (src = src') as ->; [|done].
      apply (wake_in_log _ _ c key f n (reverse (seq 0 n)) [EvReturn]); [|done].
      intros s Hs. by apply list_elem_of_singleton in Hs.
Qed.

Lemma runners_invoked_in_order_before_wait_witness :
  ∃ st' th', run (replicate 3 (RunNext 0)) Demo.looping = Ok st' ∧
    threads st' !! 0 = Some th' ∧ t_pc th' = AtSelect ∧
    (t_defers th').*1 = [2; 1; 0].
Proof.
  destruct (runners_invoked_in_order_before_wait Demo.looping 0 Demo.in_loop)
    as (_ & H & _).
  - exists [], Demo.setup_looping. vm_compute. reflexivity.
  - vm_compute. reflexivity.
  - destruct (H 1) as (_ & _ & _ & st' & th' & Hrun & Hth & Hpc & _ & _ & Hds & _);
      [vm_compute; reflexivity|].
    exists st', th'. split_and!; [exact Hrun | exact Hth | exact Hpc | exact Hds].
Defined.

(** C8. When an invocation leaves its select by the case of the signal
    channel, the canceller and the heap of [chan struct{}] are as they were:
    its entry is not removed.  Nor is it while the invocation runs its
    deferred calls and returns.  An entry stays in the map under every
    statement other than [CancelAll] and a registration under the same key;
    the next [CancelAll] empties the map and closes the abandoned channel. *)
Theorem signal_wake_leaves_entry {W : Type}
    (st : State W) (t : nat) (th : Thread W) (st1 : State W) :
  reachable st → threads st !! t = Some th →
  step (Wake t FromSignal) st = Ok st1 →
  (globalCanceller st1 = globalCanceller st ∧ chans st1 = chans st ∧
   closes st1 = closes st) ∧
  (∃ st2 th2,
     run (replicate (S (length (t_runners th))) (RunDefer t)) st1 = Ok st2 ∧
     threads st2 !! t = Some th2 ∧ t_pc th2 = Returned ∧
     globalCanceller st2 = globalCanceller st ∧ chans st2 = chans st ∧
     closes st2 = closes st) ∧
  (∀ (a : Action W) (sta stb : State W) k c,
     step a sta = Ok stb →
     (∀ order, a ≠ CancelAll order) → (∀ t', a ≠ Register t' k) →
     signals (globalCanceller sta) !! k = Some c →
     signals (globalCanceller stb) !! k = Some c) ∧
  (∀ order st2, step (CancelAll order) st1 = Ok st2 →
     signals (globalCanceller st2) = ∅ ∧
     ∀ k c, signals (globalCanceller st) !! k = Some c →
            chans st2 !! c = Some true).
Proof.
  intros Hreach Ht Hstep.
  destruct (thread_lookup_ok _ _ _ (reachable_ok _ Hreach) Ht) as (Hsh & _).
  destruct (wake_result _ _ _ _ _ Hstep Ht) as (Hpc & Hth1 & Hw1 & Hc1 & Hch1 & Hcl1).
  unfold thread_shape in Hsh. rewrite Hpc in Hsh.
  destruct Hsh as (c & key & f & Hc & Hf & Hd & Htr).
  split_and!; try done.
  - set (th1 := advance th _ _ _ _ _) in Hth1.
    assert (Ht1 : threads st1 !! t = Some th1).
    { rewrite Hth1. apply list_lookup_insert_eq. by eapply lookup_lt_Some. }
    destruct (run_defers t (t_defers th) st1 th1 Ht1)
      as (st2 & Hrun & Hth2 & _ & Hc2 & Hch2 & _ & Hcl2); [done..|].
    rewrite (defers_length _ _ Hd) in Hrun.
    eexists st2, _. split_and!; [done| | |congruence..].
    + rewrite Hth2. apply list_lookup_insert_eq. by eapply lookup_lt_Some.
    + done.
  - intros a sta stb k c' Hs Hnc Hnr Hk.
    destruct a as [sigs rs|t0|t0 uuid|t0|t0 src|t0|s|order].
    3: { simpl in Hs. apply step_Register_inv in Hs as (th0 & _ & _ & _ & ->).
         simpl. rewrite lookup_insert_ne; [done|]. intros ->. by eapply Hnr. }
    7: by destruct (Hnc order).
    all: by destruct (step_registry_frame _ _ _ Hs) as (-> & _).
  - intros order st2 Hcancel. simpl in Hcancel.
    destruct (decide (range_order order _)) as [Hord|]; [|done].
    assert (Hreg1 : registry_inv st1).
    { eapply reachable_ok, reachable_step; [exact Hreach|exact Hstep]. }
    destruct (cancelAll_ok st1 order Hreg1 Hord)
      as (st2' & Hrun & _ & Hsig & _ & Hch & _).
    rewrite Hrun in Hcancel. injection Hcancel as <-.
    split; [done|]. intros k c' Hk. rewrite Hch, decide_True; [done|].
    eapply registered_range; [done|]. by rewrite Hc1.
Qed.

Lemma signal_wake_leaves_entry_witness :
  globalCanceller Demo.woken = globalCanceller Demo.signalled ∧
  chans Demo.woken = chans Demo.signalled ∧
  closes Demo.woken = closes Demo.signalled.
Proof.
  destruct (signal_wake_leaves_entry Demo.signalled 0 Demo.first_signalled
              Demo.woken) as (H & _).
  - exists [], Demo.setup_signalled. vm_compute. reflexivity.
  - vm_compute. reflexivity.
  - vm_compute. reflexivity.
  - exact H.
Defined.




(** C10. An invocation that was given no signals is subscribed to every
    signal: at its select, whatever signal the operating system delivers, the
    case of the signal channel can be taken next, and the invocation goes on
    to its deferred calls. *)
Theorem empty_signal_set_relays_every_signal {W : Type}
    (st : State W) (t : nat) (th : Thread W) :
  reachable st → threads st !! t = Some th →
  t_signals th = [] → t_pc th = AtSelect →
  (∃ c sc, t_c th = Some c ∧ sigchans st !! c = Some sc ∧
           watched sc = Some [] ∧ ∀ s, wants [] s = true) ∧
  ∀ s, ∃ st1 st2 th2,
    step (Deliver s) st = Ok st1 ∧
    step (Wake t FromSignal) st1 = Ok st2 ∧
    threads st2 !! t = Some th2 ∧ t_pc th2 = AtReturn ∧
    t_trace th2 = t_trace th ++ [EvWake FromSignal].
Proof.
  intros Hreach Ht Hsigs Hpc.
  pose proof (reachable_ok _ Hreach) as Hinv.
  destruct (thread_lookup_ok _ _ _ Hinv Ht) as (Hsh & _ & Hhc & Hhf).
  unfold thread_shape in Hsh. rewrite Hpc in Hsh.
  destruct Hsh as (c & key & f & Hc & Hf & Hd & Htr).
  destruct (Hhc c Hc) as (sc & Hsc & Hw).
  rewrite Hsigs in Hw. split; [by exists c, sc|].
  intros s. set (st1 := set_sigchans st (relay s <$> sigchans st)).
  assert (Ht1 : threads st1 !! t = Some th) by done.
  destruct (proj2 (wake_signal_enabled t st1 th c (relay s sc) Ht1 Hpc Hc
              ltac:(by simpl; rewrite lookup_fmap, Hsc))) as [st2 Hwake].
  { by eapply relay_fills. }
  destruct (wake_result _ _ _ _ _ Hwake Ht1) as (_ & Hth & _).
  set (th2 := advance th _ _ _ _ _) in Hth.
  exists st1, st2, th2. split_and!; [done|done| |done|done].
  rewrite Hth. apply list_lookup_insert_eq. by eapply lookup_lt_Some.
Qed.

Lemma empty_signal_set_relays_every_signal_witness :
  ∃ st1 st2 th2,
    step (Deliver 10) Demo.waiting = Ok st1 ∧
    step (Wake 1 FromSignal) st1 = Ok st2 ∧
    threads st2 !! 1 = Some th2 ∧ t_pc th2 = AtReturn ∧
    t_trace th2 = t_trace Demo.second ++ [EvWake FromSignal].
Proof.
  destruct (empty_signal_set_relays_every_signal Demo.waiting 1 Demo.second)
    as (_ & H).
  - exists [], Demo.setup. vm_compute. reflexivity.
  - vm_compute. reflexivity.
  - vm_compute. reflexivity.
  - vm_compute. reflexivity.
  - exact (H 10).
Defined.

(** * Further properties of the code *)

Section MoreLemmas.
Context {W : Type}.
Implicit Types st : State W.
Implicit Types th : Thread W.

(** An invariant of the steps a schedule is made of holds along it. *)
Lemma run_preserves (P : State W → Prop) (allowed : Action W → Prop) :
  (∀ a st st', allowed a → P st → step a st = Ok st' → P st') →
  ∀ acts st st', Forall allowed acts → P st → run acts st = Ok st' → P st'.
Proof.
  intros Hstep. induction acts as [|a acts IH]; intros st st' Hall HP Hrun.
  - by injection Hrun as <-.
  - apply Forall_cons in Hall as [Ha Hall].
    apply run_cons in Hrun as (st1 & Hs & Hrun). eauto.
Qed.

(** The loop of [cancelAll] touches only the canceller, the heap of
    [chan struct{}] and the log of closes. *)
Lemma cancelAll_range_frame (order : list string) : ∀ st st',
  cancelAll_range order st = Ok st' →
  threads st' = threads st ∧ world st' = world st ∧ sigchans st' = sigchans st.
Proof.
  induction order as [|key rest IH]; intros st st' Hrun.
  - by injection Hrun as <-.
  - cbn [cancelAll_range] in Hrun.
    destruct (signals (globalCanceller st) !! key) as [c|]; [|done].
    unfold close in Hrun. destruct (chans st !! c) as [[|]|]; try done.
    by apply IH in Hrun as (-> & -> & ->).
Qed.

Lemma cancelAll_frame order st st' :
  cancelAll order st = Ok st' →
  threads st' = threads st ∧ world st' = world st ∧ sigchans st' = sigchans st.
Proof.
  unfold cancelAll, Lock, Unlock. destruct (mux (globalCanceller st)); [done|].
  cbn [bind]. destruct (cancelAll_range order _) as [st2| |] eqn:Hrange; try done.
  cbn [bind]. destruct (mux (globalCanceller st2)); [|done].
  intros [= <-]. apply cancelAll_range_frame in Hrange as (H1 & H2 & H3).
  simpl in *. by rewrite H1, H2, H3.
Qed.

(** No statement opens a channel again, and none but [CancelAll] closes
    one. *)
Lemma step_closed (a : Action W) st st' f :
  step a st = Ok st' →
  (registry_inv st → chans st !! f = Some true → chans st' !! f = Some true) ∧
  (is_CancelAll a = false →
   closes st' = closes st ∧
   (chans st' !! f = Some true → chans st !! f = Some true)).
Proof.
  intros Hstep.
  destruct a as [sigs rs|t0|t0 uuid|t0|t0 src|t0|s|order].
  3: { simpl in Hstep. apply step_Register_inv in Hstep as (th0 & _ & _ & _ & ->).
       pose proof (fresh_lookup_None (chans st)) as Hfresh. simpl. split.
       - intros _ Hf. rewrite lookup_insert_ne; [done|]. intros <-. congruence.
       - intros _. split; [done|].
         intros [[_ ?]|[_ ?]]%lookup_insert_Some; done. }
  7: { split; [|done]. intros Hinv Hf. simpl in Hstep.
       destruct (decide (range_order order _)) as [Hord|]; [|done].
       destruct (cancelAll_ok st order Hinv Hord) as (st2 & Hrun & _ & _ & _ & Hch & _).
       rewrite Hrun in Hstep. injection Hstep as <-. rewrite Hch. by case_decide. }
  all: destruct (step_registry_frame _ _ _ Hstep) as (_ & -> & ->); done.
Qed.

(** A channel that is open and that no entry holds stays so: only the
    channels of the map are ever closed, and only channels just made are
    ever stored. *)
Lemma step_orphan (a : Action W) st st' f :
  registry_inv st → step a st = Ok st' →
  chans st !! f = Some false → ¬ held f st →
  chans st' !! f = Some false ∧ ¬ held f st'.
Proof.
  intros Hinv Hstep Hf Hheld.
  destruct a as [sigs rs|t0|t0 uuid|t0|t0 src|t0|s|order].
  3: { simpl in Hstep. apply step_Register_inv in Hstep as (th0 & _ & _ & _ & ->).
       pose proof (fresh_lookup_None (chans st)) as Hfresh.
       assert (f ≠ fresh (dom (chans st))) by (intros ->; congruence).
       split; simpl.
       - by rewrite lookup_insert_ne.
       - intros [k Hk]. simpl in Hk.
         apply lookup_insert_Some in Hk as [[_ ?]|[_ Hk]]; [done|].
         apply Hheld. by exists k. }
  7: { simpl in Hstep. destruct (decide (range_order order _)) as [Hord|]; [|done].
       destruct (cancelAll_ok st order Hinv Hord)
         as (st2 & Hrun & _ & Hsig & _ & Hch & _).
       rewrite Hrun in Hstep. injection Hstep as <-. split.
       - rewrite Hch, decide_False; [done|].
         intros (k & _ & Hk)%registered_elem. apply Hheld. by exists k.
       - intros [k Hk]. by rewrite Hsig, lookup_empty in Hk. }
  all: destruct (step_registry_frame _ _ _ Hstep) as (Hc & Hch & _); [done..|];
       unfold held; by rewrite Hc, Hch.
Qed.

(** What a statement keeps of the record of an invocation: its arguments,
    and its local variables once they are set. *)
Lemma step_thread_persist (a : Action W) st st' t th :
  state_inv st → step a st = Ok st' → threads st !! t = Some th →
  ∃ th', threads st' !! t = Some th' ∧
    t_signals th' = t_signals th ∧ t_runners th' = t_runners th ∧
    (∀ c, t_c th = Some c → t_c th' = Some c) ∧
    (∀ f, t_finish th = Some f → t_finish th' = Some f) ∧
    (is_wake t a = false → t_pc th = AtSelect → th' = th).
Proof.
  intros Hinv Hstep Ht.
  destruct (thread_lookup_ok _ _ _ Hinv Ht) as (Hsh & _).
  destruct Hinv as [Hreg _].
  destruct (step_frame _ _ _ _ _ Hreg Hstep Ht) as [Hother Hsame].
  assert (Hlen : t < length (threads st)) by (by eapply lookup_lt_Some).
  unfold thread_shape in Hsh.
  destruct a as [sigs rs|t0|t0 uuid|t0|t0 src|t0|s|order];
    try (exists th; split_and!; [by apply Hother|done..]);
    (destruct (decide (t0 = t)) as [->|Hne];
     [|exists th; split_and!; [apply Hother; simpl; congruence|done..]]);
    simpl in Hstep.
  - apply step_Notify_inv in Hstep as (th0 & Ht0 & Hpc & ->). simplify_eq.
    rewrite Hpc in Hsh. destruct Hsh as (Hc & Hf & _).
    eexists. split; [simpl; by apply list_lookup_insert_eq|].
    split_and!; try done; simpl; congruence.
  - apply step_Register_inv in Hstep as (th0 & Ht0 & Hpc & _ & ->). simplify_eq.
    rewrite Hpc in Hsh. destruct Hsh as (c & Hc & Hf & _).
    eexists. split; [simpl; by apply list_lookup_insert_eq|].
    split_and!; try done; simpl; congruence.
  - apply step_RunNext_inv in Hstep
      as (th0 & i & Ht0 & Hpc & [(r & _ & ->)|[_ ->]]); simplify_eq;
      (eexists; split; [simpl; by apply list_lookup_insert_eq|]);
      split_and!; try done; simpl; congruence.
  - apply step_Wake_inv in Hstep as (th0 & Ht0 & Hpc & Hcase). simplify_eq.
    destruct src.
    + destruct Hcase as (c & sc & s & rest & _ & _ & _ & ->).
      eexists. split; [simpl; by apply list_lookup_insert_eq|].
      split_and!; try done. simpl. rewrite bool_decide_true; done.
    + destruct Hcase as (f & _ & _ & ->).
      eexists. split; [simpl; by apply list_lookup_insert_eq|].
      split_and!; try done. simpl. rewrite bool_decide_true; done.
  - apply step_RunDefer_inv in Hstep
      as (th0 & Ht0 & Hpc & [(i & sd & rest & _ & ->)|[_ ->]]); simplify_eq;
      (eexists; split; [simpl; by apply list_lookup_insert_eq|]);
      split_and!; try done; simpl; congruence.
Qed.

(** An invocation that has its [finish] channel has logged the registration
    of that channel. *)
Lemma finish_logged th f :
  thread_shape th → t_finish th = Some f → ∃ k, EvRegister k f ∈ t_trace th.
Proof.
  unfold thread_shape. intros Hsh Hf. destruct (t_pc th).
  - destruct Hsh as (_ & ? & _). congruence.
  - destruct Hsh as (c & _ & ? & _). congruence.
  - destruct Hsh as (_ & c & key & f' & _ & ? & _ & ->). simplify_eq.
    exists key. unfold prologue. apply elem_of_app. left. right. by left.
  - destruct Hsh as (c & key & f' & _ & ? & _ & ->). simplify_eq.
    exists key. unfold prologue. apply elem_of_app. left. right. by left.
  - destruct Hsh as (c & key & f' & src & done & _ & ? & _ & ->). simplify_eq.
    exists key. unfold prologue. apply elem_of_app. left. right. by left.
  - destruct Hsh as (c & key & f' & src & _ & ? & _ & ->). simplify_eq.
    exists key. unfold prologue. apply elem_of_app. left. right. by left.
Qed.

(** On an empty map [cancelAll] changes nothing, and the only order of the
    [range] is the empty one. *)
Lemma cancelAll_empty st order :
  registry_inv st → signals (globalCanceller st) = ∅ →
  range_order order (signals (globalCanceller st)) →
  order = [] ∧ cancelAll order st = Ok st.
Proof.
  intros [Hmux _] Hempty [_ Hdom]. rewrite Hempty, dom_empty_L in Hdom.
  assert (order = []) as ->.
  { destruct order as [|k rest]; [done|]. exfalso.
    assert (Hk : k ∈ (∅ : gset string)).
    { rewrite <- Hdom. apply elem_of_list_to_set. by left. }
    by apply not_elem_of_empty in Hk. }
  split; [done|]. unfold cancelAll, Lock. rewrite Hmux. simpl.
  destruct st as [[sg mx] ? ? ? ? ?]. simpl in *. by subst.
Qed.

(** What a statement does to the heap of signal channels: nothing, or it
    allocates one ([signal.Notify]), or it takes the signal out of the one of
    the invocation that receives, or it relays a signal to all of them. *)
Lemma step_sigchans (a : Action W) st st' :
  step a st = Ok st' →
  sigchans st' = sigchans st ∨
  (∃ t th, a = Notify t ∧ threads st !! t = Some th ∧
     sigchans st' =
       <[fresh (dom (sigchans st)) := mkSigChan (Some (t_signals th)) []]>
         (sigchans st)) ∨
  (∃ t th c sc s rest, a = Wake t FromSignal ∧ threads st !! t = Some th ∧
     t_c th = Some c ∧ sigchans st !! c = Some sc ∧ buf sc = s :: rest ∧
     sigchans st' = <[c := mkSigChan (watched sc) rest]> (sigchans st)) ∨
  (∃ s, a = Deliver s ∧ sigchans st' = relay s <$> sigchans st).
Proof.
  intros Hstep.
  destruct a as [sigs rs|t0|t0 uuid|t0|t0 src|t0|s|order]; simpl in Hstep.
  - injection Hstep as <-. by left.
  - apply step_Notify_inv in Hstep as (th0 & Ht0 & _ & ->).
    right. left. by exists t0, th0.
  - apply step_Register_inv in Hstep as (th0 & _ & _ & _ & ->). by left.
  - apply step_RunNext_inv in Hstep
      as (th0 & i & _ & _ & [(r & _ & ->)|[_ ->]]); by left.
  - apply step_Wake_inv in Hstep as (th0 & Ht0 & _ & Hcase). destruct src.
    + destruct Hcase as (c & sc & s & rest & Hc & Hsc & Hb & ->).
      right. right. left. by exists t0, th0, c, sc, s, rest.
    + destruct Hcase as (f & _ & _ & ->). by left.
  - apply step_RunDefer_inv in Hstep
      as (th0 & _ & _ & [(i & sd & rest & _ & ->)|[_ ->]]); by left.
  - injection Hstep as <-. right. right. right. by exists s.
  - destruct (decide (range_order order _)); [|done].
    apply cancelAll_frame in Hstep as (_ & _ & ->). by left.
Qed.

(** A signal the channel is not subscribed to, and any signal when the
    buffer is full, is dropped. *)
Lemma relay_unwanted s sc sigs :
  watched sc = Some sigs → wants sigs s = false → relay s sc = sc.
Proof. intros Hw Hs. unfold relay. by rewrite Hw, Hs. Qed.

Lemma relay_full s sc : buf sc ≠ [] → relay s sc = sc.
Proof.
  intros Hb. unfold relay. destruct (watched sc); [|done].
  rewrite bool_decide_false; [by rewrite andb_false_r|].
  destruct (buf sc); [done|]. simpl. lia.
Qed.

Lemma relay_bounded s sc : length (buf sc) ≤ 1 → length (buf (relay s sc)) ≤ 1.
Proof.
  intros Hlen. unfold relay. destruct (watched sc); [|done].
  destruct (wants l s); [|done]. cbn [andb]. case_bool_decide; [|done].
  cbn [buf]. rewrite length_app. simpl. lia.
Qed.

Lemma step_bufs (a : Action W) st st' :
  bufs_bounded st → step a st = Ok st' → bufs_bounded st'.
Proof.
  intros Hb Hstep c sc Hsc.
  destruct (step_sigchans a st st' Hstep)
    as [Heq|[(t & th & _ & _ & Heq)|
             [(t & th & c0 & sc0 & s & rest & _ & _ & _ & Hsc0 & Hbuf & Heq)|
              (s & _ & Heq)]]]; rewrite Heq in Hsc.
  - by eapply Hb.
  - apply lookup_insert_Some in Hsc as [[_ <-]|[_ Hsc]]; [simpl; lia|].
    by eapply Hb.
  - apply lookup_insert_Some in Hsc as [[_ <-]|[_ Hsc]]; [|by eapply Hb].
    apply Hb in Hsc0. rewrite Hbuf in Hsc0. simpl in *. lia.
  - rewrite lookup_fmap in Hsc. destruct (sigchans st !! c) as [sc0|] eqn:Hsc0; [|done].
    injection Hsc as <-. apply relay_bounded. by eapply Hb.
Qed.

(** The local variable [c] of an invocation is set by its own
    [signal.Notify] statement, to a channel just made, and by nothing
    else. *)
Lemma step_c (a : Action W) st st' t th' c :
  state_inv st → step a st = Ok st' →
  threads st' !! t = Some th' → t_c th' = Some c →
  (∃ th, threads st !! t = Some th ∧ t_c th = Some c) ∨
  (c = fresh (dom (sigchans st)) ∧ a = Notify t).
Proof.
  intros Hinv Hstep Ht Hc.
  destruct a as [sigs rs|t0|t0 uuid|t0|t0 src|t0|s|order]; simpl in Hstep.
  - injection Hstep as <-. simpl in Ht.
    apply lookup_app_Some in Ht as [Ht|[_ Ht]]; [eauto|].
    apply list_elem_of_lookup_2, list_elem_of_singleton in Ht. by subst th'.
  - apply step_Notify_inv in Hstep as (th0 & Ht0 & _ & ->). simpl in Ht.
    apply list_lookup_insert_Some in Ht as [(-> & <- & _)|[_ Ht]]; [|eauto].
    right. simpl in Hc. injection Hc as <-. eauto.
  - apply step_Register_inv in Hstep as (th0 & Ht0 & _ & _ & ->). simpl in Ht.
    apply list_lookup_insert_Some in Ht as [(-> & <- & _)|[_ Ht]]; eauto.
  - apply step_RunNext_inv in Hstep
      as (th0 & i & Ht0 & _ & [(r & _ & ->)|[_ ->]]); simpl in Ht;
      apply list_lookup_insert_Some in Ht as [(-> & <- & _)|[_ Ht]]; eauto.
  - apply step_Wake_inv in Hstep as (th0 & Ht0 & _ & Hcase). destruct src.
    + destruct Hcase as (c0 & sc & s & rest & _ & _ & _ & ->). simpl in Ht.
      apply list_lookup_insert_Some in Ht as [(-> & <- & _)|[_ Ht]]; eauto.
    + destruct Hcase as (f & _ & _ & ->). simpl in Ht.
      apply list_lookup_insert_Some in Ht as [(-> & <- & _)|[_ Ht]]; eauto.
  - apply step_RunDefer_inv in Hstep
      as (th0 & Ht0 & _ & [(i & sd & rest & _ & ->)|[_ ->]]); simpl in Ht;
      apply list_lookup_insert_Some in Ht as [(-> & <- & _)|[_ Ht]]; eauto.
  - injection Hstep as <-. eauto.
  - destruct (decide (range_order order _)); [|done].
    apply cancelAll_frame in Hstep as (Hth & _). rewrite Hth in Ht. eauto.
Qed.

(** No statement frees a signal channel. *)
Lemma step_sigchans_grow (a : Action W) st st' c :
  step a st = Ok st' → is_Some (sigchans st !! c) → is_Some (sigchans st' !! c).
Proof.
  intros Hstep [sc Hsc].
  destruct (step_sigchans a st st' Hstep)
    as [Heq|[(t & th & _ & _ & Heq)|
             [(t & th & c0 & sc0 & s & rest & _ & _ & _ & Hsc0 & Hbuf & Heq)|
              (s & _ & Heq)]]]; rewrite Heq.
  - eauto.
  - destruct (decide (c = fresh (dom (sigchans st)))) as [->|Hne].
    + by rewrite lookup_insert_eq.
    + rewrite lookup_insert_ne by done. eauto.
  - destruct (decide (c = c0)) as [->|Hne].
    + by rewrite lookup_insert_eq.
    + rewrite lookup_insert_ne by done. eauto.
  - rewrite lookup_fmap, Hsc. eauto.
Qed.

Lemma step_sig_owned (a : Action W) st st' :
  state_inv st → sig_owned st → step a st = Ok st' → sig_owned st'.
Proof.
  intros Hinv [Halloc Hdist] Hstep. split.
  - intros t th' c Ht Hc.
    destruct (step_c a st st' t th' c Hinv Hstep Ht Hc)
      as [(th & Ht0 & Hc0)|[-> ->]].
    + eapply step_sigchans_grow; [done|]. by eapply Halloc.
    + simpl in Hstep. apply step_Notify_inv in Hstep as (th0 & _ & _ & ->).
      simpl. by rewrite lookup_insert_eq.
  - intros t1 t2 th1 th2 c Ht1 Ht2 Hc1 Hc2.
    pose proof (fresh_lookup_None (sigchans st)) as Hfresh.
    destruct (step_c a st st' t1 th1 c Hinv Hstep Ht1 Hc1)
      as [(th & Ht0 & Hc0)|[-> ->]];
      destruct (step_c _ st st' t2 th2 _ Hinv Hstep Ht2 Hc2)
        as [(th' & Ht0' & Hc0')|[Heq Ha]].
    + by eapply Hdist.
    + subst c. destruct (Halloc _ _ _ Ht0 Hc0) as [? ?]. congruence.
    + destruct (Halloc _ _ _ Ht0' Hc0') as [? ?]. congruence.
    + by injection Ha.
Qed.

Lemma reachable_sig_owned st : reachable st → sig_owned st.
Proof.
  intros (w & acts & Hrun).
  assert (HP : state_inv st ∧ sig_owned st); [|by destruct HP].
  apply (run_preserves (λ s, state_inv s ∧ sig_owned s) (λ _, True))
    with (acts := acts) (st := init w).
  - intros a s s' _ [Hinv Hown] Hstep.
    split; [by eapply step_ok | by eapply step_sig_owned].
  - by apply Forall_true.
  - split; [apply init_ok|]. split.
    + intros t th c Ht. simpl in Ht. by rewrite lookup_nil in Ht.
    + intros t1 t2 th1 th2 c Ht. simpl in Ht. by rewrite lookup_nil in Ht.
  - done.
Qed.

Lemma reachable_bufs st : reachable st → bufs_bounded st.
Proof.
  intros (w & acts & Hrun).
  apply (run_preserves bufs_bounded (λ _, True)) with (acts := acts) (st := init w).
  - intros a s s' _ Hb Hstep. by eapply step_bufs.
  - by apply Forall_true.
  - intros c sc Hsc. simpl in Hsc. by rewrite lookup_empty in Hsc.
  - done.
Qed.

(** A signal waiting in the channel of an invocation stays there under
    every statement but the receive of that invocation. *)
Lemma step_pending (a : Action W) st st' t th c sc :
  sig_owned st → step a st = Ok st' →
  threads st !! t = Some th → t_c th = Some c →
  sigchans st !! c = Some sc → buf sc ≠ [] → is_receive t a = false →
  sigchans st' !! c = Some sc.
Proof.
  intros [_ Hdist] Hstep Ht Hc Hsc Hb Hrecv.
  destruct (step_sigchans a st st' Hstep)
    as [Heq|[(t0 & th0 & _ & _ & Heq)|
             [(t0 & th0 & c0 & sc0 & s & rest & -> & Ht0 & Hc0 & _ & _ & Heq)|
              (s & _ & Heq)]]]; rewrite Heq.
  - done.
  - rewrite lookup_insert_ne; [done|]. intros <-.
    by rewrite fresh_lookup_None in Hsc.
  - rewrite lookup_insert_ne; [done|]. intros ->.
    simpl in Hrecv. apply bool_decide_eq_false in Hrecv. apply Hrecv.
    by eapply Hdist.
  - rewrite lookup_fmap, Hsc. simpl. by rewrite (relay_full s sc Hb).
Qed.

(** One invocation alone, from its call to its select: [signal.Notify]
    succeeds, the channel is registered under [uuid], the runners are
    invoked in order. *)
Lemma startup_run st sigs (rs : list (RunnerFunc W)) uuid :
  registry_inv st →
  ∃ st3,
    run (startup sigs rs (length (threads st)) uuid) st = Ok st3 ∧
    threads st3 =
      threads st ++
      [mkThread sigs rs (Some (fresh (dom (sigchans st))))
         (Some (fresh (dom (chans st)))) AtSelect
         (start_all rs 0 [] (world st)).1
         (prologue (fresh (dom (sigchans st))) uuid (fresh (dom (chans st))) ++
          started (length rs))] ∧
    world st3 = (start_all rs 0 [] (world st)).2 ∧
    globalCanceller st3 =
      mkCanceller (<[uuid := fresh (dom (chans st))]>
                     (signals (globalCanceller st))) false ∧
    chans st3 = <[fresh (dom (chans st)) := false]> (chans st) ∧
    sigchans st3 =
      <[fresh (dom (sigchans st)) := mkSigChan (Some sigs) []]> (sigchans st) ∧
    closes st3 = closes st.
Proof.
  intros [Hmux _].
  set (t := length (threads st)).
  set (c := fresh (dom (sigchans st))). set (f := fresh (dom (chans st))).
  set (th0 := mkThread sigs rs None None AtNotify [] []).
  set (s0 := set_threads st (threads st ++ [th0])).
  assert (Ht0 : threads s0 !! t = Some th0) by (by apply list_lookup_middle).
  set (th1 := advance th0 (Some c) None AtRegister [] [EvNotify c]).
  set (s1 := upd (set_sigchans s0 (<[c := mkSigChan (Some sigs) []]> (sigchans s0)))
               t th1).
  assert (Hs1 : step (Notify t) s0 = Ok s1).
  { simpl. unfold step_Notify. by rewrite Ht0. }
  assert (Ht1 : threads s1 !! t = Some th1) by (by apply (upd_lookup _ _ _ th0)).
  set (th2 := advance th1 (Some c) (Some f) (AtLoop 0) [] [EvRegister uuid f]).
  set (s2 := upd (set_canc (set_chans s1 (<[f := false]> (chans s1)))
                    (mkCanceller (<[uuid := f]> (signals (globalCanceller s1)))
                       false)) t th2).
  assert (Hs2 : step (Register t uuid) s1 = Ok s2).
  { simpl. unfold step_Register. rewrite Ht1. simpl.
    unfold addChannel, Lock. simpl. by rewrite Hmux. }
  assert (Ht2 : threads s2 !! t = Some th2) by (by apply (upd_lookup _ _ _ th1)).
  destruct (run_loop t rs s2 th2 0 Ht2 eq_refl eq_refl)
    as (st3 & Hrun & Hth & Hw & Hc & Hch & Hs & Hcl).
  exists st3. split_and!; try done.
  - unfold startup. cbn [app]. fold t.
    apply run_cons. exists s0. split; [done|].
    apply run_cons. exists s1. split; [done|].
    apply run_cons. exists s2. split; [done|]. exact Hrun.
  - rewrite Hth. subst s2 s1 s0. simpl.
    rewrite !list_insert_insert_eq.
    rewrite insert_app_r_alt by (subst t; lia).
    replace (t - length (threads st)) with 0 by (subst t; lia).
    done.
Qed.

(** One invocation alone, from its select to its return. *)
Lemma winddown_run st t th src st1 :
  threads st !! t = Some th → step (Wake t src) st = Ok st1 →
  (t_defers th).*1 = reverse (seq 0 (length (t_runners th))) →
  ∃ st2,
    run (replicate (S (length (t_runners th))) (RunDefer t)) st1 = Ok st2 ∧
    threads st2 =
      <[t := advance th (t_c th) (t_finish th) Returned []
               ([EvWake src] ++
                (EvShutdown <$> reverse (seq 0 (length (t_runners th)))) ++
                [EvReturn])]> (threads st) ∧
    world st2 = stop_all (t_defers th) (world st) ∧
    globalCanceller st2 = globalCanceller st ∧ chans st2 = chans st ∧
    closes st2 = closes st ∧ sigchans st2 = sigchans st1.
Proof.
  intros Ht Hstep Hd.
  destruct (wake_result _ _ _ _ _ Hstep Ht) as (_ & Hth1 & Hw1 & Hc1 & Hch1 & Hcl1).
  set (th1 := advance th _ _ _ _ _) in Hth1.
  assert (Ht1 : threads st1 !! t = Some th1).
  { rewrite Hth1. apply list_lookup_insert_eq. by eapply lookup_lt_Some. }
  destruct (run_defers t (t_defers th) st1 th1 Ht1)
    as (st2 & Hrun & Hth2 & Hw2 & Hc2 & Hch2 & Hs2 & Hcl2); [done..|].
  rewrite (defers_length _ _ Hd) in Hrun.
  exists st2. split_and!; try congruence.
  rewrite Hth2, Hth1, list_insert_insert_eq. subst th1.
  rewrite advance_advance. cbn [t_c t_finish advance]. by rewrite Hd.
Qed.

(** [CancelAll] while an invocation whose entry is in the map is at its
    select, followed by that invocation returning. *)
Lemma cancel_then_return st t th f key order :
  registry_inv st → threads st !! t = Some th → t_pc th = AtSelect →
  t_finish th = Some f → signals (globalCanceller st) !! key = Some f →
  (t_defers th).*1 = reverse (seq 0 (length (t_runners th))) →
  range_order order (signals (globalCanceller st)) →
  ∃ st4 st6,
    step (CancelAll order) st = Ok st4 ∧
    run (winddown (t_runners th) t FromFinish) st4 = Ok st6 ∧
    threads st6 =
      <[t := advance th (t_c th) (t_finish th) Returned []
               ([EvWake FromFinish] ++
                (EvShutdown <$> reverse (seq 0 (length (t_runners th)))) ++
                [EvReturn])]> (threads st) ∧
    world st6 = stop_all (t_defers th) (world st) ∧
    signals (globalCanceller st6) = ∅.
Proof.
  intros Hreg Ht Hpc Hf Hentry Hd Hord.
  destruct (cancelAll_ok st order Hreg Hord)
    as (st4 & Hrun4 & _ & Hsig4 & _ & Hch4 & _ & Hth4 & Hw4).
  assert (Ht4 : threads st4 !! t = Some th) by (by rewrite Hth4).
  assert (Hclosed : chans st4 !! f = Some true).
  { rewrite Hch4, decide_True; [done|]. by eapply registered_range. }
  destruct (proj2 (wake_finish_enabled t st4 th f Ht4 Hpc Hf) Hclosed)
    as [st5 Hwake].
  destruct (winddown_run st4 t th FromFinish st5 Ht4 Hwake Hd)
    as (st6 & Hrun6 & Hth6 & Hw6 & Hc6 & _).
  exists st4, st6. split_and!.
  - simpl. by rewrite decide_True.
  - unfold winddown. apply run_cons. exists st5. split; [done|]. exact Hrun6.
  - by rewrite Hth6, Hth4.
  - by rewrite Hw6, Hw4.
  - by rewrite Hc6.
Qed.

(** ** The harness *)

Lemma hrun_cons (a : HAction W) acts hs hs' :
  hrun (a :: acts) hs = Ok hs' ↔
  ∃ hs1, hstep a hs = Ok hs1 ∧ hrun acts hs1 = Ok hs'.
Proof.
  cbn [hrun]. destruct (hstep a hs) as [hs1| |]; simpl.
  - split; [eauto|]. by intros (? & [= <-] & ?).
  - split; [done|]. by intros (? & ? & ?).
  - split; [done|]. by intros (? & ? & ?).
Qed.

Lemma hrun_app (acts1 : list (HAction W)) : ∀ acts2 hs hs',
  hrun (acts1 ++ acts2) hs = Ok hs' ↔
  ∃ hs1, hrun acts1 hs = Ok hs1 ∧ hrun acts2 hs1 = Ok hs'.
Proof.
  induction acts1 as [|a acts1 IH]; intros acts2 hs hs'.
  - simpl. split; [eauto|]. by intros (? & [= <-] & ?).
  - rewrite <- app_comm_cons, hrun_cons. split.
    + intros (hs1 & Hs & (hs2 & H1 & H2)%IH). exists hs2. split; [|done].
      apply hrun_cons. eauto.
    + intros (hs2 & (hs1 & Hs & H1)%hrun_cons & H2). exists hs1. split; [done|].
      apply IH. eauto.
Qed.

(** A schedule of the package is a schedule of the package with harness. *)
Lemma hrun_base (acts : list (Action W)) : ∀ (hs : HState W) st',
  run acts (base hs) = Ok st' →
  hrun (HBase <$> acts) hs = Ok (mkHState st' (harnesses hs) (printed hs)).
Proof.
  induction acts as [|a acts IH]; intros hs st' Hrun.
  - injection Hrun as <-. by destruct hs.
  - apply run_cons in Hrun as (st1 & Hstep & Hrun).
    rewrite fmap_cons. apply hrun_cons.
    exists (mkHState st1 (harnesses hs) (printed hs)). split.
    + simpl. by rewrite Hstep.
    + by apply (IH (mkHState st1 (harnesses hs) (printed hs))).
Qed.

(** What a statement of the harness does to the package is its
    projection. *)
Lemma hstep_project (a : HAction W) hs hs' :
  hstep a hs = Ok hs' → run (project a) (base hs) = Ok (base hs').
Proof.
  destruct a as [b| |k ok|k|k|k|k|k order]; simpl.
  - destruct (step b (base hs)) as [st| |]; try done. by intros [= <-].
  - by intros [= <-].
  - unfold hstep_FindProcess. destruct (harnesses hs !! k) as [h|]; [|done].
    destruct (h_main h); try done. by intros [= <-].
  - unfold hstep_GoKiller. destruct (harnesses hs !! k) as [h|]; [|done].
    destruct (h_main h); try done. by intros [= <-].
  - unfold hstep_CallMain. destruct (harnesses hs !! k) as [h|]; [|done].
    destruct (h_main h); try done. by intros [= <-].
  - unfold hstep_Cancel. destruct (harnesses hs !! k) as [h|]; [|done].
    by intros [= <-].
  - unfold hstep_Done. destruct (harnesses hs !! k) as [h|]; [|done].
    destruct (h_killer h); try done. destruct (h_ctx h); [|done].
    by intros [= <-].
  - unfold hstep_CancelAll. destruct (harnesses hs !! k) as [h|]; [|done].
    destruct (h_killer h); try done.
    destruct (step (CancelAll order) (base hs)) as [st| |] eqn:Hs; try done.
    intros [= <-]. simpl in Hs |- *. by rewrite Hs.
Qed.

Lemma hrun_project (acts : list (HAction W)) : ∀ hs hs',
  hrun acts hs = Ok hs' → run (base_schedule acts) (base hs) = Ok (base hs').
Proof.
  induction acts as [|a acts IH]; intros hs hs' Hrun.
  - by injection Hrun as <-.
  - apply hrun_cons in Hrun as (hs1 & Hstep & Hrun). cbn [base_schedule].
    apply run_app. exists (base hs1). split; [by apply hstep_project|].
    by apply IH.
Qed.

Lemma hreachable_base (hs : HState W) : hreachable hs → reachable (base hs).
Proof.
  intros (w & acts & Hrun). exists w, (base_schedule acts).
  by apply hrun_project in Hrun.
Qed.

Lemma base_schedule_origin (acts : list (HAction W)) b :
  b ∈ base_schedule acts →
  HBase b ∈ acts ∨ ∃ k order, b = CancelAll order ∧ HCancelAll k order ∈ acts.
Proof.
  induction acts as [|a acts IH]; [by intros ?%elem_of_nil|].
  cbn [base_schedule]. intros [Hin|Hin]%elem_of_app.
  - destruct a as [b0| |k ok|k|k|k|k|k order]; simpl in Hin;
      try (by apply elem_of_nil in Hin).
    + apply list_elem_of_singleton in Hin as ->. left. by left.
    + apply list_elem_of_singleton in Hin as ->. right.
      exists k, order. split; [done|]. by left.
  - destruct (IH Hin) as [?|(k & order & -> & ?)].
    + left. by right.
    + right. exists k, order. split; [done|]. by right.
Qed.

Lemma hrun_preserves (P : HState W → Prop) (allowed : HAction W → Prop) :
  (∀ a hs hs', allowed a → P hs → hstep a hs = Ok hs' → P hs') →
  ∀ acts hs hs', Forall allowed acts → P hs → hrun acts hs = Ok hs' → P hs'.
Proof.
  intros Hstep. induction acts as [|a acts IH]; intros hs hs' Hall HP Hrun.
  - by injection Hrun as <-.
  - apply Forall_cons in Hall as [Ha Hall].
    apply hrun_cons in Hrun as (hs1 & Hs & Hrun). eauto.
Qed.

Lemma hstep_harness_ok (a : HAction W) hs hs' :
  Forall harness_ok (harnesses hs) → hstep a hs = Ok hs' →
  Forall harness_ok (harnesses hs').
Proof.
  intros Hall.
  assert (Hget : ∀ k h, harnesses hs !! k = Some h → harness_ok h).
  { intros k h Hk. by eapply Forall_lookup_1. }
  destruct a as [b| |k ok|k|k|k|k|k order]; simpl.
  - destruct (step b (base hs)) as [st| |]; try done. by intros [= <-].
  - intros [= <-]. simpl. apply Forall_app. split; [done|].
    apply Forall_singleton. unfold harness_ok. simpl. split_and!.
    + split; [by left|done].
    + by intros [|].
    + reflexivity.
  - unfold hstep_FindProcess. destruct (harnesses hs !! k) as [h|] eqn:Hk; [|done].
    destruct (h_main h) eqn:Hm; try done. intros [= <-]. simpl.
    apply Forall_insert; [done|]. destruct (Hget k h Hk) as (H1 & H2 & H3).
    unfold harness_ok. simpl. split_and!; [|done|done].
    split; [by right|]. intros _. apply H1. by left.
  - unfold hstep_GoKiller. destruct (harnesses hs !! k) as [h|] eqn:Hk; [|done].
    destruct (h_main h) eqn:Hm; try done. intros [= <-]. simpl.
    apply Forall_insert; [done|]. destruct (Hget k h Hk) as (H1 & H2 & H3).
    assert (Hn : h_killer h = NotStarted) by (apply H1; by right).
    rewrite Hn in H3. simpl in H3.
    unfold harness_ok. simpl. split_and!.
    + split; [done|]. by intros [|].
    + by intros [|].
    + done.
  - unfold hstep_CallMain. destruct (harnesses hs !! k) as [h|] eqn:Hk; [|done].
    destruct (h_main h) eqn:Hm; try done. intros [= <-]. simpl.
    apply Forall_insert; [done|]. destruct (Hget k h Hk) as (H1 & H2 & H3).
    unfold harness_ok. simpl. split_and!; [|done|done].
    split; [|by intros [|]]. intros Hn. apply H1 in Hn as [|]; congruence.
  - unfold hstep_Cancel. destruct (harnesses hs !! k) as [h|] eqn:Hk; [|done].
    intros [= <-]. simpl.
    apply Forall_insert; [done|]. destruct (Hget k h Hk) as (H1 & H2 & H3).
    unfold harness_ok. simpl. by split_and!.
  - unfold hstep_Done. destruct (harnesses hs !! k) as [h|] eqn:Hk; [|done].
    destruct (h_killer h) eqn:Hkl; try done.
    destruct (h_ctx h) eqn:Hctx; [|done]. intros [= <-]. simpl.
    apply Forall_insert; [done|]. destruct (Hget k h Hk) as (H1 & H2 & H3).
    rewrite Hkl in H1, H3. simpl in H3.
    unfold harness_ok. simpl. split_and!; [|done|done].
    split; [done|]. intros Hm. by apply H1 in Hm.
  - unfold hstep_CancelAll. destruct (harnesses hs !! k) as [h|] eqn:Hk; [|done].
    destruct (h_killer h) eqn:Hkl; try done.
    destruct (step (CancelAll order) (base hs)) as [st| |]; try done.
    intros [= <-]. simpl.
    apply Forall_insert; [done|]. destruct (Hget k h Hk) as (H1 & H2 & H3).
    rewrite Hkl in H1, H2, H3. simpl in H3.
    unfold harness_ok. simpl. split_and!.
    + split; [done|]. intros Hm. by apply H1 in Hm.
    + intros _. apply H2. by left.
    + by rewrite H3.
Qed.

Lemma hreachable_harness_ok (hs : HState W) :
  hreachable hs → Forall harness_ok (harnesses hs).
Proof.
  intros (w & acts & Hrun).
  apply (hrun_preserves (λ s, Forall harness_ok (harnesses s)) (λ _, True))
    with (acts := acts) (hs := hinit w); [| |by apply Forall_nil|done].
  - intros a s s' _. apply hstep_harness_ok.
  - by apply Forall_true.
Qed.

Lemma hreachable_step (a : HAction W) hs hs' :
  hreachable hs → hstep a hs = Ok hs' → hreachable hs'.
Proof.
  intros (w & acts & Hrun) Hstep. exists w, (acts ++ [a]).
  apply hrun_app. exists hs. split; [done|]. simpl. by rewrite Hstep.
Qed.

(** A killer that has returned stays so under the statements of [quiet];
    they close no channel. *)
Lemma hstep_quiet (a : HAction W) hs hs' k h :
  Forall harness_ok (harnesses hs) → quiet k a = true →
  harnesses hs !! k = Some h → h_killer h = KillerReturned →
  hstep a hs = Ok hs' →
  (∃ h', harnesses hs' !! k = Some h' ∧ h_killer h' = KillerReturned) ∧
  closes (base hs') = closes (base hs) ∧
  (∀ f, chans (base hs') !! f = Some true → chans (base hs) !! f = Some true).
Proof.
  intros Hall Hq Hk Hret.
  assert (Hok : harness_ok h) by (by eapply Forall_lookup_1).
  assert (Hlt : k < length (harnesses hs)) by (by eapply lookup_lt_Some).
  assert (Hupd : ∀ k' h0 h1, harnesses hs !! k' = Some h0 →
            h_killer h1 = h_killer h0 →
            ∃ h', <[k' := h1]> (harnesses hs) !! k = Some h' ∧
                  h_killer h' = KillerReturned).
  { intros k' h0 h1 Hk' Heq. destruct (decide (k' = k)) as [->|Hne].
    - exists h1. rewrite list_lookup_insert_eq by done. split; [done|].
      rewrite Heq. by simplify_eq.
    - exists h. by rewrite list_lookup_insert_ne. }
  destruct a as [b| |k' ok|k'|k'|k'|k'|k' order]; simpl in Hq |- *.
  - destruct (step b (base hs)) as [st| |] eqn:Hs; try done. intros [= <-].
    simpl. split; [eauto|].
    apply negb_true_iff in Hq. split.
    + destruct (step_closed b (base hs) st 0 Hs) as [_ H].
      by destruct (H Hq) as [-> _].
    + intros f Hf. destruct (step_closed b (base hs) st f Hs) as [_ H].
      by apply (H Hq).
  - intros [= <-]. simpl. split; [|done]. exists h. split; [|done].
    by apply lookup_app_l_Some.
  - unfold hstep_FindProcess. destruct (harnesses hs !! k') as [h0|] eqn:Hk'; [|done].
    destruct (h_main h0); try done. intros [= <-]. simpl. split; [|done].
    by apply (Hupd k' h0).
  - unfold hstep_GoKiller. destruct (harnesses hs !! k') as [h0|] eqn:Hk'; [|done].
    destruct (h_main h0) eqn:Hm; try done. intros [= <-]. simpl. split; [|done].
    destruct (decide (k' = k)) as [->|Hne].
    + simplify_eq. destruct Hok as (H1 & _).
      assert (h_killer h = NotStarted) by (apply H1; by right). congruence.
    + exists h. by rewrite list_lookup_insert_ne.
  - unfold hstep_CallMain. destruct (harnesses hs !! k') as [h0|] eqn:Hk'; [|done].
    destruct (h_main h0); try done. intros [= <-]. simpl. split; [|done].
    by apply (Hupd k' h0).
  - unfold hstep_Cancel. destruct (harnesses hs !! k') as [h0|] eqn:Hk'; [|done].
    intros [= <-]. simpl. split; [|done]. by apply (Hupd k' h0).
  - unfold hstep_Done. destruct (harnesses hs !! k') as [h0|] eqn:Hk'; [|done].
    destruct (h_killer h0) eqn:Hkl; try done.
    destruct (h_ctx h0); [|done]. intros [= <-]. simpl. split; [|done].
    destruct (decide (k' = k)) as [->|Hne]; [simplify_eq; congruence|].
    exists h. by rewrite list_lookup_insert_ne.
  - apply bool_decide_eq_true in Hq as ->.
    unfold hstep_CancelAll. rewrite Hk, Hret. done.
Qed.

Lemma lookup_last_app {A} (l : list A) x : (l ++ [x]) !! length l = Some x.
Proof. by apply list_lookup_middle. Qed.

Lemma insert_last_app {A} (l : list A) x y :
  <[length l := y]> (l ++ [x]) = l ++ [y].
Proof.
  rewrite insert_app_r_alt by done. by rewrite Nat.sub_diag.
Qed.

(** [Killed(main)] up to the call of [main]. *)
Lemma killed_prefix_run (hs : HState W) ok :
  hrun [HKilled; HFindProcess (length (harnesses hs)) ok;
        HGoKiller (length (harnesses hs)); HCallMain (length (harnesses hs))] hs =
  Ok (mkHState (base hs)
        (harnesses hs ++ [mkHarness false InMain AtDone 0])
        (printed hs ++ (if ok then [] else [ErrTryingToGetPID]))).
Proof.
  cbn [hrun hstep bind]. unfold hstep_Killed. cbn [bind].
  unfold hstep_FindProcess. cbn [harnesses base printed].
  rewrite lookup_last_app. cbn [h_main h_ctx h_killer h_cancelAlls bind].
  rewrite insert_last_app.
  unfold hstep_GoKiller, set_harness. cbn [harnesses base printed].
  rewrite lookup_last_app. cbn [h_main h_ctx h_killer h_cancelAlls bind].
  rewrite insert_last_app.
  unfold hstep_CallMain, set_harness. cbn [harnesses base printed].
  rewrite lookup_last_app. cbn [h_main h_ctx h_killer h_cancelAlls bind].
  by rewrite insert_last_app.
Qed.

(** The cancel function, then the killer to its end. *)
Lemma killed_suffix_run st l pr st4 order :
  step (CancelAll order) st = Ok st4 →
  hrun [HCancel (length l); HDone (length l); HCancelAll (length l) order]
       (mkHState st (l ++ [mkHarness false InMain AtDone 0]) pr) =
  Ok (mkHState st4 (l ++ [mkHarness true InMain KillerReturned 1]) pr).
Proof.
  intros Hstep. cbn [hrun hstep bind].
  unfold hstep_Cancel, set_harness. cbn [harnesses base printed].
  rewrite lookup_last_app. cbn [h_main h_ctx h_killer h_cancelAlls bind].
  rewrite insert_last_app.
  unfold hstep_Done, set_harness. cbn [harnesses base printed].
  rewrite lookup_last_app. cbn [h_main h_ctx h_killer h_cancelAlls bind].
  rewrite insert_last_app.
  unfold hstep_CancelAll. cbn [harnesses base printed].
  rewrite lookup_last_app. cbn [h_main h_ctx h_killer h_cancelAlls].
  rewrite Hstep. cbn [bind]. by rewrite insert_last_app.
Qed.

End MoreLemmas.

(** X1. Along a schedule without [CancelAll] no channel is closed: the log
    of closes is as it was and every channel that is closed at the end was
    closed at the start.  So an invocation whose [finish] channel was not
    closed at the start cannot leave its select by the case of [finish]. *)
Theorem finish_closed_only_by_CancelAll {W : Type}
    (acts : list (Action W)) (st st' : State W) :
  run acts st = Ok st' → Forall (λ a, is_CancelAll a = false) acts →
  closes st' = closes st ∧
  (∀ f, chans st' !! f = Some true → chans st !! f = Some true) ∧
  (∀ t th' f, threads st' !! t = Some th' → t_finish th' = Some f →
     chans st !! f ≠ Some true → step (Wake t FromFinish) st' = Blocked).
Proof.
  intros Hrun Hall.
  assert (HP : closes st' = closes st ∧
               ∀ f, chans st' !! f = Some true → chans st !! f = Some true).
  { apply (run_preserves
             (λ s, closes s = closes st ∧
                   ∀ f, chans s !! f = Some true → chans st !! f = Some true)
             (λ a, is_CancelAll a = false)) with (acts := acts) (st := st);
      [|done|done|done].
    intros a s s' Ha [Hcl Hch] Hstep. split.
    - destruct (step_closed a s s' 0 Hstep) as [_ H]. destruct (H Ha) as [-> _].
      done.
    - intros f Hf. apply Hch.
      destruct (step_closed a s s' f Hstep) as [_ H]. by apply (H Ha). }
  destruct HP as [Hcl Hch]. split_and!; [done|done|].
  intros t th' f Ht Hf Hopen. simpl. unfold step_Wake. rewrite Ht.
  destruct (t_pc th'); try done. rewrite Hf.
  destruct (chans st' !! f) as [[|]|] eqn:Hc; try done.
  by apply Hch in Hc.
Qed.

Lemma finish_closed_only_by_CancelAll_witness :
  step (Wake 0 FromFinish) Demo.waiting = Blocked.
Proof.
  destruct (finish_closed_only_by_CancelAll Demo.setup (init []) Demo.waiting)
    as (_ & _ & H).
  - vm_compute. reflexivity.
  - refine (bool_decide_unpack _ _). vm_compute. exact I.
  - apply (H 0 Demo.first 0).
    + vm_compute. reflexivity.
    + vm_compute. reflexivity.
    + vm_compute. discriminate.
Defined.

(** X2. A closed [finish] channel stays closed and stays the [finish]
    channel of its invocation, whatever is executed afterwards: once
    [CancelAll] has closed it, the invocation finds the case of [finish]
    ready whenever it is at its select, also when it reaches the select
    only later. *)
Theorem closed_finish_stays_closed {W : Type} (acts : list (Action W))
    (st st' : State W) (t : nat) (th : Thread W) (f : nat) :
  reachable st → threads st !! t = Some th → t_finish th = Some f →
  chans st !! f = Some true → run acts st = Ok st' →
  ∃ th', threads st' !! t = Some th' ∧ t_finish th' = Some f ∧
    chans st' !! f = Some true ∧
    (t_pc th' = AtSelect → ∃ st'', step (Wake t FromFinish) st' = Ok st'').
Proof.
  intros Hreach Ht Hf Hcl Hrun.
  assert (HP : state_inv st' ∧ ∃ th', threads st' !! t = Some th' ∧
                 t_finish th' = Some f ∧ chans st' !! f = Some true).
  { apply (run_preserves
             (λ s, state_inv s ∧ ∃ th', threads s !! t = Some th' ∧
                     t_finish th' = Some f ∧ chans s !! f = Some true)
             (λ _, True)) with (acts := acts) (st := st).
    - intros a s s' _ [Hinv (th1 & Ht1 & Hf1 & Hc1)] Hstep.
      split; [by eapply step_ok|].
      destruct (step_thread_persist a s s' t th1 Hinv Hstep Ht1)
        as (th2 & Ht2 & _ & _ & _ & Hfin & _).
      exists th2. split_and!; [done|by apply Hfin|].
      destruct (step_closed a s s' f Hstep) as [H _]. apply H; [apply Hinv|done].
    - by apply Forall_true.
    - split; [by apply reachable_ok|]. by exists th.
    - done. }
  destruct HP as (_ & th' & Ht' & Hf' & Hc'). exists th'.
  split_and!; try done. intros Hpc.
  by apply (wake_finish_enabled t st' th' f).
Qed.

Lemma closed_finish_stays_closed_witness :
  ∃ th', threads (Demo.state_after (Demo.setup ++ [CancelAll ["u0"; "u1"]] ++
                                    Scenarios.later)) !! 0 = Some th' ∧
         t_finish th' = Some 0.
Proof.
  destruct (closed_finish_stays_closed Scenarios.later Scenarios.cancelled
              (Demo.state_after (Demo.setup ++ [CancelAll ["u0"; "u1"]] ++
                                 Scenarios.later)) 0 Demo.first 0)
    as (th' & Ht & Hf & _).
  - exists [], (Demo.setup ++ [CancelAll ["u0"; "u1"]]). vm_compute. reflexivity.
  - vm_compute. reflexivity.
  - vm_compute. reflexivity.
  - vm_compute. reflexivity.
  - vm_compute. reflexivity.
  - exists th'. split; [exact Ht | exact Hf].
Defined.

(** X3. One [CancelAll] reaches every invocation that has registered, as
    long as [uuid.New()] gave them distinct identifiers: the [finish] channel
    of each is closed when [CancelAll] returns, and each of those blocked in
    its select can leave it. *)
Theorem cancelAll_wakes_every_registered_invocation {W : Type} (w : W)
    (acts : list (Action W)) (st : State W) (order : list string)
    (st' : State W) :
  run acts (init w) = Ok st → NoDup (uuids acts) →
  step (CancelAll order) st = Ok st' →
  ∀ t th f, threads st !! t = Some th → t_finish th = Some f →
    threads st' !! t = Some th ∧ chans st' !! f = Some true ∧
    (t_pc th = AtSelect → ∃ st'', step (Wake t FromFinish) st' = Ok st'').
Proof.
  intros Hrun Hnd Hstep t th f Ht Hf.
  destruct (uniq_run w acts st Hrun Hnd) as [Hint _ _].
  assert (Hreach : reachable st) by (by exists w, acts).
  pose proof (reachable_ok _ Hreach) as Hinv.
  destruct (thread_lookup_ok _ _ _ Hinv Ht) as (Hsh & _).
  destruct (finish_logged th f Hsh Hf) as [k Hk].
  destruct (Hint _ _ _ _ Ht Hk) as [_ Hcase].
  destruct Hinv as [Hreg _]. simpl in Hstep.
  destruct (decide (range_order order _)) as [Hord|]; [|done].
  destruct (cancelAll_ok st order Hreg Hord)
    as (st2 & Hc & _ & _ & _ & Hch & _ & Hth & _).
  rewrite Hc in Hstep. injection Hstep as <-.
  assert (Hclosed : chans st2 !! f = Some true).
  { rewrite Hch. destruct Hcase as [Hentry|Hcl].
    - rewrite decide_True; [done|]. by eapply registered_range.
    - by case_decide. }
  split_and!; [by rewrite Hth|done|].
  intros Hpc. apply (wake_finish_enabled t st2 th f); try done. by rewrite Hth.
Qed.

Lemma cancelAll_wakes_every_registered_invocation_witness :
  ∃ st'', step (Wake 1 FromFinish) Scenarios.cancelled = Ok st''.
Proof.
  destruct (cancelAll_wakes_every_registered_invocation [] Demo.setup
              Demo.waiting ["u0"; "u1"] Scenarios.cancelled)
    with (t := 1) (th := Demo.second) (f := 1) as (_ & _ & H).
  - vm_compute. reflexivity.
  - refine (bool_decide_unpack _ _). vm_compute. exact I.
  - vm_compute. reflexivity.
  - vm_compute. reflexivity.
  - vm_compute. reflexivity.
  - apply H. vm_compute. reflexivity.
Defined.

(** X4. [CancelAll] twice is [CancelAll] once: right after a [CancelAll]
    the map is empty, the only order a second [range] can take is the empty
    one, and the second call returns the state unchanged. *)
Theorem cancelAll_twice_is_cancelAll_once {W : Type} (st : State W)
    (order : list string) (st1 : State W) :
  registry_inv st → step (CancelAll order) st = Ok st1 →
  step (CancelAll []) st1 = Ok st1 ∧
  ∀ order2 st2, step (CancelAll order2) st1 = Ok st2 → order2 = [] ∧ st2 = st1.
Proof.
  intros Hinv Hstep. simpl in Hstep.
  destruct (decide (range_order order _)) as [Hord|]; [|done].
  destruct (cancelAll_ok st order Hinv Hord) as (st' & Hc & Hinv1 & Hsig & _).
  rewrite Hc in Hstep. injection Hstep as <-.
  assert (Hnil : range_order [] (signals (globalCanceller st'))).
  { split; [constructor|]. by rewrite Hsig, dom_empty_L. }
  split.
  - simpl. rewrite decide_True by done.
    by destruct (cancelAll_empty st' [] Hinv1 Hsig Hnil).
  - intros order2 st2 Hstep2. simpl in Hstep2.
    destruct (decide (range_order order2 _)) as [Hord2|]; [|done].
    destruct (cancelAll_empty st' order2 Hinv1 Hsig Hord2) as [-> Hrun].
    rewrite Hrun in Hstep2. by injection Hstep2 as <-.
Qed.

Lemma cancelAll_twice_is_cancelAll_once_witness :
  step (CancelAll []) Scenarios.cancelled = Ok Scenarios.cancelled.
Proof.
  destruct (cancelAll_twice_is_cancelAll_once Demo.waiting ["u0"; "u1"]
              Scenarios.cancelled) as [H _].
  - apply (reachable_ok Demo.waiting). exists [], Demo.setup.
    vm_compute. reflexivity.
  - vm_compute. reflexivity.
  - exact H.
Defined.

(** X5. [addChannel] does not look whether the key is taken: a registration
    under a key that is in the map replaces the entry, and the channel the
    entry held is then held by no entry and is never closed, whatever is
    executed afterwards.  The invocation it belongs to can no longer leave
    its select by the case of [finish]. *)
Theorem overwritten_entry_is_never_closed {W : Type} (st : State W) (t : nat)
    (uuid : string) (f : nat) (st1 : State W) (acts : list (Action W))
    (st2 : State W) :
  reachable st → signals (globalCanceller st) !! uuid = Some f →
  step (Register t uuid) st = Ok st1 → run acts st1 = Ok st2 →
  signals (globalCanceller st1) !! uuid = Some (fresh (dom (chans st))) ∧
  fresh (dom (chans st)) ≠ f ∧
  chans st2 !! f = Some false ∧ ¬ held f st2 ∧
  ∀ t1 th1, threads st2 !! t1 = Some th1 → t_finish th1 = Some f →
            step (Wake t1 FromFinish) st2 = Blocked.
Proof.
  intros Hreach Hentry Hstep Hrun.
  pose proof (reachable_ok _ Hreach) as [Hreg _].
  destruct (register_registry_inv _ _ _ _ Hreg Hstep) as (Hreg1 & Hsig & Hch & _).
  pose proof (fresh_lookup_None (chans st)) as Hfresh.
  pose proof (ok_open _ (proj2 Hreg) _ _ Hentry) as Hopen.
  assert (Hne : fresh (dom (chans st)) ≠ f) by (intros Heq; congruence).
  assert (HP : registry_inv st2 ∧ chans st2 !! f = Some false ∧ ¬ held f st2).
  { apply (run_preserves
             (λ s, registry_inv s ∧ chans s !! f = Some false ∧ ¬ held f s)
             (λ _, True)) with (acts := acts) (st := st1).
    - intros a s s' _ (Hinv & Hf & Hh) Hs.
      split; [by eapply step_registry_inv|]. by eapply step_orphan.
    - by apply Forall_true.
    - split_and!; [done|by rewrite Hch, lookup_insert_ne|].
      intros [k Hk]. rewrite Hsig in Hk.
      apply lookup_insert_Some in Hk as [[_ ?]|[Hnk Hk]]; [done|].
      apply Hnk. by eapply (ok_inj _ (proj2 Hreg)).
    - done. }
  destruct HP as (_ & Hf2 & Hh2).
  split_and!; [by rewrite Hsig, lookup_insert_eq|done|done|done|].
  intros t1 th1 Ht1 Hfin. simpl. unfold step_Wake. rewrite Ht1.
  destruct (t_pc th1); try done. by rewrite Hfin, Hf2.
Qed.

Lemma overwritten_entry_is_never_closed_witness :
  chans (Demo.state_after (Demo.setup_called ++
           [Notify 2; Register 2 "u0"; CancelAll ["u0"; "u1"]])) !! 0
  = Some false.
Proof.
  destruct (overwritten_entry_is_never_closed Scenarios.registering 2 "u0" 0
              Scenarios.overwritten [CancelAll ["u0"; "u1"]]
              (Demo.state_after (Demo.setup_called ++
                 [Notify 2; Register 2 "u0"; CancelAll ["u0"; "u1"]])))
    as (_ & _ & H & _).
  - exists [], (Demo.setup_called ++ [Notify 2]). vm_compute. reflexivity.
  - vm_compute. reflexivity.
  - vm_compute. reflexivity.
  - vm_compute. reflexivity.
  - exact H.
Defined.

(** X6. For an invocation blocked in its select with an empty signal
    channel, a signal the operating system delivers makes the case of the
    signal channel ready exactly when the invocation was given that signal
    (or was given none); any other signal leaves its channel as it was, and
    while its [finish] channel is open the invocation stays blocked. *)
Theorem delivered_signal_wakes_iff_watched {W : Type} (st : State W) (t : nat)
    (th : Thread W) (c : nat) (sc : SigChan) (s : nat) (st1 : State W) :
  reachable st → threads st !! t = Some th → t_pc th = AtSelect →
  t_c th = Some c → sigchans st !! c = Some sc → buf sc = [] →
  step (Deliver s) st = Ok st1 →
  ((∃ st2, step (Wake t FromSignal) st1 = Ok st2) ↔
   wants (t_signals th) s = true) ∧
  (wants (t_signals th) s = false →
   sigchans st1 !! c = Some sc ∧
   ∀ f, t_finish th = Some f → chans st !! f ≠ Some true →
        ∀ src, step (Wake t src) st1 = Blocked).
Proof.
  intros Hreach Ht Hpc Hc Hsc Hb [= <-].
  destruct (thread_lookup_ok _ _ _ (reachable_ok _ Hreach) Ht)
    as (_ & _ & Hhc & _).
  destruct (Hhc c Hc) as (sc' & Hsc' & Hw). simplify_eq.
  set (st1 := set_sigchans st (relay s <$> sigchans st)).
  assert (Ht1 : threads st1 !! t = Some th) by done.
  assert (Hsc1 : sigchans st1 !! c = Some (relay s sc)).
  { simpl. by rewrite lookup_fmap, Hsc. }
  split.
  - change (step (Wake t FromSignal) st1) with (step_Wake t FromSignal st1).
    rewrite (wake_signal_enabled t st1 th c (relay s sc) Ht1 Hpc Hc Hsc1).
    split.
    + intros Hne. destruct (wants (t_signals th) s) eqn:Hs; [done|].
      by rewrite (relay_unwanted s sc _ Hw Hs) in Hne.
    + by apply relay_fills.
  - intros Hs. rewrite (relay_unwanted s sc _ Hw Hs) in Hsc1.
    split; [done|]. intros f Hf Hopen src.
    by apply (wake_blocked t st1 th c sc f).
Qed.

Lemma delivered_signal_wakes_iff_watched_witness :
  step (Wake 0 FromSignal) Scenarios.hangup = Blocked ∧
  step (Wake 0 FromFinish) Scenarios.hangup = Blocked.
Proof.
  cut (∀ src, step (Wake 0 src) Scenarios.hangup = Blocked);
    [intros H; split; apply H|].
  destruct (delivered_signal_wakes_iff_watched Demo.waiting 0 Demo.first 0
              (mkSigChan (Some [SIGINT; SIGTERM]) []) 1 Scenarios.hangup)
    as [_ H].
  - exists [], Demo.setup. vm_compute. reflexivity.
  - vm_compute. reflexivity.
  - vm_compute. reflexivity.
  - vm_compute. reflexivity.
  - vm_compute. reflexivity.
  - vm_compute. reflexivity.
  - vm_compute. reflexivity.
  - destruct H as [_ H]; [vm_compute; reflexivity|].
    apply (H 0); [vm_compute; reflexivity|vm_compute; discriminate].
Defined.

(** X7. The signal channel of an invocation is made with capacity 1: in
    every reachable state it holds at most one signal, and while it holds
    one, every further signal delivered is dropped. *)
Theorem signal_channel_holds_at_most_one {W : Type} (st : State W) (c : nat)
    (sc : SigChan) :
  reachable st → sigchans st !! c = Some sc →
  length (buf sc) ≤ 1 ∧
  (buf sc ≠ [] →
   ∀ s st1, step (Deliver s) st = Ok st1 → sigchans st1 !! c = Some sc).
Proof.
  intros Hreach Hsc. split; [by eapply (reachable_bufs st)|].
  intros Hb s st1 [= <-]. simpl.
  rewrite lookup_fmap, Hsc. simpl. by rewrite (relay_full s sc Hb).
Qed.

Lemma signal_channel_holds_at_most_one_witness :
  sigchans (Demo.state_after (Demo.setup_signalled ++ [Deliver SIGINT])) !! 0
  = Some (mkSigChan (Some [SIGINT; SIGTERM]) [SIGTERM]).
Proof.
  destruct (signal_channel_holds_at_most_one Demo.signalled 0
              (mkSigChan (Some [SIGINT; SIGTERM]) [SIGTERM])) as [_ H].
  - exists [], Demo.setup_signalled. vm_compute. reflexivity.
  - vm_compute. reflexivity.
  - apply (H ltac:(discriminate) SIGINT). vm_compute. reflexivity.
Defined.

(** X8. [AwaitKillSignals] never calls [signal.Stop]: after an invocation
    has returned its signal channel is still subscribed to the signals it
    was given, and a signal delivered then is still stored in it. *)
Theorem subscription_outlives_invocation {W : Type} (st : State W) (t : nat)
    (th : Thread W) :
  reachable st → threads st !! t = Some th → t_pc th = Returned →
  ∃ c sc, t_c th = Some c ∧ sigchans st !! c = Some sc ∧
    watched sc = Some (t_signals th) ∧
    ∀ s st1, wants (t_signals th) s = true →
      step (Deliver s) st = Ok st1 →
      ∃ sc1, sigchans st1 !! c = Some sc1 ∧
             watched sc1 = Some (t_signals th) ∧ buf sc1 ≠ [].
Proof.
  intros Hreach Ht Hpc.
  destruct (thread_lookup_ok _ _ _ (reachable_ok _ Hreach) Ht)
    as (Hsh & _ & Hhc & _).
  unfold thread_shape in Hsh. rewrite Hpc in Hsh.
  destruct Hsh as (c & key & f & src & Hc & _).
  destruct (Hhc c Hc) as (sc & Hsc & Hw).
  exists c, sc. split_and!; try done.
  intros s st1 Hs [= <-]. exists (relay s sc). split_and!.
  - simpl. by rewrite lookup_fmap, Hsc.
  - by rewrite watched_relay.
  - by eapply relay_fills.
Qed.

Lemma subscription_outlives_invocation_witness :
  ∃ c sc, t_c Scenarios.returned = Some c ∧
    sigchans Scenarios.finished !! c = Some sc ∧
    watched sc = Some [SIGINT; SIGTERM].
Proof.
  destruct (subscription_outlives_invocation Scenarios.finished 0
              Scenarios.returned) as (c & sc & Hc & Hsc & Hw & _).
  - exists [], Demo.schedule. vm_compute. reflexivity.
  - vm_compute. reflexivity.
  - vm_compute. reflexivity.
  - exists c, sc. split_and!; [exact Hc | exact Hsc | exact Hw].
Defined.

(** X9. A signal that is waiting in the channel of an invocation is not
    lost: whatever is executed, short of that invocation receiving it, the
    channel holds the same signal; so a signal that arrives while the runners
    are being started wakes the invocation as soon as it is at its select. *)
Theorem pending_signal_is_not_lost {W : Type} (acts : list (Action W))
    (st st' : State W) (t : nat) (th : Thread W) (c : nat) (sc : SigChan) :
  reachable st → threads st !! t = Some th → t_c th = Some c →
  sigchans st !! c = Some sc → buf sc ≠ [] →
  run acts st = Ok st' → Forall (λ a, is_receive t a = false) acts →
  ∃ th', threads st' !! t = Some th' ∧ t_c th' = Some c ∧
    sigchans st' !! c = Some sc ∧
    (t_pc th' = AtSelect → ∃ st'', step (Wake t FromSignal) st' = Ok st'').
Proof.
  intros Hreach Ht Hc Hsc Hb Hrun Hall.
  assert (HP : (state_inv st' ∧ sig_owned st') ∧
               (∃ th', threads st' !! t = Some th' ∧ t_c th' = Some c) ∧
               sigchans st' !! c = Some sc).
  { apply (run_preserves
             (λ s, (state_inv s ∧ sig_owned s) ∧
                   (∃ th', threads s !! t = Some th' ∧ t_c th' = Some c) ∧
                   sigchans s !! c = Some sc)
             (λ a, is_receive t a = false)) with (acts := acts) (st := st);
      [|done| |done].
    - intros a s s' Ha [[Hinv Hown] [(th1 & Ht1 & Hc1) Hsc1]] Hstep.
      split_and!.
      + by eapply step_ok.
      + by eapply step_sig_owned.
      + destruct (step_thread_persist a s s' t th1 Hinv Hstep Ht1)
          as (th2 & Ht2 & _ & _ & Hcc & _).
        exists th2. split; [done | by apply Hcc].
      + by eapply (step_pending a s s' t th1 c sc).
    - split_and!; [by apply reachable_ok|by apply reachable_sig_owned| |done].
      by exists th. }
  destruct HP as (_ & (th' & Ht' & Hc') & Hsc').
  exists th'. split_and!; try done. intros Hpc.
  by apply (wake_signal_enabled t st' th' c sc).
Qed.

Lemma pending_signal_is_not_lost_witness :
  ∃ st'', step (Wake 0 FromSignal) Scenarios.late = Ok st''.
Proof.
  destruct (pending_signal_is_not_lost Scenarios.rest_of_loop Scenarios.early
              Scenarios.late 0 Scenarios.early_thread 0
              (mkSigChan (Some [SIGINT; SIGTERM]) [SIGINT]))
    as (th' & Ht & _ & _ & H).
  - exists [], (Demo.setup_looping ++ [Deliver SIGINT]). vm_compute. reflexivity.
  - vm_compute. reflexivity.
  - vm_compute. reflexivity.
  - vm_compute. reflexivity.
  - discriminate.
  - vm_compute. reflexivity.
  - refine (bool_decide_unpack _ _). vm_compute. exact I.
  - apply H. vm_compute in Ht. injection Ht as <-. reflexivity.
Defined.

(** X10. The pattern of the package documentation, [go main()] followed by
    [CancelAll()]: from any reachable state, an invocation that is called,
    subscribes, registers under [uuid] and starts its runners, followed by a
    [CancelAll] and by the invocation leaving its select and returning, runs
    without blocking or panicking.  At the end the world is what the runners
    in the order given, then their shutdown functions in the reverse order,
    make of it; the map is empty; the invocation has returned with the log
    of exactly that; the other invocations are as they were. *)
Theorem await_then_cancelAll {W : Type} (st : State W) (sigs : list nat)
    (rs : list (RunnerFunc W)) (uuid : string) (order : list string) :
  reachable st →
  range_order order
    (<[uuid := fresh (dom (chans st))]> (signals (globalCanceller st))) →
  ∃ st',
    run (startup sigs rs (length (threads st)) uuid ++ [CancelAll order] ++
         winddown rs (length (threads st)) FromFinish) st = Ok st' ∧
    world st' = stop_all (start_all rs 0 [] (world st)).1
                         (start_all rs 0 [] (world st)).2 ∧
    signals (globalCanceller st') = ∅ ∧
    (∃ th', threads st' !! length (threads st) = Some th' ∧
       t_pc th' = Returned ∧
       t_trace th' =
         prologue (fresh (dom (sigchans st))) uuid (fresh (dom (chans st))) ++
         started (length rs) ++ [EvWake FromFinish] ++
         (EvShutdown <$> reverse (seq 0 (length rs))) ++ [EvReturn]) ∧
    (∀ t th, threads st !! t = Some th → threads st' !! t = Some th).
Proof.
  intros Hreach Hord.
  pose proof (reachable_ok _ Hreach) as Hinv.
  destruct (startup_run st sigs rs uuid (proj1 Hinv))
    as (st3 & Hrun3 & Hth3 & Hw3 & Hc3 & Hch3 & Hs3 & Hcl3).
  set (t := length (threads st)) in *.
  set (f := fresh (dom (chans st))) in *.
  set (th3 := mkThread _ _ _ _ _ _ _) in Hth3.
  pose proof (run_ok _ _ _ Hinv Hrun3) as [Hreg3 _].
  assert (Ht3 : threads st3 !! t = Some th3).
  { rewrite Hth3. by apply list_lookup_middle. }
  destruct (cancel_then_return st3 t th3 f uuid order Hreg3 Ht3 eq_refl eq_refl)
    as (st4 & st6 & Hstep4 & Hrun6 & Hth6 & Hw6 & Hsig6).
  { rewrite Hc3. simpl. apply lookup_insert_eq. }
  { subst th3. cbn [t_defers t_runners]. rewrite start_all_indices.
    apply app_nil_r. }
  { by rewrite Hc3. }
  exists st6. split_and!.
  - apply run_app. exists st3. split; [done|].
    cbn [app]. apply run_cons. exists st4. split; [done|]. exact Hrun6.
  - by rewrite Hw6, Hw3.
  - done.
  - eexists. split_and!.
    + rewrite Hth6. apply list_lookup_insert_eq. by eapply lookup_lt_Some.
    + done.
    + subst th3. cbn [t_trace advance]. by rewrite <- !app_assoc.
  - intros t' th' Ht'. rewrite Hth6, Hth3.
    assert (t' < t) by (by eapply lookup_lt_Some).
    rewrite list_lookup_insert_ne by lia. by apply lookup_app_l_Some.
Qed.

Lemma await_then_cancelAll_witness :
  ∃ st',
    run (startup [SIGINT; SIGTERM]
           [Demo.runner "A"; Demo.runner "B"; Demo.runner "C"] 0 "u0" ++
         [CancelAll ["u0"]] ++
         winddown [Demo.runner "A"; Demo.runner "B"; Demo.runner "C"] 0
           FromFinish) (init []) = Ok st' ∧
    world st' = ["start A"; "start B"; "start C"; "stop C"; "stop B"; "stop A"].
Proof.
  destruct (await_then_cancelAll (init []) [SIGINT; SIGTERM]
              [Demo.runner "A"; Demo.runner "B"; Demo.runner "C"] "u0" ["u0"])
    as (st' & Hrun & Hw & _).
  - exists [], []. reflexivity.
  - refine (bool_decide_unpack _ _). vm_compute. exact I.
  - exists st'. split; [exact Hrun|]. rewrite Hw. vm_compute. reflexivity.
Defined.

(** X11. The same with a signal in place of [CancelAll]: when a signal the
    invocation was given (or any signal when it was given none) is delivered
    while it is at its select, it leaves by the case of the signal channel,
    runs the shutdown functions in the reverse order and returns; the world
    is as in X10, and its entry is still in the map, with its [finish]
    channel open. *)
Theorem await_then_signal {W : Type} (st : State W) (sigs : list nat)
    (rs : list (RunnerFunc W)) (uuid : string) (s : nat) :
  reachable st → wants sigs s = true →
  ∃ st',
    run (startup sigs rs (length (threads st)) uuid ++ [Deliver s] ++
         winddown rs (length (threads st)) FromSignal) st = Ok st' ∧
    world st' = stop_all (start_all rs 0 [] (world st)).1
                         (start_all rs 0 [] (world st)).2 ∧
    signals (globalCanceller st') !! uuid = Some (fresh (dom (chans st))) ∧
    chans st' !! fresh (dom (chans st)) = Some false ∧
    (∃ th', threads st' !! length (threads st) = Some th' ∧
       t_pc th' = Returned ∧
       t_trace th' =
         prologue (fresh (dom (sigchans st))) uuid (fresh (dom (chans st))) ++
         started (length rs) ++ [EvWake FromSignal] ++
         (EvShutdown <$> reverse (seq 0 (length rs))) ++ [EvReturn]) ∧
    (∀ t th, threads st !! t = Some th → threads st' !! t = Some th).
Proof.
  intros Hreach Hs.
  pose proof (reachable_ok _ Hreach) as Hinv.
  destruct (startup_run st sigs rs uuid (proj1 Hinv))
    as (st3 & Hrun3 & Hth3 & Hw3 & Hc3 & Hch3 & Hs3 & Hcl3).
  set (t := length (threads st)) in *.
  set (f := fresh (dom (chans st))) in *.
  set (c := fresh (dom (sigchans st))) in *.
  set (th3 := mkThread _ _ _ _ _ _ _) in Hth3.
  set (st4 := set_sigchans st3 (relay s <$> sigchans st3)).
  assert (Ht4 : threads st4 !! t = Some th3).
  { simpl. rewrite Hth3. by apply list_lookup_middle. }
  assert (Hsc4 : sigchans st4 !! c = Some (relay s (mkSigChan (Some sigs) []))).
  { simpl. by rewrite lookup_fmap, Hs3, lookup_insert_eq. }
  destruct (proj2 (wake_signal_enabled t st4 th3 c _ Ht4 eq_refl eq_refl Hsc4))
    as [st5 Hwake]; [by eapply relay_fills|].
  destruct (winddown_run st4 t th3 FromSignal st5 Ht4 Hwake)
    as (st6 & Hrun6 & Hth6 & Hw6 & Hc6 & Hch6 & _).
  { subst th3. cbn [t_defers t_runners]. rewrite start_all_indices.
    apply app_nil_r. }
  exists st6. split_and!.
  - apply run_app. exists st3. split; [done|].
    cbn [app winddown]. apply run_cons. exists st4. split; [done|].
    apply run_cons. exists st5. split; [done|]. exact Hrun6.
  - by rewrite Hw6, <- Hw3.
  - rewrite Hc6. simpl. rewrite Hc3. simpl. apply lookup_insert_eq.
  - rewrite Hch6. simpl. rewrite Hch3. apply lookup_insert_eq.
  - eexists. split_and!.
    + rewrite Hth6. apply list_lookup_insert_eq. by eapply lookup_lt_Some.
    + done.
    + subst th3. cbn [t_trace advance]. by rewrite <- !app_assoc.
  - intros t' th' Ht'. rewrite Hth6. simpl. rewrite Hth3.
    assert (t' < t) by (by eapply lookup_lt_Some).
    rewrite list_lookup_insert_ne by lia. by apply lookup_app_l_Some.
Qed.

Lemma await_then_signal_witness :
  ∃ st',
    run (startup [SIGINT; SIGTERM] [Demo.runner "A"; Demo.runner "B"] 0 "u0" ++
         [Deliver SIGTERM] ++
         winddown [Demo.runner "A"; Demo.runner "B"] 0 FromSignal) (init [])
    = Ok st' ∧
    world st' = ["start A"; "start B"; "stop B"; "stop A"] ∧
    signals (globalCanceller st') !! "u0" = Some 0.
Proof.
  destruct (await_then_signal (init []) [SIGINT; SIGTERM]
              [Demo.runner "A"; Demo.runner "B"] "u0" SIGTERM)
    as (st' & Hrun & Hw & Hsig & _).
  - exists [], []. reflexivity.
  - vm_compute. reflexivity.
  - exists st'. split_and!; [exact Hrun| |exact Hsig].
    rewrite Hw. vm_compute. reflexivity.
Defined.

(** X12. [Killed], [runMain] and [killMainWhenDone] act on the package
    only by calls of [CancelAll]: a run of the package with the harness is
    a run of the package alone, in which every action is one of the given
    actions of the package or a [CancelAll] of a killer.  In particular the
    harness delivers no signal. *)
Theorem harness_acts_only_by_CancelAll {W : Type}
    (acts : list (HAction W)) (hs hs' : HState W) :
  hrun acts hs = Ok hs' →
  run (base_schedule acts) (base hs) = Ok (base hs') ∧
  (∀ b, b ∈ base_schedule acts →
     HBase b ∈ acts ∨
     ∃ k order, b = CancelAll order ∧ HCancelAll k order ∈ acts) ∧
  (∀ s, Deliver s ∈ base_schedule acts → HBase (Deliver s) ∈ acts).
Proof.
  intros Hrun. split_and!.
  - by apply hrun_project.
  - apply base_schedule_origin.
  - intros s Hin.
    by destruct (base_schedule_origin acts _ Hin) as [?|(k & order & ? & _)].
Qed.

Lemma harness_acts_only_by_CancelAll_witness :
  run (base_schedule Scenarios.killed_and_cancelled) (init []) =
  Ok (base (Scenarios.hstate_after Scenarios.killed_and_cancelled)).
Proof.
  destruct (harness_acts_only_by_CancelAll Scenarios.killed_and_cancelled
              (hinit [])
              (Scenarios.hstate_after Scenarios.killed_and_cancelled))
    as (H & _).
  - vm_compute. reflexivity.
  - exact H.
Defined.

(** X13. In every reachable state each call of [Killed] is in order: its
    killer has been started exactly when [runMain] is past its go
    statement, and has called [CancelAll] once when it has returned and not
    at all before.  As long as the cancel function has not been called the
    killer can neither pass [<-ctx.Done()] nor call [CancelAll]; once it
    has returned it does neither again. *)
Theorem killer_calls_CancelAll_once_after_cancel {W : Type}
    (hs : HState W) (k : nat) (h : Harness) :
  hreachable hs → harnesses hs !! k = Some h →
  harness_ok h ∧
  (h_ctx h = false ∨ h_killer h = KillerReturned →
   hstep (HDone k) hs = Blocked ∧
   ∀ order, hstep (HCancelAll k order) hs = Blocked).
Proof.
  intros Hreach Hk.
  assert (Hok : harness_ok h).
  { exact (Forall_lookup_1 _ _ _ _ (hreachable_harness_ok _ Hreach) Hk). }
  split; [done|]. destruct Hok as (H1 & H2 & H3).
  intros Hcase. simpl. unfold hstep_Done, hstep_CancelAll. rewrite Hk.
  destruct Hcase as [Hctx|Hret].
  - destruct (h_killer h) eqn:Hkl.
    + done.
    + by rewrite Hctx.
    + rewrite H2 in Hctx by (by left). done.
    + done.
  - by rewrite Hret.
Qed.

Lemma killer_calls_CancelAll_once_after_cancel_witness :
  hstep (HDone 0) Scenarios.not_cancelled = Blocked ∧
  hstep (HDone 0) Scenarios.hasty = Blocked.
Proof.
  split.
  - destruct (killer_calls_CancelAll_once_after_cancel Scenarios.not_cancelled 0
                (mkHarness false InMain AtDone 0)) as (_ & H).
    + exists [], [HKilled; HFindProcess 0 false; HGoKiller 0; HCallMain 0].
      vm_compute. reflexivity.
    + vm_compute. reflexivity.
    + apply H. left. reflexivity.
  - destruct (killer_calls_CancelAll_once_after_cancel Scenarios.hasty 0
                (mkHarness true AtMain KillerReturned 1)) as (_ & H).
    + exists [], Scenarios.hasty_schedule. vm_compute. reflexivity.
    + vm_compute. reflexivity.
    + apply H. right. reflexivity.
Defined.

(** X14. The use of [Killed] its documentation describes: from any
    reachable state, [kill := Killed(main)] where [main] calls
    [AwaitKillSignals(sigs, rs...)], and [kill()] once that invocation is at
    its select, runs to the end without blocking or panicking, whether
    [os.FindProcess] fails or not: the killer calls [CancelAll] and returns,
    the invocation returns, the world is what the runners in the order
    given, then their shutdown functions in the reverse order, make of it,
    and the map is empty.  A failure of [os.FindProcess] is printed and has
    no other effect. *)
Theorem killed_then_cancel {W : Type} (hs : HState W) (ok : bool)
    (sigs : list nat) (rs : list (RunnerFunc W)) (uuid : string)
    (order : list string) :
  hreachable hs →
  range_order order
    (<[uuid := fresh (dom (chans (base hs)))]>
       (signals (globalCanceller (base hs)))) →
  ∃ hs',
    hrun (killed_startup (length (harnesses hs)) ok sigs rs
            (length (threads (base hs))) uuid ++
          killed_shutdown (length (harnesses hs)) order rs
            (length (threads (base hs)))) hs = Ok hs' ∧
    world (base hs') = stop_all (start_all rs 0 [] (world (base hs))).1
                                (start_all rs 0 [] (world (base hs))).2 ∧
    signals (globalCanceller (base hs')) = ∅ ∧
    (∃ th', threads (base hs') !! length (threads (base hs)) = Some th' ∧
       t_pc th' = Returned) ∧
    harnesses hs' = harnesses hs ++ [mkHarness true InMain KillerReturned 1] ∧
    printed hs' = printed hs ++ (if ok then [] else [ErrTryingToGetPID]).
Proof.
  intros Hreach Hord.
  pose proof (reachable_ok _ (hreachable_base _ Hreach)) as Hinv.
  destruct (startup_run (base hs) sigs rs uuid (proj1 Hinv))
    as (st3 & Hrun3 & Hth3 & Hw3 & Hc3 & Hch3 & Hs3 & Hcl3).
  set (t := length (threads (base hs))) in *.
  set (f := fresh (dom (chans (base hs)))) in *.
  set (th3 := mkThread _ _ _ _ _ _ _) in Hth3.
  pose proof (run_ok _ _ _ Hinv Hrun3) as [Hreg3 _].
  assert (Ht3 : threads st3 !! t = Some th3).
  { rewrite Hth3. by apply list_lookup_middle. }
  destruct (cancel_then_return st3 t th3 f uuid order Hreg3 Ht3 eq_refl eq_refl)
    as (st4 & st6 & Hstep4 & Hrun6 & Hth6 & Hw6 & Hsig6).
  { rewrite Hc3. simpl. apply lookup_insert_eq. }
  { subst th3. cbn [t_defers t_runners]. rewrite start_all_indices.
    apply app_nil_r. }
  { by rewrite Hc3. }
  set (pr := printed hs ++ (if ok then [] else [ErrTryingToGetPID])).
  set (l := harnesses hs).
  exists (mkHState st6 (l ++ [mkHarness true InMain KillerReturned 1]) pr).
  split_and!; try done.
  - unfold killed_startup, killed_shutdown.
    apply hrun_app.
    exists (mkHState st3 (l ++ [mkHarness false InMain AtDone 0]) pr).
    split.
    + apply hrun_app.
      exists (mkHState (base hs) (l ++ [mkHarness false InMain AtDone 0]) pr).
      split; [apply killed_prefix_run|].
      by apply (hrun_base _ (mkHState (base hs) _ pr)).
    + apply hrun_app.
      exists (mkHState st4 (l ++ [mkHarness true InMain KillerReturned 1]) pr).
      split; [by apply killed_suffix_run|].
      by apply (hrun_base _ (mkHState st4 _ pr)).
  - simpl. by rewrite Hw6, Hw3.
  - eexists. split.
    + simpl. rewrite Hth6. apply list_lookup_insert_eq.
      by eapply lookup_lt_Some.
    + done.
Qed.

Lemma killed_then_cancel_witness :
  ∃ hs',
    hrun Scenarios.killed_and_cancelled (hinit []) = Ok hs' ∧
    world (base hs') = ["start A"; "start B"; "stop B"; "stop A"] ∧
    harnesses hs' = [mkHarness true InMain KillerReturned 1].
Proof.
  destruct (killed_then_cancel (hinit []) true [SIGINT]
              [Demo.runner "A"; Demo.runner "B"] "u0" ["u0"])
    as (hs' & Hrun & Hw & _ & _ & Hh & _).
  - exists [], []. reflexivity.
  - refine (bool_decide_unpack _ _). vm_compute. exact I.
  - exists hs'. split_and!.
    + exact Hrun.
    + rewrite Hw. vm_compute. reflexivity.
    + exact Hh.
Defined.

(** X15. A call of [Killed] cancels once: when its killer has returned,
    whatever is executed afterwards, short of a [CancelAll] by somebody
    else, the killer stays returned with its one call of [CancelAll], also
    when the cancel function is called again, and no channel is closed.
    So an invocation whose [finish] channel was not closed by then, for one
    because it registered only afterwards, cannot leave its select by the
    case of [finish]. *)
Theorem killed_cancels_only_once {W : Type} (acts : list (HAction W))
    (hs hs' : HState W) (k : nat) (h : Harness) :
  hreachable hs → harnesses hs !! k = Some h → h_killer h = KillerReturned →
  Forall (λ a, quiet k a = true) acts → hrun acts hs = Ok hs' →
  (∃ h', harnesses hs' !! k = Some h' ∧ h_killer h' = KillerReturned ∧
         h_cancelAlls h' = 1) ∧
  closes (base hs') = closes (base hs) ∧
  (∀ t th f, threads (base hs') !! t = Some th → t_finish th = Some f →
     chans (base hs) !! f ≠ Some true →
     step (Wake t FromFinish) (base hs') = Blocked).
Proof.
  intros Hreach Hk Hret Hall Hrun.
  assert (HP : Forall harness_ok (harnesses hs') ∧
               (∃ h', harnesses hs' !! k = Some h' ∧
                      h_killer h' = KillerReturned) ∧
               closes (base hs') = closes (base hs) ∧
               ∀ f, chans (base hs') !! f = Some true →
                    chans (base hs) !! f = Some true).
  { apply (hrun_preserves
             (λ s, Forall harness_ok (harnesses s) ∧
                   (∃ h', harnesses s !! k = Some h' ∧
                          h_killer h' = KillerReturned) ∧
                   closes (base s) = closes (base hs) ∧
                   ∀ f, chans (base s) !! f = Some true →
                        chans (base hs) !! f = Some true)
             (λ a, quiet k a = true)) with (acts := acts) (hs := hs);
      [|done| |done].
    - intros a s s' Ha (Hok & (h0 & Hk0 & Hret0) & Hcl & Hch) Hstep.
      destruct (hstep_quiet a s s' k h0 Hok Ha Hk0 Hret0 Hstep)
        as (Hk' & Hcl' & Hch').
      split_and!.
      + by eapply hstep_harness_ok.
      + done.
      + by rewrite Hcl'.
      + intros f Hf. by apply Hch, Hch'.
    - split_and!; [by apply hreachable_harness_ok|by exists h|done|done]. }
  destruct HP as (Hok & (h' & Hk' & Hret') & Hcl & Hch). split_and!.
  - exists h'. split_and!; [done|done|].
    assert (Hh' : harness_ok h') by (by eapply Forall_lookup_1).
    destruct Hh' as (_ & _ & ->). by rewrite Hret'.
  - done.
  - intros t th f Ht Hf Hopen. simpl. unfold step_Wake. rewrite Ht.
    destruct (t_pc th); try done. rewrite Hf.
    destruct (chans (base hs') !! f) as [[|]|] eqn:Hc; try done.
    by apply Hch in Hc.
Qed.

Lemma killed_cancels_only_once_witness :
  t_pc Scenarios.too_late_thread = AtSelect ∧
  step (Wake 0 FromFinish) (base Scenarios.too_late) = Blocked.
Proof.
  split; [vm_compute; reflexivity|].
  destruct (killed_cancels_only_once Scenarios.after_hasty Scenarios.hasty
              Scenarios.too_late 0 (mkHarness true AtMain KillerReturned 1))
    as (_ & _ & H).
  - exists [], Scenarios.hasty_schedule. vm_compute. reflexivity.
  - vm_compute. reflexivity.
  - reflexivity.
  - refine (bool_decide_unpack _ _). vm_compute. exact I.
  - vm_compute. reflexivity.
  - apply (H 0 Scenarios.too_late_thread 0).
    + vm_compute. reflexivity.
    + vm_compute. reflexivity.
    + vm_compute. discriminate.
Defined.
